(** * sqlmodel_crud: the generic CRUD service over a mapping-layer session

    A shallow embedding of [sqlmodel_crud/crud_service.py].  The service
    methods are written in a state-and-exception monad over a [World] that
    holds the Python heap of model instances and the one [Session] the
    service owns.  The session itself (SQLAlchemy/SQLModel) is an external
    collaborator: its operations are given a small executable reference
    semantics that records every call, so that statements about "how many
    commits" or "no refresh" are statements about the recorded calls. *)

From stdpp Require Import gmap strings list fin_maps pretty.
From Stdlib Require Import ZArith Lia.

Open Scope string_scope.
Open Scope list_scope.

(** ** Python values that occur as column values and keys *)

(** [AtomicPrimaryKey = Union[int, str]]. *)
Inductive atom :=
  | AInt (z : Z)
  | AStr (s : string).

#[global] Instance atom_eq_dec : EqDecision atom.
Proof. solve_decision. Defined.

(** A column value: [None] or an atomic value. *)
Definition value := option atom.

(** What a caller can pass where a primary key is expected.  The first
    five shapes are the members of the [PrimaryKey] union: its [Mapping]
    member is either a [dict], the class the code tests for, or a mapping
    of another class (a [MappingProxyType], say), which iterates over its
    names.  The remaining constructors are Python objects outside the
    union. *)
Inductive key :=
  | KAtom (a : atom)
  | KTuple (l : list atom)
  | KList (l : list atom)
  | KDict (d : list (string * atom))
  | KMapping (d : list (string * atom))
  | KNone
  | KSet (l : list atom).

#[global] Instance key_eq_dec : EqDecision key.
Proof. solve_decision. Defined.

(** [str(x)] on an atomic value: a string is itself, an int is its decimal
    rendering. *)
Definition str (a : atom) : string :=
  match a with
  | AInt z => pretty z
  | AStr s => s
  end.

(** [sep.join(parts)]. *)
Definition join (sep : string) (parts : list string) : string :=
  String.concat sep parts.

(** ** Exceptions *)

(** Modelled from the spec: the classes of [sqlmodel_crud.exception]
    ([ServiceException], [NotFound], [MultipleResultsFound],
    [CommitFailed]), a module the service imports and the sources do not
    include; next to them the Python, pydantic and SQLAlchemy exceptions
    the service meets. *)
Inductive exn_class :=
  (* Python built-ins *)
  | AttributeError
  | ValueError
  (* pydantic *)
  | ValidationError
  (* sqlalchemy.exc *)
  | SaNoResultFound
  | SaMultipleResultsFound
  | SaInvalidRequestError
  | SaIntegrityError
  | SaOperationalError
  (* sqlmodel_crud.exception *)
  | ServiceException
  | NotFound
  | MultipleResultsFound
  | CommitFailed.

#[global] Instance exn_class_eq_dec : EqDecision exn_class.
Proof. solve_decision. Defined.

(** An exception instance: its class and its message; [ExnFrom] is an
    exception raised with [raise ... from cause], which records the cause
    in [__cause__]. *)
Inductive exn :=
  | Exn (c : exn_class) (msg : string)
  | ExnFrom (c : exn_class) (msg : string) (cause : exn).

Definition exn_cls (e : exn) : exn_class :=
  match e with Exn c _ | ExnFrom c _ _ => c end.

Inductive result (A : Type) :=
  | Ok (a : A)
  | Err (e : exn).
Arguments Ok {A} a.
Arguments Err {A} e.

(** ** [_format_primary_key] (pure: it touches neither heap nor session) *)

Definition _format_primary_key (pk : key) : result string :=
  match pk with
  | KAtom a =>                       (* isinstance(pk, (str, int)) *)
      Ok (str a)
  | KTuple l | KList l =>            (* isinstance(pk, (tuple, list)) *)
      Ok (join "|" (map str l))
  | KDict d =>                       (* isinstance(pk, dict) *)
      Ok (join "|" (map (fun '(k, v) => (k ++ ":" ++ str v)%string) d))
  | KMapping _ | KNone | KSet _ =>
      Err (Exn ValueError "Unrecognized primary key type.")
  end.

(** ** Model classes and transfer shapes *)

(** A model instance (and a table row) is its attribute dictionary. *)
Abbreviation obj := (gmap string value).

(** Modelled from the spec: the model type collaborator.  The table model
    class bound to a service: its mapped columns, the names of its
    primary-key columns, whether the store generates a missing single
    integer key, and [model_validate], the validation/hydration function of
    the class, which rejects an invalid shape with a validation error. *)
Record model_class := {
  columns : list string;
  primary_key : list string;
  autoincrement : bool;
  model_validate : obj -> result obj;
}.

(** An update input: its fields with their current values, in declaration
    order, and [model_fields_set], the fields the caller set explicitly. *)
Record update_input := {
  model_fields : list (string * value);
  model_fields_set : list string;
}.

(** Modelled from the spec: [data.model_dump(exclude_unset=True)], the
    mapping of only the explicitly set field names to their values. *)
Definition model_dump_exclude_unset (data : update_input)
  : list (string * value) :=
  List.filter (fun kv => bool_decide (kv.1 ∈ model_fields_set data))
              (model_fields data).

(** ** The world: Python heap, session, store *)

(** The calls the service makes on its session. *)
Inductive call :=
  | CAdd (r : nat)
  | CAddAll (rs : list nat)
  | CCommit
  | CRollback
  | CRefresh (r : nat)
  | CDelete (r : nat)
  | CGet (k : key)
  | CExec.

#[global] Instance call_eq_dec : EqDecision call.
Proof. solve_decision. Defined.

Record World := {
  heap : list obj;                        (* model instances, by address *)
  sess_new : list nat;                    (* pending instances *)
  sess_dirty : list nat;                  (* modified persistent instances *)
  sess_deleted : list nat;                (* instances marked for deletion *)
  sess_identity : list (list value * nat);(* identity map: key, instance *)
  table : list obj;                       (* committed rows, store order *)
  commit_faults : list (option exn);      (* outcome of the coming commits *)
  calls : list call;                      (* session calls made so far *)
}.

Definition log (c : call) (w : World) : World :=
  {| heap := heap w; sess_new := sess_new w; sess_dirty := sess_dirty w;
     sess_deleted := sess_deleted w; sess_identity := sess_identity w;
     table := table w; commit_faults := commit_faults w;
     calls := calls w ++ [c] |}.

Definition set_heap (h : list obj) (w : World) : World :=
  {| heap := h; sess_new := sess_new w; sess_dirty := sess_dirty w;
     sess_deleted := sess_deleted w; sess_identity := sess_identity w;
     table := table w; commit_faults := commit_faults w; calls := calls w |}.

Definition set_new (l : list nat) (w : World) : World :=
  {| heap := heap w; sess_new := l; sess_dirty := sess_dirty w;
     sess_deleted := sess_deleted w; sess_identity := sess_identity w;
     table := table w; commit_faults := commit_faults w; calls := calls w |}.

Definition set_dirty (l : list nat) (w : World) : World :=
  {| heap := heap w; sess_new := sess_new w; sess_dirty := l;
     sess_deleted := sess_deleted w; sess_identity := sess_identity w;
     table := table w; commit_faults := commit_faults w; calls := calls w |}.

Definition set_deleted (l : list nat) (w : World) : World :=
  {| heap := heap w; sess_new := sess_new w; sess_dirty := sess_dirty w;
     sess_deleted := l; sess_identity := sess_identity w;
     table := table w; commit_faults := commit_faults w; calls := calls w |}.

Definition set_identity (i : list (list value * nat)) (w : World) : World :=
  {| heap := heap w; sess_new := sess_new w; sess_dirty := sess_dirty w;
     sess_deleted := sess_deleted w; sess_identity := i;
     table := table w; commit_faults := commit_faults w; calls := calls w |}.

Definition set_faults (f : list (option exn)) (w : World) : World :=
  {| heap := heap w; sess_new := sess_new w; sess_dirty := sess_dirty w;
     sess_deleted := sess_deleted w; sess_identity := sess_identity w;
     table := table w; commit_faults := f; calls := calls w |}.

(** ** The monad of service code: state passing with Python exceptions *)

Definition M (A : Type) : Type := World -> result A * World.

Definition ret {A} (a : A) : M A := fun w => (Ok a, w).

Definition raise {A} (e : exn) : M A := fun w => (Err e, w).

Definition bind {A B} (m : M A) (k : A -> M B) : M B :=
  fun w => match m w with
           | (Ok a, w') => k a w'
           | (Err e, w') => (Err e, w')
           end.

(** [try: m  except Exception as e: h e]. *)
Definition try_except {A} (m : M A) (h : exn -> M A) : M A :=
  fun w => match m w with
           | (Ok a, w') => (Ok a, w')
           | (Err e, w') => h e w'
           end.

Declare Scope py_scope.
Delimit Scope py_scope with py.
Notation "x <- m ;; k" := (bind m (fun x => k))
  (at level 20, m at level 99, k at level 200, only parsing) : py_scope.
Notation "m ;; k" := (bind m (fun _ => k))
  (at level 100, k at level 200, only parsing, right associativity)
  : py_scope.
Open Scope py_scope.

(** A list comprehension [[f x for x in xs]]: left to right, stopping at
    the first exception. *)
Fixpoint list_comp {A B} (f : A -> M B) (xs : list A) : M (list B) :=
  match xs with
  | [] => ret []
  | x :: xs' => y <- f x ;; ys <- list_comp f xs' ;; ret (y :: ys)
  end.

(** A [for] loop run for its effects. *)
Fixpoint for_each {A} (xs : list A) (body : A -> M unit) : M unit :=
  match xs with
  | [] => ret tt
  | x :: xs' => body x ;; for_each xs' body
  end.

(** ** Plain Python operations on the heap *)

(** Instantiating a model: a new object at a fresh address. *)
Definition alloc (o : obj) : M nat :=
  fun w => (Ok (length (heap w)), set_heap (heap w ++ [o]) w).

Definition is_persistent (r : nat) (w : World) : bool :=
  bool_decide (r ∈ (sess_identity w).*2).

(** A persistent instance whose attribute is assigned is noted as modified
    by the session that tracks it. *)
Definition note_modified (item : nat) (w : World) : World :=
  if is_persistent item w && negb (bool_decide (item ∈ sess_dirty w))
  then set_dirty (sess_dirty w ++ [item]) w else w.

(** [setattr(item, name, v)] on a mapped instance: plain attribute
    assignment, seen by the session. *)
Definition setattr (item : nat) (name : string) (v : value) : M unit :=
  fun w =>
    (Ok tt,
     note_modified item
       (set_heap (alter (fun o => <[name := v]> o) item (heap w)) w)).

(** ** The session bound to one table model

    The session is SQLAlchemy's and not part of the sources.  Its
    operations below follow the spec's account of the collaborator
    ([add], [addAll], [commit], [rollback], [refresh], [get], [execute]),
    made precise enough to run: instances are tracked by an identity map,
    pending work is flushed on commit, and the table enforces its
    primary-key constraint.  Flushing before a query and transactions
    spanning several commits are not modelled. *)

Section Service.

Context (Model : model_class).

(** The primary-key values of an instance or row (a missing attribute
    reads as [None]). *)
Definition row_key (o : obj) : list value :=
  map (fun c => default None (o !! c)) (primary_key Model).

Definition populated (k : list value) : bool :=
  forallb (fun v => bool_decide (is_Some v)) k.

Definition find_row (k : list value) (tbl : list obj) : option obj :=
  List.find (fun row => bool_decide (row_key row = k)) tbl.

Definition identity_lookup (k : list value)
    (idm : list (list value * nat)) : option nat :=
  snd <$> List.find (fun p => bool_decide (p.1 = k)) idm.

Definition identity_key (r : nat)
    (idm : list (list value * nat)) : option (list value) :=
  fst <$> List.find (fun p => bool_decide (p.2 = r)) idm.

(** Modelled from the spec: the values a key addresses, one per
    primary-key column, as [Session.get] reads its [ident] argument: a scalar stands for a
    one-column key, a sequence gives the values in column order, a dict
    gives them by column name.  Any other iterable is read as the sequence
    of its elements, which for a mapping that is not a dict are its
    names. *)
Definition key_values (k : key) : result (list value) :=
  let arity (vs : list value) :=
    if bool_decide (length vs = length (primary_key Model)) then Ok vs
    else Err (Exn SaInvalidRequestError
      "Incorrect number of values in identifier to formulate primary key")
  in
  match k with
  | KAtom a => arity [Some a]
  | KNone => arity [None]
  | KTuple l | KList l | KSet l => arity (map Some l)
  | KMapping d => arity (map (fun kv => Some (AStr kv.1)) d)
  | KDict d =>
      if bool_decide (length d = length (primary_key Model)) then
        match mapM (fun c => snd <$> List.find (fun kv => String.eqb kv.1 c) d)
                   (primary_key Model) with
        | Some vs => Ok (map Some vs)
        | None => Err (Exn SaInvalidRequestError
            "Incorrect names of values in identifier to formulate primary key")
        end
      else Err (Exn SaInvalidRequestError
        "Incorrect number of values in identifier to formulate primary key")
  end.

(** Modelled from the spec: [add(item)] and [addAll(items)] stage one or
    many instances for the next commit.  A pending instance is remembered
    once; a persistent instance is already tracked. *)
Definition stage (w : World) (r : nat) : World :=
  if is_persistent r w || bool_decide (r ∈ sess_new w) then w
  else set_new (sess_new w ++ [r]) w.

Definition session_add (item : nat) : M unit :=
  fun w => (Ok tt, stage (log (CAdd item) w) item).

Definition session_add_all (items : list nat) : M unit :=
  fun w => (Ok tt, foldl stage (log (CAddAll items) w) items).

(** Modelled from the spec: [session.delete(item)] stages the deletion of
    a persistent instance. *)
Definition session_delete (item : nat) : M unit :=
  fun w =>
    let w1 := log (CDelete item) w in
    if is_persistent item w1
    then (Ok tt, set_deleted (sess_deleted w1 ++ [item]) w1)
    else (Err (Exn SaInvalidRequestError "Instance is not persisted"), w1).

(** *** Flushing pending work to the table *)

(** The key the store generates for a row inserted without one. *)
Definition next_id (tbl : list obj) : Z :=
  (1 + foldr (fun row acc =>
                match row_key row with
                | [Some (AInt z)] => Z.max z acc
                | _ => acc
                end) 0 tbl)%Z.

Definition generate_key (tbl : list obj) (o : obj) : obj :=
  match primary_key Model with
  | [c] =>
      if autoincrement Model && bool_decide (default None (o !! c) = None)
      then <[c := Some (AInt (next_id tbl))]> o
      else o
  | _ => o
  end.

Definition replace_row (k : list value) (o : obj) (tbl : list obj)
  : list obj :=
  map (fun row => if bool_decide (row_key row = k) then o else row) tbl.

Definition delete_row (k : list value) (tbl : list obj) : list obj :=
  List.filter (fun row => negb (bool_decide (row_key row = k))) tbl.

Definition rekey (r : nat) (k : list value)
    (idm : list (list value * nat)) : list (list value * nat) :=
  map (fun p => if bool_decide (p.2 = r) then (k, r) else p) idm.

(** What a flush works on: heap, table, identity map. *)
Definition flush_state : Type :=
  list obj * list obj * list (list value * nat).

Definition flush_update (st : flush_state) (r : nat) : flush_state :=
  let '(h, tbl, idm) := st in
  match identity_key r idm, h !! r with
  | Some k, Some o => (h, replace_row k o tbl, rekey r (row_key o) idm)
  | _, _ => st
  end.

Definition flush_insert (st : flush_state) (r : nat) : flush_state :=
  let '(h, tbl, idm) := st in
  match h !! r with
  | Some o =>
      let o' := generate_key tbl o in
      (<[r := o']> h, tbl ++ [o'], idm ++ [(row_key o', r)])
  | None => st
  end.

Definition flush_delete (st : flush_state) (r : nat) : flush_state :=
  let '(h, tbl, idm) := st in
  match identity_key r idm with
  | Some k =>
      (h, delete_row k tbl,
       List.filter (fun p => negb (bool_decide (p.2 = r))) idm)
  | None => st
  end.

Definition flush (w : World) : flush_state :=
  let st0 := (heap w, table w, sess_identity w) in
  let st1 := foldl flush_update st0 (sess_dirty w) in
  let st2 := foldl flush_insert st1 (sess_new w) in
  foldl flush_delete st2 (sess_deleted w).

(** The primary-key constraint of the table: every key fully populated,
    no key twice. *)
Definition table_ok (tbl : list obj) : bool :=
  forallb (fun row => populated (row_key row)) tbl
  && bool_decide (NoDup (map row_key tbl)).

(** Modelled from the spec: [session.commit()], which fails, propagating
    the underlying failure, if the transaction cannot be persisted.  The
    head of [commit_faults] decides whether the
    store fails this commit for a reason of its own; otherwise the pending
    work is flushed and the commit fails only on a violated key
    constraint.  A failed commit leaves the pending work in place. *)
Definition session_commit : M unit :=
  fun w =>
    let w1 := set_faults (tail (commit_faults w)) (log CCommit w) in
    match head (commit_faults w) with
    | Some (Some e) => (Err e, w1)
    | _ =>
        let '(h, tbl, idm) := flush w1 in
        if table_ok tbl then
          (Ok tt,
           {| heap := h; sess_new := []; sess_dirty := []; sess_deleted := [];
              sess_identity := idm; table := tbl;
              commit_faults := commit_faults w1; calls := calls w1 |})
        else (Err (Exn SaIntegrityError "constraint failed"), w1)
    end.

(** Reloading a persistent instance from its row. *)
Definition reload (tbl : list obj) (h : list obj) (p : list value * nat)
  : list obj :=
  match find_row p.1 tbl with
  | Some row => <[p.2 := row]> h
  | None => h
  end.

(** Modelled from the spec: [session.rollback()] reverts the staged and
    uncommitted changes after a failed commit: pending work is dropped and the persistent
    instances show their committed rows again. *)
Definition session_rollback : M unit :=
  fun w =>
    let w1 := log CRollback w in
    (Ok tt,
     {| heap := foldl (reload (table w1)) (heap w1) (sess_identity w1);
        sess_new := []; sess_dirty := []; sess_deleted := [];
        sess_identity := sess_identity w1; table := table w1;
        commit_faults := commit_faults w1; calls := calls w1 |}).

(** Modelled from the spec: [session.refresh(item)] reloads an instance
    from the store. *)
Definition session_refresh (item : nat) : M unit :=
  fun w =>
    let w1 := log (CRefresh item) w in
    match identity_key item (sess_identity w1) with
    | None =>
        (Err (Exn SaInvalidRequestError
                "Instance is not persistent within this Session"), w1)
    | Some k =>
        match find_row k (table w1) with
        | None =>
            (Err (Exn SaInvalidRequestError "Could not refresh instance"), w1)
        | Some row =>
            (Ok tt,
             set_dirty
               (List.filter (fun r => negb (bool_decide (r = item)))
                            (sess_dirty w1))
               (set_heap (<[item := row]> (heap w1)) w1))
        end
    end.

(** The instance that stands for a row: the one the identity map already
    holds for the row's key, or a new one loaded from the row. *)
Definition materialize (row : obj) : M nat :=
  fun w =>
    match identity_lookup (row_key row) (sess_identity w) with
    | Some r => (Ok r, w)
    | None =>
        let r := length (heap w) in
        (Ok r, set_identity (sess_identity w ++ [(row_key row, r)])
                 (set_heap (heap w ++ [row]) w))
    end.

(** Modelled from the spec: [session.get(model, pk)], the direct key
    lookup, which returns [None] if the key is absent. *)
Definition session_get (pk : key) : M (option nat) :=
  fun w =>
    let w1 := log (CGet pk) w in
    match key_values pk with
    | Err e => (Err e, w1)
    | Ok k =>
        match identity_lookup k (sess_identity w1) with
        | Some r => (Ok (Some r), w1)
        | None =>
            match find_row k (table w1) with
            | Some row => (r <- materialize row ;; ret (Some r)) w1
            | None => (Ok None, w1)
            end
        end
    end.

(** *** Select statements over the model's table *)

(** [select(self._model)] narrowed by [where] clauses; a clause is the
    row predicate it denotes. *)
Record select_stmt := { sel_where : list (obj -> bool) }.

Definition sql_select : select_stmt := {| sel_where := [] |}.

Definition sql_where (stmt : select_stmt) (clause : obj -> bool)
  : select_stmt :=
  {| sel_where := sel_where stmt ++ [clause] |}.

Definition selects (stmt : select_stmt) (row : obj) : bool :=
  forallb (fun clause => clause row) (sel_where stmt).

(** Modelled from the spec: [session.exec(statement)] runs a select and
    returns the instances of the selected rows, in table order. *)
Definition session_exec (stmt : select_stmt) : M (list nat) :=
  fun w =>
    let w1 := log CExec w in
    list_comp materialize (List.filter (selects stmt) (table w1)) w1.

(** Modelled from the spec: [ScalarResult.all()], and
    [ScalarResult.one()], which expects exactly one row. *)
Definition result_all (rows : list nat) : list nat := rows.

Definition result_one (rows : list nat) : M nat :=
  match rows with
  | [] => raise (Exn SaNoResultFound
                   "No row was found when one was required")
  | [r] => ret r
  | _ :: _ :: _ =>
      raise (Exn SaMultipleResultsFound
               "Multiple rows were found when exactly one was required")
  end.

(** [self._model.<name>]: a mapped column of the class, or
    [AttributeError]. *)
Definition model_getattr (name : string) : M string :=
  if bool_decide (name ∈ columns Model) then ret name
  else raise (Exn AttributeError
                ("type object has no attribute '" ++ name ++ "'")%string).

(** Modelled from the spec: the "in" filter.  [column.in_(pks)] is
    evaluated by the store when the statement is executed: which values of
    the column it takes for one of the keys, coercions of the column type
    included, and which keys it refuses to bind, is the store's business
    and differs from store to store.  It is a parameter of the service:
    for a column and the keys, the predicate on rows the filter denotes, or
    the error that executing the statement raises. *)
Context (in_ : string -> list key -> result (obj -> bool)).

(** ** [CrudService] *)

(** The instance attributes a service has. *)
Definition __slots__ : list string := ["_model"; "_session"].

(** [self.<name>] for a name that is not a method of the class: one of the
    slots, or [AttributeError]. *)
Definition self_getattr (name : string) : M unit :=
  if bool_decide (name ∈ __slots__) then ret tt
  else raise (Exn AttributeError
    ("'CrudService' object has no attribute '" ++ name ++ "'")%string).

Definition _prepare_for_create (data : obj) : M nat :=
  match model_validate Model data with
  | Ok o => alloc o
  | Err e => raise e
  end.

Definition _prepare_for_update (data : update_input)
  : M (list (string * value)) :=
  ret (model_dump_exclude_unset data).

Definition _apply_changes_to_item (item : nat) (data : update_input)
  : M nat :=
  changes <- _prepare_for_update data ;;
  for_each changes (fun '(key, value) => setattr item key value) ;;
  ret item.

Definition _safe_commit (error_msg : string) : M unit :=
  try_except session_commit
    (fun e => session_rollback ;; raise (ExnFrom CommitFailed error_msg e)).

(** An element of the [items] argument of [add_to_session]: creation data,
    or an [(item, changes)] pair. *)
Inductive batch_item :=
  | ForCreate (data : obj)
  | ForUpdate (item : nat) (changes : update_input).

Definition add_to_session (items : list batch_item) (commit : bool)
    (operation : string) : M (list nat) :=
  db_items <-
    (if String.eqb operation "create" then
       list_comp (fun item =>
                    match item with
                    | ForCreate data => _prepare_for_create data
                    | ForUpdate _ _ =>
                        (* a pair does not validate as creation data *)
                        raise (Exn ValidationError "validation error")
                    end) items
     else if String.eqb operation "update" then
       list_comp (fun item =>
                    match item with
                    | ForUpdate item changes =>
                        _apply_changes_to_item item changes
                    | ForCreate _ =>
                        (* creation data does not unpack into a pair *)
                        raise (Exn ValueError "not enough values to unpack")
                    end) items
     else
       raise (Exn ServiceException
                ("Unsupported operation: " ++ operation)%string)) ;;
  session_add_all db_items ;;
  (if commit then _safe_commit "Commit failed." else ret tt) ;;
  ret db_items.

(** The batches an operation of [add_to_session] prepares without an
    exception: creation inputs that all validate, for ["create"];
    [(item, data)] pairs, for ["update"]. *)
Definition prepares (operation : string) (items : list batch_item) : bool :=
  if String.eqb operation "create" then
    forallb (fun item =>
               match item with
               | ForCreate data =>
                   match model_validate Model data with
                   | Ok _ => true
                   | Err _ => false
                   end
               | ForUpdate _ _ => false
               end) items
  else if String.eqb operation "update" then
    forallb (fun item =>
               match item with
               | ForUpdate _ _ => true
               | ForCreate _ => false
               end) items
  else false.

Definition create (data : obj) : M nat :=
  db_item <- _prepare_for_create data ;;
  session_add db_item ;;
  _safe_commit "Commit failed." ;;
  session_refresh db_item ;;
  ret db_item.

(** [create_multiple] reaches for [self.db], not [self._session], and
    calls [commit] directly. *)
Definition create_multiple (datalist : list obj) : M (list nat) :=
  db_items <- list_comp _prepare_for_create datalist ;;
  self_getattr "db" ;; session_add_all db_items ;;
  self_getattr "db" ;; session_commit ;;
  ret db_items.

Definition get_by_pk (pk : key) : M (option nat) :=
  session_get pk.

Definition delete_by_pk (pk : key) : M unit :=
  item <- get_by_pk pk ;;
  match item with
  | None =>
      match _format_primary_key pk with
      | Ok s => raise (Exn NotFound s)
      | Err e => raise e
      end
  | Some item =>
      session_delete item ;;
      _safe_commit "Failed to delete item."
  end.

Definition select : select_stmt := sql_select.

Definition exec (statement : select_stmt) : M (list nat) :=
  session_exec statement.

(** The declared result is [Union[List[TModel], None]], hence the
    [option]. *)
Definition get_by_pks (pks : list key) : M (option (list nat)) :=
  id <- model_getattr "id" ;;
  match in_ id pks with
  | Ok clause =>
      let query := sql_where sql_select clause in
      rows <- session_exec query ;;
      ret (Some (result_all rows))
  | Err e =>                         (* raised by [session.exec(query)] *)
      fun w => (Err e, log CExec w)
  end.

Definition one (where_ : obj -> bool) : M nat :=
  try_except
    (rows <- exec (sql_where select where_) ;; result_one rows)
    (fun e =>
       match exn_cls e with
       | SaMultipleResultsFound =>
           raise (ExnFrom MultipleResultsFound
                    "Multiple items matched the where clause." e)
       | SaNoResultFound =>
           raise (ExnFrom NotFound "No items matched the where clause" e)
       | _ => raise e
       end).

Definition update_item (item : nat) (data : update_input) : M nat :=
  _apply_changes_to_item item data ;;
  session_add item ;;
  _safe_commit "Update failed." ;;
  session_refresh item ;;
  ret item.

Definition update (pk : key) (data : update_input) : M nat :=
  item <- get_by_pk pk ;;
  match item with
  | None =>
      match _format_primary_key pk with
      | Ok s => raise (Exn NotFound s)
      | Err e => raise e
      end
  | Some item => update_item item data
  end.

(** *** Invariants of a session *)

(** Every persistent instance shows the row stored under its key. *)
Definition synced (w : World) : Prop :=
  forall k r, (k, r) ∈ sess_identity w ->
    exists o, heap w !! r = Some o /\ find_row k (table w) = Some o.

(** A session between two units of work: nothing is pending, the table
    satisfies its key constraint and the loaded instances agree with it. *)
Record clean (w : World) : Prop := {
  clean_new : sess_new w = [];
  clean_dirty : sess_dirty w = [];
  clean_deleted : sess_deleted w = [];
  clean_table : table_ok (table w) = true;
  clean_synced : synced w;
}.

(** What loading instances changes: the heap grows and the identity map
    with it; the store, the pending work and the call record stay. *)
Definition loads (w w' : World) : Prop :=
  table w' = table w /\ calls w' = calls w
  /\ sess_new w' = sess_new w /\ sess_dirty w' = sess_dirty w
  /\ sess_deleted w' = sess_deleted w
  /\ commit_faults w' = commit_faults w
  /\ heap w `prefix_of` heap w'.

End Service.

(** ** The remaining read operations of [CrudService] *)

(** What an [order_by] sequence denotes: the order in which the store
    hands out the selected rows. *)
Definition ordering : Type := list obj -> list obj.

(** A select statement as [all] builds it: the [where] clauses, then
    optionally [order_by], [limit] and [offset] (both non-negative). *)
Record statement := {
  st_select : select_stmt;
  st_order_by : option ordering;
  st_limit : option nat;
  st_offset : option nat;
}.

Definition sql_statement (stmt : select_stmt) : statement :=
  {| st_select := stmt; st_order_by := None;
     st_limit := None; st_offset := None |}.

Definition stmt_where (stmt : statement) (clause : obj -> bool) : statement :=
  {| st_select := sql_where (st_select stmt) clause;
     st_order_by := st_order_by stmt;
     st_limit := st_limit stmt; st_offset := st_offset stmt |}.

Definition stmt_order_by (stmt : statement) (order : ordering) : statement :=
  {| st_select := st_select stmt; st_order_by := Some order;
     st_limit := st_limit stmt; st_offset := st_offset stmt |}.

Definition stmt_limit (stmt : statement) (limit : nat) : statement :=
  {| st_select := st_select stmt; st_order_by := st_order_by stmt;
     st_limit := Some limit; st_offset := st_offset stmt |}.

Definition stmt_offset (stmt : statement) (offset : nat) : statement :=
  {| st_select := st_select stmt; st_order_by := st_order_by stmt;
     st_limit := st_limit stmt; st_offset := Some offset |}.

(** The rows a statement yields on a table: filtered, ordered, then the
    offset skipped and the limit applied. *)
Definition statement_rows (stmt : statement) (tbl : list obj) : list obj :=
  let rows := List.filter (selects (st_select stmt)) tbl in
  let rows := match st_order_by stmt with
              | Some order => order rows
              | None => rows
              end in
  let rows := match st_offset stmt with
              | Some offset => drop offset rows
              | None => rows
              end in
  match st_limit stmt with
  | Some limit => take limit rows
  | None => rows
  end.

Section ServiceReads.

Context (Model : model_class).

(** Modelled from the spec: [session.exec(statement)] for a statement with
    ordering and paging: the instances of the rows it yields, in that
    order. *)
Definition session_exec_statement (stmt : statement) : M (list nat) :=
  fun w =>
    let w1 := log CExec w in
    list_comp (materialize Model) (statement_rows stmt (table w1)) w1.

(** Modelled from the spec: [ScalarResult.one_or_none()], which accepts at
    most one row. *)
Definition result_one_or_none (rows : list nat) : M (option nat) :=
  match rows with
  | [] => ret None
  | [r] => ret (Some r)
  | _ :: _ :: _ =>
      raise (Exn SaMultipleResultsFound
               "Multiple rows were found when one or none was required")
  end.

Definition all (where_ : option (obj -> bool)) (order_by : option ordering)
    (limit offset : option nat) : M (list nat) :=
  let stmt := sql_statement (select) in
  let stmt := match where_ with
              | Some clause => stmt_where stmt clause
              | None => stmt
              end in
  let stmt := match order_by with
              | Some order => stmt_order_by stmt order
              | None => stmt
              end in
  let stmt := match limit with
              | Some n => stmt_limit stmt n
              | None => stmt
              end in
  let stmt := match offset with
              | Some n => stmt_offset stmt n
              | None => stmt
              end in
  rows <- session_exec_statement stmt ;;
  ret (result_all rows).

Definition get_all : M (list nat) :=
  rows <- session_exec Model sql_select ;;
  ret (result_all rows).

Definition one_or_none (where_ : obj -> bool) : M (option nat) :=
  try_except
    (rows <- exec Model (sql_where select where_) ;; result_one_or_none rows)
    (fun e =>
       match exn_cls e with
       | SaMultipleResultsFound =>
           raise (ExnFrom MultipleResultsFound
                    "Multiple items matched the where clause." e)
       | _ => raise e
       end).

Definition refresh (instance : nat) : M unit :=
  session_refresh Model instance.

(** The rows a batch of creations inserts, each with the key the store
    generates for it at its turn. *)
Fixpoint inserted_rows (tbl : list obj) (os : list obj) : list obj :=
  match os with
  | [] => []
  | o :: os' =>
      let o' := generate_key Model tbl o in
      o' :: inserted_rows (tbl ++ [o']) os'
  end.

End ServiceReads.

(** Why the store refuses the commit of an update that turns the row [o]
    into [o']: a failure of its own, or the key constraint of the table. *)
Definition update_rejected (Model : model_class) (w : World) (o o' : obj)
    (cause : exn) : Prop :=
  head (commit_faults w) = Some (Some cause)
  \/ ((forall e, head (commit_faults w) <> Some (Some e))
      /\ table_ok Model (replace_row Model (row_key Model o) o' (table w))
         = false
      /\ cause = Exn SaIntegrityError "constraint failed").

(** Why the store refuses the commit of [create] for a validated input
    [o]: a failure of its own, or the key constraint of the table. *)
Definition create_rejected (Model : model_class) (w : World) (o : obj)
    (cause : exn) : Prop :=
  head (commit_faults w) = Some (Some cause)
  \/ ((forall e, head (commit_faults w) <> Some (Some e))
      /\ table_ok Model (table w ++ [generate_key Model (table w) o]) = false
      /\ cause = Exn SaIntegrityError "constraint failed").

(** ** The table model of the repository's tests *)

Module Player.

(** [PlayerBase.name : str]; [DbPlayer.id : int], default [None], primary
    key.  Validation requires a string [name] and accepts an integer or
    missing [id]. *)
Definition validate (data : obj) : result obj :=
  match data !! "name", default None (data !! "id") with
  | Some (Some (AStr s)), None =>
      Ok ({[ "name" := Some (AStr s); "id" := None ]} : obj)
  | Some (Some (AStr s)), Some (AInt z) =>
      Ok ({[ "name" := Some (AStr s); "id" := Some (AInt z) ]} : obj)
  | _, _ => Err (Exn ValidationError "validation error for DbPlayer")
  end.

Definition DbPlayer : model_class :=
  {| columns := ["name"; "id"]; primary_key := ["id"];
     autoincrement := true; model_validate := validate |}.

(** [PlayerCreate(name=s)]. *)
Definition PlayerCreate (s : string) : obj := {[ "name" := Some (AStr s) ]}.

(** [PlayerUpdate(name=s)] and [PlayerUpdate()]. *)
Definition PlayerUpdate (s : string) : update_input :=
  {| model_fields := [("name", Some (AStr s))];
     model_fields_set := ["name"] |}.
Definition PlayerUpdate_unset : update_input :=
  {| model_fields := [("name", None)]; model_fields_set := [] |}.

Definition row (id : Z) (name : string) : obj :=
  {[ "name" := Some (AStr name); "id" := Some (AInt id) ]}.

End Player.

(** [PlayerService], the service of the tests, adds one query to
    [CrudService[DbPlayer, PlayerCreate, PlayerUpdate, int]]. *)
Module PlayerService.

Definition get_by_name (name : string) : M (list nat) :=
  rows <- exec Player.DbPlayer
            (sql_where select
               (fun row =>
                  bool_decide (row !! "name" = Some (Some (AStr name))))) ;;
  ret (result_all rows).

End PlayerService.

(** A table model keyed by a string code, without an [id] column. *)
Module Country.

Definition validate (data : obj) : result obj :=
  match data !! "code", data !! "name" with
  | Some (Some (AStr c)), Some (Some (AStr n)) =>
      Ok ({[ "code" := Some (AStr c); "name" := Some (AStr n) ]} : obj)
  | _, _ => Err (Exn ValidationError "validation error for DbCountry")
  end.

Definition DbCountry : model_class :=
  {| columns := ["code"; "name"]; primary_key := ["code"];
     autoincrement := false; model_validate := validate |}.

Definition row (code name : string) : obj :=
  {[ "code" := Some (AStr code); "name" := Some (AStr name) ]}.

End Country.

(** A table model keyed by a string code that also has a plain integer
    [id] column. *)
Module Ticket.

Definition validate (data : obj) : result obj :=
  match data !! "code", data !! "id" with
  | Some (Some (AStr c)), Some (Some (AInt n)) =>
      Ok ({[ "code" := Some (AStr c); "id" := Some (AInt n) ]} : obj)
  | _, _ => Err (Exn ValidationError "validation error for DbTicket")
  end.

Definition DbTicket : model_class :=
  {| columns := ["code"; "id"]; primary_key := ["code"];
     autoincrement := false; model_validate := validate |}.

Definition row (code : string) (id : Z) : obj :=
  {[ "code" := Some (AStr code); "id" := Some (AInt id) ]}.

End Ticket.

(** A new session on a store holding the given rows. *)
Definition fresh_world (rows : list obj) (faults : list (option exn))
  : World :=
  {| heap := []; sess_new := []; sess_dirty := []; sess_deleted := [];
     sess_identity := []; table := rows; commit_faults := faults;
     calls := [] |}.

(** A session that has loaded every row of the store: the instance at
    address [i] is the [i]-th row. *)
Definition loaded_world (Model : model_class) (rows : list obj)
    (faults : list (option exn)) : World :=
  {| heap := rows; sess_new := []; sess_dirty := []; sess_deleted := [];
     sess_identity := imap (fun i row => (row_key Model row, i)) rows;
     table := rows; commit_faults := faults; calls := [] |}.

(** ** Observations on the recorded session calls *)

Definition is_commit (c : call) : bool :=
  match c with CCommit => true | _ => false end.
Definition is_refresh (c : call) : bool :=
  match c with CRefresh _ => true | _ => false end.
Definition is_rollback (c : call) : bool :=
  match c with CRollback => true | _ => false end.

Definition count (p : call -> bool) (l : list call) : nat :=
  length (List.filter p l).

(** The calls recorded between [w] and a later world [w']. *)
Definition calls_since (w w' : World) : list call :=
  drop (length (calls w)) (calls w').

Definition same_calls (w w' : World) : Prop := calls w' = calls w.

(** The union [PrimaryKey]: an atomic key, a tuple, a list or a mapping
    (a dict or not) of atomic values. *)
Definition is_primary_key (k : key) : bool :=
  match k with
  | KAtom _ | KTuple _ | KList _ | KDict _ | KMapping _ => true
  | KNone | KSet _ => false
  end.

(** The classes the service tests a key for: [str] and [int], [tuple] and
    [list], [dict]. *)
Definition is_recognized_key (k : key) : bool :=
  match k with
  | KAtom _ | KTuple _ | KList _ | KDict _ => true
  | KMapping _ | KNone | KSet _ => false
  end.

(** An attribute dictionary after a sequence of assignments. *)
Definition assign (o : obj) (changes : list (string * value)) : obj :=
  foldl (fun o '(name, v) => <[name := v]> o) o changes.

(** [o'] is [o] with exactly the explicitly set fields of [data] assigned:
    a field of [data] that was set has the value [data] gives it, and
    every other attribute is as in [o]. *)
Definition partially_updated (data : update_input) (o o' : obj) : Prop :=
  (forall name v,
      (name, v) ∈ model_fields data -> name ∈ model_fields_set data ->
      o' !! name = Some v)
  /\ (forall name,
        name ∉ model_fields_set data \/ name ∉ (model_fields data).*1 ->
        o' !! name = o !! name).

(** A step from [w] to [w'] that makes no commit call and leaves the
    outcome of the coming commits as it was. *)
Definition quiet (w w' : World) : Prop :=
  commit_faults w' = commit_faults w
  /\ exists d, calls w' = calls w ++ d /\ Forall (fun c => is_commit c = false) d.

(** How an operation started in [w] ends when its commit failed with
    [cause]: it raises [CommitFailed] with its message, chained to the
    cause, and the calls it made end with the one commit and the rollback
    that follows it. *)
Definition rolled_back_and_raised {A} (w : World) (msg : string)
    (cause : exn) (run : result A * World) : Prop :=
  run.1 = Err (ExnFrom CommitFailed msg cause)
  /\ exists pre,
       calls_since w run.2 = pre ++ [CCommit; CRollback]
       /\ Forall (fun c => is_commit c = false) pre.

(** The worlds [w'] that differ from [w] in the heap only: the session and
    the store are as they were. *)
Definition heap_only (w w' : World) : Prop := w' = set_heap (heap w') w.

(** * Properties *)

Ltac run_m := unfold bind, ret, raise, try_except in *; cbn [fst snd] in *.

(** Reading a field of a world built by the setters. *)
Ltac fields :=
  cbn [heap sess_new sess_dirty sess_deleted sess_identity table
       commit_faults calls log set_heap set_new set_dirty set_deleted
       set_identity set_faults].

Lemma heap_only_refl w : heap_only w w.
Proof. unfold heap_only. by destruct w. Qed.

Lemma heap_only_trans w1 w2 w3 :
  heap_only w1 w2 -> heap_only w2 w3 -> heap_only w1 w3.
Proof. unfold heap_only. intros H12 H23. rewrite H23, H12. reflexivity. Qed.

Section ServiceFacts.

Context (Model : model_class).

Lemma prepare_for_create_heap_only data w r w' :
  _prepare_for_create Model data w = (r, w') -> heap_only w w'.
Proof.
  unfold _prepare_for_create, alloc, raise.
  destruct (model_validate Model data); intros [= <- <-].
  - reflexivity.
  - apply heap_only_refl.
Qed.

Lemma list_comp_heap_only {A B} (f : A -> M B) :
  (forall x w r w', f x w = (r, w') -> heap_only w w') ->
  forall xs w r w', list_comp f xs w = (r, w') -> heap_only w w'.
Proof.
  intros Hf. induction xs as [|x xs IH]; intros w r w'; cbn; run_m.
  - intros [= <- <-]. apply heap_only_refl.
  - destruct (f x w) as [[y|e] w1] eqn:Hx.
    + destruct (list_comp f xs w1) as [[ys|e] w2] eqn:Hxs;
        intros [= <- <-];
        eauto using heap_only_trans.
    + intros [= <- <-]. eauto.
Qed.

(** *** [create_multiple] *)

(** C1.  [create_multiple] converts the items through the create-hook, but
    then looks up [self.db], which a service does not have: for every list
    of creation inputs the call ends in an exception ([AttributeError] once
    all items are converted), with no item staged, no commit made and
    nothing returned. *)
Theorem create_multiple_never_returns (datalist : list obj) (w : World) :
  exists e w',
    create_multiple Model datalist w = (Err e, w')
    /\ heap_only w w'
    /\ calls w' = calls w
    /\ match (list_comp (_prepare_for_create Model) datalist w).1 with
       | Ok _ =>
           e = Exn AttributeError "'CrudService' object has no attribute 'db'"
       | Err e0 => e = e0
       end.
Proof.
  unfold create_multiple; run_m.
  destruct (list_comp _ datalist w) as [[items|e] w1] eqn:Hprep.
  all: pose proof (list_comp_heap_only _
         (prepare_for_create_heap_only) _ _ _ _ Hprep) as Hho.
  - eexists _, w1. cbn. repeat split; try done. by rewrite Hho.
  - eexists e, w1. repeat split; try done. by rewrite Hho.
Qed.

End ServiceFacts.

(** [create_multiple] makes no call on the session at all. *)
Lemma create_multiple_calls (Model : model_class) datalist w :
  calls (create_multiple Model datalist w).2 = calls w.
Proof.
  unfold create_multiple; run_m.
  destruct (list_comp _ datalist w) as [[items|e] w1] eqn:Hprep.
  all: pose proof (list_comp_heap_only _
         (prepare_for_create_heap_only Model) _ _ _ _ Hprep) as Hho.
  all: cbn; by rewrite Hho.
Qed.

(** *** [_format_primary_key] *)

Example format_int : _format_primary_key (KAtom (AInt 42)) = Ok "42".
Proof. reflexivity. Qed.
Example format_neg : _format_primary_key (KAtom (AInt (-7))) = Ok "-7".
Proof. reflexivity. Qed.
Example format_tuple :
  _format_primary_key (KTuple [AInt 1; AStr "eu"; AInt 0]) = Ok "1|eu|0".
Proof. reflexivity. Qed.
Example format_dict :
  _format_primary_key (KDict [("region", AStr "eu"); ("no", AInt 3)])
  = Ok "region:eu|no:3".
Proof. reflexivity. Qed.

(** The keys of the classes the code tests for.  An atomic key is rendered
    verbatim; the rendering of a tuple or list is empty for no element, the
    element for one, and otherwise the first element, ["|"] and the
    rendering of the rest; a dict is rendered likewise from its
    ["name:value"] pairs; every other key is refused. *)
Lemma format_primary_key_recognized :
  (forall s, _format_primary_key (KAtom (AStr s)) = Ok s)
  /\ (forall z, _format_primary_key (KAtom (AInt z)) = Ok (pretty z))
  /\ (forall l, _format_primary_key (KList l) = _format_primary_key (KTuple l))
  /\ _format_primary_key (KTuple []) = Ok ""
  /\ (forall a, _format_primary_key (KTuple [a]) = Ok (str a))
  /\ (forall a b l s,
        _format_primary_key (KTuple (b :: l)) = Ok s ->
        _format_primary_key (KTuple (a :: b :: l))
        = Ok (str a ++ "|" ++ s)%string)
  /\ _format_primary_key (KDict []) = Ok ""
  /\ (forall name v,
        _format_primary_key (KDict [(name, v)])
        = Ok (name ++ ":" ++ str v)%string)
  /\ (forall name v p d s,
        _format_primary_key (KDict (p :: d)) = Ok s ->
        _format_primary_key (KDict ((name, v) :: p :: d))
        = Ok ((name ++ ":" ++ str v) ++ "|" ++ s)%string)
  /\ (forall k, is_recognized_key k = false ->
        _format_primary_key k
        = Err (Exn ValueError "Unrecognized primary key type.")).
Proof.
  split; [done|]. split; [done|]. split; [done|]. split; [done|].
  split; [done|]. split; [by intros a b l s [= <-]|]. split; [done|].
  split; [done|]. split; [by intros name v p d s [= <-]|].
  by intros [].
Qed.

(** C9.  A mapping key that is not a dict is a member of the [PrimaryKey]
    union, yet [_format_primary_key], which tests for [dict] only, refuses
    it with [ValueError], where the dict of the same items is rendered as
    its ["name:value"] pairs joined by ["|"]. *)
Theorem format_primary_key_refuses_mapping :
  (forall d,
     is_primary_key (KMapping d) = true
     /\ _format_primary_key (KMapping d)
        = Err (Exn ValueError "Unrecognized primary key type."))
  /\ _format_primary_key (KDict [("region", AStr "eu"); ("no", AInt 3)])
     = Ok "region:eu|no:3"
  /\ _format_primary_key (KMapping [("region", AStr "eu"); ("no", AInt 3)])
     = Err (Exn ValueError "Unrecognized primary key type.").
Proof. done. Qed.

(** *** Commit, rollback and the calls they leave *)

Lemma calls_since_app w w' d : calls w' = calls w ++ d -> calls_since w w' = d.
Proof. unfold calls_since. intros ->. by rewrite drop_app_length. Qed.

Lemma list_comp_preserves {A B} (R : World -> World -> Prop) (f : A -> M B) :
  (forall w, R w w) ->
  (forall w1 w2 w3, R w1 w2 -> R w2 w3 -> R w1 w3) ->
  (forall x w r w', f x w = (r, w') -> R w w') ->
  forall xs w r w', list_comp f xs w = (r, w') -> R w w'.
Proof.
  intros Hrefl Htrans Hf.
  induction xs as [|x xs IH]; intros w r w'; cbn; run_m.
  - intros [= <- <-]. apply Hrefl.
  - destruct (f x w) as [[y|e] w1] eqn:Hx.
    + destruct (list_comp f xs w1) as [[ys|e] w2] eqn:Hxs;
        intros [= <- <-]; eauto.
    + intros [= <- <-]. eauto.
Qed.

Lemma for_each_preserves {A} (R : World -> World -> Prop) (f : A -> M unit) :
  (forall w, R w w) ->
  (forall w1 w2 w3, R w1 w2 -> R w2 w3 -> R w1 w3) ->
  (forall x w r w', f x w = (r, w') -> R w w') ->
  forall xs w r w', for_each xs f w = (r, w') -> R w w'.
Proof.
  intros Hrefl Htrans Hf.
  induction xs as [|x xs IH]; intros w r w'; cbn; run_m.
  - intros [= <- <-]. apply Hrefl.
  - destruct (f x w) as [[[]|e] w1] eqn:Hx.
    + intros Hxs. eauto.
    + intros [= <- <-]. eauto.
Qed.

Lemma same_calls_refl w : same_calls w w.
Proof. done. Qed.

Lemma same_calls_trans w1 w2 w3 :
  same_calls w1 w2 -> same_calls w2 w3 -> same_calls w1 w3.
Proof. unfold same_calls. congruence. Qed.

Lemma setattr_same_calls item name v w r w' :
  setattr item name v w = (r, w') -> same_calls w w'.
Proof.
  unfold setattr, note_modified, same_calls. intros [= <- <-].
  by destruct (_ && _).
Qed.

Section CommitFacts.

Context (Model : model_class).

Lemma session_commit_calls w r w' :
  session_commit Model w = (r, w') -> calls w' = calls w ++ [CCommit].
Proof.
  unfold session_commit.
  destruct (head (commit_faults w)) as [[e|]|];
    try (intros [= <- <-]; reflexivity).
  all: destruct (flush _ _) as [[h tbl] idm];
    destruct (table_ok _ tbl); intros [= <- <-]; reflexivity.
Qed.

(** When the commit succeeds, [_safe_commit] is that commit. *)
Lemma safe_commit_ok error_msg w w1 :
  session_commit Model w = (Ok tt, w1) ->
  _safe_commit Model error_msg w = (Ok tt, w1).
Proof. unfold _safe_commit; run_m. by intros ->. Qed.

(** When the commit raises [e], [_safe_commit] rolls the session back and
    then raises [CommitFailed] from [e]. *)
Lemma safe_commit_failed error_msg w e w1 :
  session_commit Model w = (Err e, w1) ->
  exists w',
    _safe_commit Model error_msg w
    = (Err (ExnFrom CommitFailed error_msg e), w')
    /\ calls w' = calls w ++ [CCommit; CRollback]
    /\ sess_new w' = [] /\ sess_dirty w' = [] /\ sess_deleted w' = []
    /\ table w' = table w1.
Proof.
  intros Hc. unfold _safe_commit; run_m. rewrite Hc.
  eexists. split; [reflexivity|]. cbn.
  rewrite (session_commit_calls _ _ _ Hc), <- app_assoc. done.
Qed.

Lemma safe_commit_calls error_msg w r w' :
  _safe_commit Model error_msg w = (r, w') ->
  (r = Ok tt /\ calls w' = calls w ++ [CCommit])
  \/ (exists e, r = Err (ExnFrom CommitFailed error_msg e)
                /\ session_commit Model w = (Err e, set_heap (heap w)
                     (set_faults (tail (commit_faults w)) (log CCommit w)))
                /\ calls w' = calls w ++ [CCommit; CRollback]).
Proof.
  destruct (session_commit Model w) as [[[]|e] w1] eqn:Hc.
  - rewrite (safe_commit_ok _ _ _ Hc). intros [= <- <-]. left.
    eauto using session_commit_calls.
  - destruct (safe_commit_failed error_msg _ _ _ Hc) as (w2 & -> & Hcalls & _).
    intros [= <- <-]. right. exists e. repeat split; try done.
    revert Hc. unfold session_commit.
    destruct (head (commit_faults w)) as [[e'|]|].
    + intros [= <- <-]. reflexivity.
    + destruct (flush _ _) as [[h tbl] idm];
        destruct (table_ok _ tbl); intros [= <- <-]. reflexivity.
    + destruct (flush _ _) as [[h tbl] idm];
        destruct (table_ok _ tbl); intros [= <- <-]. reflexivity.
Qed.

Lemma session_add_all_calls items w :
  calls (session_add_all items w).2 = calls w ++ [CAddAll items].
Proof.
  unfold session_add_all. cbn.
  assert (Hstage : forall rs w0, calls (foldl stage w0 rs) = calls w0).
  { induction rs as [|r rs IH]; intros w0; [done|]. cbn. rewrite IH.
    unfold stage. by destruct (_ || _). }
  by rewrite Hstage.
Qed.

Lemma apply_changes_same_calls item data w r w' :
  _apply_changes_to_item item data w = (r, w') -> same_calls w w'.
Proof.
  unfold _apply_changes_to_item, _prepare_for_update; run_m.
  destruct (for_each _ _ w) as [[[]|e] w1] eqn:Hloop; intros [= <- <-].
  all: eapply (for_each_preserves same_calls), Hloop;
    eauto using same_calls_refl, same_calls_trans.
  all: intros [name v] ? ? ?; apply setattr_same_calls.
Qed.

Lemma prepare_for_create_same_calls data w r w' :
  _prepare_for_create Model data w = (r, w') -> same_calls w w'.
Proof.
  intros H%prepare_for_create_heap_only. unfold same_calls. by rewrite H.
Qed.

(** A comprehension whose body succeeds on every element succeeds, with
    one result per element. *)
Lemma list_comp_ok {A B} (f : A -> M B) xs w :
  (forall x w0, x ∈ xs -> exists y w1, f x w0 = (Ok y, w1)) ->
  exists ys w', list_comp f xs w = (Ok ys, w') /\ length ys = length xs.
Proof.
  revert w. induction xs as [|x xs IH]; intros w Hf; cbn; run_m.
  - by eexists _, _.
  - destruct (Hf x w) as (y & w1 & ->); [by left|].
    destruct (IH w1) as (ys & w2 & -> & Hlen);
      [intros x' w0 Hin; apply Hf; by right|].
    eexists _, _. split; [done|]. cbn. by rewrite Hlen.
Qed.

Lemma list_comp_length {A B} (f : A -> M B) xs w ys w' :
  list_comp f xs w = (Ok ys, w') -> length ys = length xs.
Proof.
  revert w ys. induction xs as [|x xs IH]; intros w ys; cbn; run_m.
  - by intros [= <- _].
  - destruct (f x w) as [[y|?] w1]; [|done].
    destruct (list_comp f xs w1) as [[ys'|?] w2] eqn:Hrest; [|done].
    intros [= <- <-]. cbn. f_equal. by eapply IH.
Qed.

Lemma apply_changes_returns item data w :
  exists w', _apply_changes_to_item item data w = (Ok item, w').
Proof.
  unfold _apply_changes_to_item, _prepare_for_update; run_m.
  generalize w.
  induction (model_dump_exclude_unset data) as [|[n v] l IH];
    intros w0; cbn; run_m; [by eexists|]. apply IH.
Qed.

(** The calls an [add_to_session] leaves: none when preparing the items
    raised, which a batch that the operation prepares never does;
    otherwise one [add_all] of as many instances as there are items, then
    one [commit] when requested, then one [rollback] when that commit
    failed. *)
Lemma add_to_session_calls items commit operation w :
  let '(r, w') := add_to_session Model items commit operation w in
  let d := calls_since w w' in
  (d = [] /\ (exists e, r = Err e)
   /\ prepares Model operation items = false)
  \/ exists db_items,
       length db_items = length items
       /\ d = CAddAll db_items ::
               (if commit then
                  CCommit :: (if r is Ok _ then [] else [CRollback])
                else []).
Proof.
  unfold add_to_session, prepares.
  set (prepare := if String.eqb operation "create" then _
                  else if String.eqb operation "update" then _ else _).
  set (prepared := if String.eqb operation "create" then _
                   else if String.eqb operation "update" then _ else _).
  assert (Hprep : forall r w', prepare w = (r, w') -> same_calls w w').
  { subst prepare. intros r w'.
    destruct (String.eqb operation "create");
      [|destruct (String.eqb operation "update")].
    - apply (list_comp_preserves same_calls);
        eauto using same_calls_refl, same_calls_trans.
      intros [data|item changes] ? ? ?; [apply prepare_for_create_same_calls|].
      by intros [= <- <-].
    - apply (list_comp_preserves same_calls);
        eauto using same_calls_refl, same_calls_trans.
      intros [data|item changes] ? ? ?; [|apply apply_changes_same_calls].
      by intros [= <- <-].
    - by intros [= <- <-]. }
  assert (Hok : prepared = true ->
                exists db_items w1,
                  prepare w = (Ok db_items, w1)
                  /\ length db_items = length items).
  { subst prepare prepared.
    destruct (String.eqb operation "create");
      [|destruct (String.eqb operation "update"); [|done]].
    - intros Hall. apply list_comp_ok. intros item w0 Hin.
      rewrite forallb_forall in Hall.
      specialize (Hall item (proj1 (list_elem_of_In _ _) Hin)).
      destruct item as [data|]; [|done].
      unfold _prepare_for_create, alloc.
      destruct (model_validate Model data); [by eexists _, _|done].
    - intros Hall. apply list_comp_ok. intros item w0 Hin.
      rewrite forallb_forall in Hall.
      specialize (Hall item (proj1 (list_elem_of_In _ _) Hin)).
      destruct item as [|item changes]; [done|].
      destruct (apply_changes_returns item changes w0) as [w1 ->].
      by eexists _, _. }
  assert (Hlen : forall db_items w1,
                   prepare w = (Ok db_items, w1) ->
                   length db_items = length items).
  { subst prepare. intros db_items w1.
    destruct (String.eqb operation "create");
      [|destruct (String.eqb operation "update"); [|done]].
    all: apply list_comp_length. }
  run_m. destruct (prepare w) as [[db_items|e] w1] eqn:Hp;
    specialize (Hprep _ _ eq_refl).
  2: { left. unfold calls_since. rewrite Hprep, drop_all.
       split; [done|]. split; [by eauto|].
       destruct prepared; [|done]. by destruct Hok as (? & ? & ? & _). }
  specialize (Hlen _ _ eq_refl).
  pose proof (session_add_all_calls db_items w1) as Hadd.
  destruct (session_add_all db_items w1) as [[[]|e] w2] eqn:Hs;
    [|by unfold session_add_all in Hs].
  cbn in Hadd. rewrite Hprep in Hadd.
  destruct commit.
  - destruct (_safe_commit Model "Commit failed." w2) as [r3 w3] eqn:Hc.
    destruct (safe_commit_calls _ _ _ _ Hc)
      as [[-> Hcalls]|(e & -> & _ & Hcalls)];
      right; exists db_items; (split; [done|]); apply calls_since_app;
      rewrite Hcalls, Hadd, <- app_assoc; done.
  - right. exists db_items. split; [done|]. apply calls_since_app.
    by rewrite Hadd.
Qed.

(** C5.  [add_to_session] never refreshes an item, and with [commit=False]
    it makes no commit call.  With [commit=True], on a batch the operation
    prepares (the empty list among them), it makes one [add_all] of one
    instance per item and then exactly one commit call, followed by a
    rollback only when that commit failed. *)
Theorem add_to_session_commits_once (items : list batch_item)
    (commit : bool) (operation : string) (w : World) :
  let run := add_to_session Model items commit operation w in
  let d := calls_since w run.2 in
  count is_refresh d = 0
  /\ (commit = false -> count is_commit d = 0)
  /\ (commit = true -> prepares Model operation items = true ->
      count is_commit d = 1
      /\ exists db_items,
           length db_items = length items
           /\ d = CAddAll db_items :: CCommit ::
                   (if run.1 is Ok _ then [] else [CRollback])).
Proof.
  pose proof (add_to_session_calls items commit operation w) as H.
  destruct (add_to_session Model items commit operation w) as [r w'] eqn:Hrun.
  cbn [fst snd] in *. cbn zeta in *.
  destruct H as [(Hd & _ & Hnot)|(db_items & Hlen & Hd)]; rewrite Hd.
  - split; [done|]. split; [done|]. intros _ Hprep. congruence.
  - split; [by destruct commit, r|]. split; [by intros ->|].
    intros -> _. split; [by destruct r|]. by exists db_items.
Qed.

End CommitFacts.

Lemma add_to_session_commits_once_witness :
  let w := fresh_world [Player.row 1 "Ann"] [] in
  let run :=
    add_to_session Player.DbPlayer
      [ForCreate (Player.PlayerCreate "Bea");
       ForCreate (Player.PlayerCreate "Cid")] true "create" w in
  let d := calls_since w run.2 in
  count is_commit d = 1
  /\ exists db_items,
       length db_items = 2
       /\ d = CAddAll db_items :: CCommit ::
               (if run.1 is Ok _ then [] else [CRollback]).
Proof.
  apply (proj2 (proj2
    (add_to_session_commits_once Player.DbPlayer
       [ForCreate (Player.PlayerCreate "Bea");
        ForCreate (Player.PlayerCreate "Cid")] true "create"
       (fresh_world [Player.row 1 "Ann"] [])))).
  - reflexivity.
  - reflexivity.
Defined.

(** *** Looking rows and instances up *)

Section StoreFacts.

Context (Model : model_class).

Lemma find_row_Some k tbl o :
  find_row Model k tbl = Some o -> row_key Model o = k /\ o ∈ tbl.
Proof.
  unfold find_row. intros [Hin Hk%bool_decide_eq_true]%find_some.
  split; [done|]. by apply list_elem_of_In.
Qed.

Lemma find_row_None k tbl :
  find_row Model k tbl = None <-> k ∉ map (row_key Model) tbl.
Proof.
  unfold find_row. induction tbl as [|row tbl IH]; cbn.
  - split; [|done]. intros _ Hin. by apply elem_of_nil in Hin.
  - rewrite not_elem_of_cons. case_bool_decide as Hk.
    + split; [done|]. by intros [? _].
    + rewrite IH. intuition congruence.
Qed.

Lemma find_row_elem_of k tbl :
  k ∈ map (row_key Model) tbl -> is_Some (find_row Model k tbl).
Proof.
  intros Hin. destruct (find_row Model k tbl) eqn:Hf; [done|].
  by apply find_row_None in Hf.
Qed.

Lemma find_row_unique tbl o :
  NoDup (map (row_key Model) tbl) -> o ∈ tbl ->
  find_row Model (row_key Model o) tbl = Some o.
Proof.
  unfold find_row. induction tbl as [|row tbl IH]; cbn.
  - intros _ Hin. by apply elem_of_nil in Hin.
  - intros [Hnotin Hnd]%NoDup_cons [->|Hin]%elem_of_cons.
    + by rewrite bool_decide_eq_true_2.
    + case_bool_decide as Hk; [|by apply IH].
      exfalso. apply Hnotin. rewrite Hk. by apply list_elem_of_fmap_2.
Qed.

Lemma find_row_app_r k tbl o :
  k ∉ map (row_key Model) tbl -> row_key Model o = k ->
  find_row Model k (tbl ++ [o]) = Some o.
Proof.
  unfold find_row. induction tbl as [|row tbl IH]; cbn.
  - intros _ ->. by rewrite bool_decide_eq_true_2.
  - intros [Hne Hnotin]%not_elem_of_cons Hk.
    rewrite bool_decide_eq_false_2 by done. by apply IH.
Qed.

Lemma find_row_app_l k tbl tbl' o :
  find_row Model k tbl = Some o -> find_row Model k (tbl ++ tbl') = Some o.
Proof.
  unfold find_row. induction tbl as [|row tbl IH]; cbn; [done|].
  by case_bool_decide.
Qed.

Lemma identity_lookup_Some k idm r :
  identity_lookup k idm = Some r -> (k, r) ∈ idm.
Proof.
  unfold identity_lookup.
  destruct (List.find _ idm) as [[k' r']|] eqn:Hf; [|done].
  intros [= <-]. apply find_some in Hf as [Hin Hk%bool_decide_eq_true].
  cbn in Hk. subst. by apply list_elem_of_In.
Qed.

Lemma identity_lookup_None k idm :
  identity_lookup k idm = None <-> k ∉ idm.*1.
Proof.
  unfold identity_lookup. induction idm as [|[k' r'] idm IH]; cbn.
  - split; [|done]. intros _ Hin. by apply elem_of_nil in Hin.
  - rewrite not_elem_of_cons. case_bool_decide as Hk; cbn in Hk.
    + split; [done|]. by intros [? _].
    + rewrite IH. intuition congruence.
Qed.

Lemma identity_lookup_app_r k idm r :
  k ∉ idm.*1 -> identity_lookup k (idm ++ [(k, r)]) = Some r.
Proof.
  unfold identity_lookup. induction idm as [|[k' r'] idm IH]; cbn.
  - intros _. by rewrite bool_decide_eq_true_2.
  - intros [Hne Hnotin]%not_elem_of_cons.
    rewrite bool_decide_eq_false_2 by done. by apply IH.
Qed.

Lemma identity_key_Some r idm k :
  identity_key r idm = Some k -> (k, r) ∈ idm.
Proof.
  unfold identity_key.
  destruct (List.find _ idm) as [[k' r']|] eqn:Hf; [|done].
  intros [= <-]. apply find_some in Hf as [Hin Hk%bool_decide_eq_true].
  cbn in Hk. subst. by apply list_elem_of_In.
Qed.

Lemma identity_key_elem_of r idm :
  r ∈ idm.*2 -> is_Some (identity_key r idm).
Proof.
  unfold identity_key. induction idm as [|[k' r'] idm IH]; cbn.
  - intros Hin. by apply elem_of_nil in Hin.
  - intros Hin. case_bool_decide as Hk; cbn in Hk; [by eexists|].
    apply elem_of_cons in Hin as [?|?]; [done|]. by apply IH.
Qed.

Lemma identity_key_app_r r idm k :
  r ∉ idm.*2 -> identity_key r (idm ++ [(k, r)]) = Some k.
Proof.
  unfold identity_key. induction idm as [|[k' r'] idm IH]; cbn.
  - intros _. by rewrite bool_decide_eq_true_2.
  - intros [Hne Hnotin]%not_elem_of_cons.
    rewrite bool_decide_eq_false_2 by done. by apply IH.
Qed.

Lemma synced_keys_in_table w k :
  synced Model w -> k ∈ (sess_identity w).*1 ->
  k ∈ map (row_key Model) (table w).
Proof.
  intros Hs ([k' r] & -> & Hin)%list_elem_of_fmap_1.
  destruct (Hs _ _ Hin) as (o & _ & [<- Ho]%find_row_Some).
  cbn. by apply (list_elem_of_fmap_2 (row_key Model)).
Qed.

Lemma synced_refs_in_heap w r :
  synced Model w -> r ∈ (sess_identity w).*2 -> r < length (heap w).
Proof.
  intros Hs ([k r'] & -> & Hin)%list_elem_of_fmap_1.
  destruct (Hs _ _ Hin) as (o & Ho & _). by eapply lookup_lt_Some.
Qed.

Lemma table_ok_NoDup tbl :
  table_ok Model tbl = true -> NoDup (map (row_key Model) tbl).
Proof. unfold table_ok. by intros [_ ?%bool_decide_eq_true]%andb_prop. Qed.

(** *** Loading instances *)

Lemma loads_refl w : loads w w.
Proof. by repeat split. Qed.

Lemma loads_trans w1 w2 w3 : loads w1 w2 -> loads w2 w3 -> loads w1 w3.
Proof.
  unfold loads. intros (?&?&?&?&?&?&?) (?&?&?&?&?&?&?).
  repeat split; try congruence. by etrans.
Qed.

Lemma materialize_loads row w :
  exists r w', materialize Model row w = (Ok r, w') /\ loads w w'.
Proof.
  unfold materialize. destruct (identity_lookup _ _).
  - eauto using loads_refl.
  - eexists _, _. split; [done|]. repeat split. by apply prefix_app_r.
Qed.

Lemma materialize_synced row w :
  synced Model w -> NoDup (map (row_key Model) (table w)) -> row ∈ table w ->
  exists r w',
    materialize Model row w = (Ok r, w')
    /\ heap w' !! r = Some row /\ synced Model w' /\ loads w w'.
Proof.
  intros Hs Hnd Hin. unfold materialize.
  destruct (identity_lookup _ _) as [r|] eqn:Hl.
  - exists r, w. repeat split; try done.
    apply identity_lookup_Some in Hl.
    destruct (Hs _ _ Hl) as (o & Ho & Hf).
    rewrite find_row_unique in Hf by done. congruence.
  - eexists _, _. split; [done|]. cbn. split; [|split].
    + by rewrite lookup_app_r, Nat.sub_diag.
    + intros k r [Hkr|Hkr%list_elem_of_singleton]%elem_of_app; cbn.
      * destruct (Hs _ _ Hkr) as (o & Ho & Hf). exists o.
        split; [|done]. by apply lookup_app_l_Some.
      * injection Hkr as -> ->. exists row.
        rewrite lookup_app_r, Nat.sub_diag by done.
        split; [done|]. by apply find_row_unique.
    + repeat split. by apply prefix_app_r.
Qed.

Lemma list_comp_materialize_loads rows w :
  exists refs w',
    list_comp (materialize Model) rows w = (Ok refs, w')
    /\ length refs = length rows /\ loads w w'.
Proof.
  revert w. induction rows as [|row rows IH]; intros w; cbn; run_m.
  - eexists _, _. eauto using loads_refl.
  - destruct (materialize_loads row w) as (r & w1 & -> & Hl1).
    destruct (IH w1) as (refs & w2 & -> & Hlen & Hl2).
    eexists _, _. split; [done|]. cbn. eauto using loads_trans.
Qed.

Lemma list_comp_materialize_synced rows w :
  synced Model w -> NoDup (map (row_key Model) (table w)) ->
  Forall (fun row => row ∈ table w) rows ->
  exists refs w',
    list_comp (materialize Model) rows w = (Ok refs, w')
    /\ Forall2 (fun r row => heap w' !! r = Some row) refs rows
    /\ synced Model w' /\ loads w w'.
Proof.
  revert w. induction rows as [|row rows IH]; intros w Hs Hnd Hall; cbn; run_m.
  - eexists _, _. eauto using loads_refl.
  - apply Forall_cons in Hall as [Hin Hall].
    destruct (materialize_synced row w Hs Hnd Hin)
      as (r & w1 & -> & Hr & Hs1 & Hl1).
    pose proof Hl1 as (Ht1 & _).
    destruct (IH w1) as (refs & w2 & -> & Hrefs & Hs2 & Hl2);
      [done|by rewrite Ht1|by rewrite Ht1|].
    eexists _, _. split; [done|].
    split; [|split; [done|by eapply loads_trans]].
    constructor; [|done].
    destruct Hl2 as (_&_&_&_&_&_&Hpre). by eapply prefix_lookup_Some.
Qed.

Lemma filter_elem_of_table (p : obj -> bool) (tbl : list obj) :
  Forall (fun row => row ∈ tbl) (List.filter p tbl).
Proof.
  apply Forall_forall. intros row [Hin _]%list_elem_of_In%filter_In.
  by apply list_elem_of_In.
Qed.

End StoreFacts.

(** *** Reading: [one], [get_by_pk], [get_by_pks] *)

Section ReadFacts.

Context (Model : model_class).

Lemma selects_where (where_ : obj -> bool) (tbl : list obj) :
  List.filter (selects (sql_where sql_select where_)) tbl
  = List.filter where_ tbl.
Proof.
  apply filter_ext. intros row. unfold selects. cbn. apply andb_true_r.
Qed.

Lemma synced_log c w : synced Model w -> synced Model (log c w).
Proof. done. Qed.

(** C6.  [one] raises [NotFound] when no row matches the filter, returns
    the instance of the matching row when exactly one row matches, and
    raises [MultipleResultsFound] when two or more rows match. *)
Theorem one_by_number_of_matches (where_ : obj -> bool) (w : World) :
  let matching := List.filter where_ (table w) in
  (matching = [] ->
   exists cause w',
     one Model where_ w
     = (Err (ExnFrom NotFound "No items matched the where clause" cause), w')
     /\ exn_cls cause = SaNoResultFound)
  /\ (forall row, matching = [row] ->
      synced Model w -> NoDup (map (row_key Model) (table w)) ->
      exists r w',
        one Model where_ w = (Ok r, w') /\ heap w' !! r = Some row)
  /\ (2 <= length matching ->
      exists cause w',
        one Model where_ w
        = (Err (ExnFrom MultipleResultsFound
                  "Multiple items matched the where clause." cause), w')
        /\ exn_cls cause = SaMultipleResultsFound).
Proof.
  cbn. unfold one, exec, select, session_exec; run_m. cbn.
  rewrite selects_where.
  split; [|split].
  - intros ->. cbn. eauto.
  - intros row Hm Hs Hnd.
    pose proof (filter_elem_of_table where_ (table w)) as Hall.
    rewrite Hm in *.
    destruct (list_comp_materialize_synced Model [row] (log CExec w))
      as (refs & w' & -> & Hrefs & _); [done..|].
    apply Forall2_cons_inv_r in Hrefs as (r & refs' & Hr & ->%Forall2_nil_inv_r & ->).
    cbn. eauto.
  - intros Hlen.
    destruct (list_comp_materialize_loads Model
                (List.filter where_ (table w)) (log CExec w))
      as (refs & w' & -> & Hrefs & _).
    rewrite <- Hrefs in Hlen. destruct refs as [|r1 [|r2 refs]]; cbn in Hlen;
      [lia..|].
    cbn. eauto.
Qed.

(** A key that addresses no row is not found by [session.get], which then
    leaves the world as it was but for the record of the call. *)
Lemma get_by_pk_absent pk k w :
  key_values Model pk = Ok k ->
  k ∉ map (row_key Model) (table w) ->
  synced Model w ->
  get_by_pk Model pk w = (Ok None, log (CGet pk) w).
Proof.
  intros Hk Habsent Hs. unfold get_by_pk, session_get. rewrite Hk.
  destruct (identity_lookup _ _) as [r|] eqn:Hl.
  - exfalso. apply Habsent. eapply synced_keys_in_table; [done|].
    apply identity_lookup_Some in Hl.
    by apply (list_elem_of_fmap_2 fst) in Hl.
  - apply find_row_None in Habsent.
    change (table (log (CGet pk) w)) with (table w). by rewrite Habsent.
Qed.


(** [get_by_pks] never returns [None]. *)
Lemma get_by_pks_not_none in_ pks w :
  (get_by_pks Model in_ pks w).1 <> Ok None.
Proof.
  unfold get_by_pks, model_getattr; run_m.
  case_bool_decide; cbn; [|done].
  destruct (in_ "id" pks) as [clause|e]; [|done].
  by destruct (list_comp _ _ _) as [[?|?] ?].
Qed.

(** When the store evaluates the filter, [get_by_pks] returns the
    instances of the rows the filter selects, in table order. *)
Lemma get_by_pks_selected in_ pks clause w :
  "id" ∈ columns Model ->
  in_ "id" pks = Ok clause ->
  synced Model w ->
  NoDup (map (row_key Model) (table w)) ->
  exists refs w',
    get_by_pks Model in_ pks w = (Ok (Some refs), w')
    /\ Forall2 (fun r row => heap w' !! r = Some row) refs
         (List.filter clause (table w))
    /\ table w' = table w.
Proof.
  intros Hid Hin Hs Hnd.
  unfold get_by_pks, model_getattr, session_exec; run_m.
  rewrite bool_decide_eq_true_2 by done. cbn. rewrite Hin, selects_where.
  destruct (list_comp_materialize_synced Model
              (List.filter clause (table w)) (log CExec w))
    as (refs & w' & -> & Hrefs & _ & Ht & _);
    [done|done|apply filter_elem_of_table|].
  unfold result_all. eauto.
Qed.

(** C8.  [get_by_pks] filters on the attribute [id] of the model class,
    not on its primary key: on every model that has no [id] attribute the
    call raises [AttributeError] before any statement is executed, whatever
    the keys, the rows and the store's reading of the filter. *)
Theorem get_by_pks_needs_id_attribute
    (in_ : string -> list key -> result (obj -> bool)) (pks : list key)
    (w : World) :
  "id" ∉ columns Model ->
  exists e,
    get_by_pks Model in_ pks w = (Err e, w)
    /\ exn_cls e = AttributeError.
Proof.
  intros Hid. unfold get_by_pks, model_getattr; run_m.
  rewrite bool_decide_eq_false_2 by done. eauto.
Qed.

End ReadFacts.

Lemma one_by_number_of_matches_witness :
  exists r w',
    one Player.DbPlayer
      (fun row => bool_decide (row !! "name" = Some (Some (AStr "Bea"))))
      (fresh_world [Player.row 1 "Ann"; Player.row 2 "Bea"] []) = (Ok r, w')
    /\ heap w' !! r = Some (Player.row 2 "Bea").
Proof.
  apply (proj1 (proj2 (one_by_number_of_matches _ _ _))).
  - reflexivity.
  - intros k r Hin. by apply elem_of_nil in Hin.
  - apply (bool_decide_unpack _). vm_compute. exact I.
Defined.


(** On a model keyed by a string [code], the key ["hu"] addresses a
    stored row and [get_by_pk] finds it, but [get_by_pks] raises. *)
Lemma get_by_pks_needs_id_attribute_witness :
  let w := fresh_world [Country.row "hu" "Hungary"] [] in
  let in_ := fun (column : string) (pks : list key) =>
               Ok (fun row : obj =>
                     match row !! column with
                     | Some (Some a) => bool_decide (KAtom a ∈ pks)
                     | _ => false
                     end) in
  (get_by_pk Country.DbCountry (KAtom (AStr "hu")) w).1 = Ok (Some 0)
  /\ exists e,
       get_by_pks Country.DbCountry in_ [KAtom (AStr "hu")] w = (Err e, w)
       /\ exn_cls e = AttributeError.
Proof.
  split; [reflexivity|].
  apply (get_by_pks_needs_id_attribute Country.DbCountry).
  apply (bool_decide_unpack _). vm_compute. exact I.
Defined.

(** C10.  On a model keyed by another column than [id], [get_by_pks] of
    the empty key list raises [AttributeError] and returns nothing, where
    the empty sequence is due; when it does return, on whatever model, the
    result is never [None]. *)
Theorem get_by_pks_empty_keys_raise :
  (forall in_,
     let w := fresh_world [Country.row "hu" "Hungary"] [] in
     exists e,
       get_by_pks Country.DbCountry in_ [] w = (Err e, w)
       /\ exn_cls e = AttributeError)
  /\ (forall Model in_ pks w, (get_by_pks Model in_ pks w).1 <> Ok None).
Proof.
  split; [by eexists|]. intros Model in_ pks w. apply get_by_pks_not_none.
Qed.

(** *** Assigning the changes of an update *)

Lemma assign_lookup_other changes (o : obj) name :
  name ∉ changes.*1 -> assign o changes !! name = o !! name.
Proof.
  revert o. induction changes as [|[n v] changes IH]; intros o; cbn; [done|].
  intros [Hne Hnotin]%not_elem_of_cons.
  unfold assign in *. cbn. rewrite IH by done. by apply lookup_insert_ne.
Qed.

Lemma assign_lookup_set changes (o : obj) name v :
  NoDup changes.*1 -> (name, v) ∈ changes ->
  assign o changes !! name = Some v.
Proof.
  revert o. induction changes as [|[n v'] changes IH]; intros o; cbn.
  - intros _ Hin. by apply elem_of_nil in Hin.
  - intros [Hnotin Hnd]%NoDup_cons [[= -> ->]|Hin]%elem_of_cons.
    + change (assign (<[n:=v']> o) changes !! n = Some v').
      rewrite assign_lookup_other by done. apply lookup_insert_eq.
    + by apply IH.
Qed.

Lemma model_dump_elem_of data name v :
  (name, v) ∈ model_dump_exclude_unset data
  <-> (name, v) ∈ model_fields data /\ name ∈ model_fields_set data.
Proof.
  unfold model_dump_exclude_unset.
  rewrite !list_elem_of_In, filter_In, bool_decide_eq_true. cbn.
  by rewrite !list_elem_of_In.
Qed.

Lemma model_dump_names data name :
  name ∈ (model_dump_exclude_unset data).*1 ->
  name ∈ model_fields_set data /\ name ∈ (model_fields data).*1.
Proof.
  intros ([n v] & -> & [Hin Hset]%model_dump_elem_of)%list_elem_of_fmap_1.
  split; [done|]. by apply (list_elem_of_fmap_2 fst) in Hin.
Qed.

Lemma model_dump_NoDup data :
  NoDup (model_fields data).*1 -> NoDup (model_dump_exclude_unset data).*1.
Proof.
  unfold model_dump_exclude_unset.
  induction (model_fields data) as [|[n v] fields IH]; cbn; [done|].
  intros [Hnotin Hnd]%NoDup_cons. case_bool_decide; cbn; [|by apply IH].
  apply NoDup_cons. split; [|by apply IH].
  intros ([n' v'] & Hn & Hin)%list_elem_of_fmap_1. cbn in Hn. subst n'.
  apply list_elem_of_In, filter_In in Hin as [Hin%list_elem_of_In _].
  apply Hnotin. by apply (list_elem_of_fmap_2 fst) in Hin.
Qed.

Lemma assign_partially_updated data (o : obj) :
  NoDup (model_fields data).*1 ->
  partially_updated data o (assign o (model_dump_exclude_unset data)).
Proof.
  intros Hnd. split.
  - intros name v Hin Hset. apply assign_lookup_set.
    + by apply model_dump_NoDup.
    + by apply model_dump_elem_of.
  - intros name Hno. apply assign_lookup_other.
    intros [Hset Hfield]%model_dump_names. by destruct Hno.
Qed.

(** Assignments that spare the primary-key columns keep the key. *)
Lemma row_key_assign Model changes (o : obj) :
  (forall name, name ∈ changes.*1 -> name ∉ primary_key Model) ->
  row_key Model (assign o changes) = row_key Model o.
Proof.
  intros Hspare. unfold row_key. apply map_ext_in.
  intros c Hc%list_elem_of_In. rewrite assign_lookup_other; [done|].
  intros Hin. by apply (Hspare c).
Qed.

Lemma list_alter_insert {A} (f : A -> A) (l : list A) i x :
  l !! i = Some x -> alter f i l = <[i := f x]> l.
Proof.
  intros Hi. apply list_eq. intros j.
  destruct (decide (i = j)) as [<-|Hne].
  - rewrite list_lookup_alter_eq, Hi. cbn.
    rewrite list_lookup_insert_eq; [done|]. by eapply lookup_lt_Some.
  - by rewrite list_lookup_alter_ne, list_lookup_insert_ne.
Qed.

Lemma note_modified_set_heap item h w :
  note_modified item (set_heap h w) = set_heap h (note_modified item w).
Proof.
  unfold note_modified, is_persistent. cbn. by destruct (_ && _).
Qed.

Lemma note_modified_idemp item w :
  note_modified item (note_modified item w) = note_modified item w.
Proof.
  unfold note_modified at 2.
  destruct (is_persistent item w && _) eqn:Hc;
    [|unfold note_modified; by rewrite Hc].
  unfold note_modified, is_persistent. cbn.
  rewrite (bool_decide_eq_true_2 (item ∈ sess_dirty w ++ [item])).
  - cbn. rewrite andb_false_r. unfold is_persistent in Hc. by rewrite Hc.
  - apply elem_of_app. right. by apply list_elem_of_singleton.
Qed.

(** The loop of [_apply_changes_to_item]: the item's dictionary receives
    the assignments in order, and the session notes the item as modified
    when there was at least one. *)
Lemma for_each_setattr item changes w (o : obj) :
  heap w !! item = Some o ->
  for_each changes (fun '(name, v) => setattr item name v) w
  = (Ok tt,
     match changes with
     | [] => w
     | _ :: _ =>
         note_modified item (set_heap (<[item := assign o changes]> (heap w)) w)
     end).
Proof.
  revert w o. induction changes as [|[n v] changes IH]; intros w o Ho; [done|].
  cbn [for_each]; run_m. unfold setattr at 1.
  rewrite (list_alter_insert _ _ _ _ Ho), note_modified_set_heap.
  assert (Hlt : item < length (heap w)) by by eapply lookup_lt_Some.
  rewrite (IH _ (<[n:=v]> o)).
  2: { cbn. by apply list_lookup_insert_eq. }
  destruct changes as [|c changes]; [by rewrite note_modified_set_heap|].
  f_equal. cbn [heap set_heap].
  rewrite list_insert_insert_eq.
  change (set_heap ?h (set_heap ?h' ?w0)) with (set_heap h w0).
  by rewrite note_modified_set_heap, note_modified_idemp,
    <- note_modified_set_heap.
Qed.

(** *** The session operations on the paths taken by [create] and
    [update_item] *)

Section WriteFacts.

Context (Model : model_class).

Lemma session_add_persistent item w :
  is_persistent item w = true ->
  session_add item w = (Ok tt, log (CAdd item) w).
Proof.
  intros Hp. unfold session_add, stage.
  change (is_persistent item (log (CAdd item) w)) with (is_persistent item w).
  by rewrite Hp.
Qed.

Lemma session_add_transient item w :
  is_persistent item w = false -> sess_new w = [] ->
  session_add item w = (Ok tt, set_new [item] (log (CAdd item) w)).
Proof.
  intros Hp Hnew. unfold session_add, stage.
  change (is_persistent item (log (CAdd item) w)) with (is_persistent item w).
  rewrite Hp. cbn. rewrite Hnew. cbn.
  rewrite bool_decide_eq_false_2; [done|]. apply not_elem_of_nil.
Qed.

Lemma session_commit_flushed w h tbl idm :
  (forall e, head (commit_faults w) <> Some (Some e)) ->
  flush Model w = (h, tbl, idm) ->
  table_ok Model tbl = true ->
  session_commit Model w
  = (Ok tt,
     {| heap := h; sess_new := []; sess_dirty := []; sess_deleted := [];
        sess_identity := idm; table := tbl;
        commit_faults := tail (commit_faults w);
        calls := calls w ++ [CCommit] |}).
Proof.
  intros Hfault Hflush Hok. unfold session_commit.
  change (flush Model (set_faults _ (log CCommit w))) with (flush Model w).
  rewrite Hflush, Hok.
  destruct (head (commit_faults w)) as [[e|]|]; [by destruct (Hfault e)|done..].
Qed.

Lemma session_refresh_loaded item w k row :
  identity_key item (sess_identity w) = Some k ->
  find_row Model k (table w) = Some row ->
  session_refresh Model item w
  = (Ok tt,
     set_dirty (List.filter (fun r => negb (bool_decide (r = item)))
                            (sess_dirty w))
       (set_heap (<[item := row]> (heap w)) (log (CRefresh item) w))).
Proof.
  intros Hk Hrow. unfold session_refresh.
  change (sess_identity (log _ w)) with (sess_identity w).
  change (table (log _ w)) with (table w).
  by rewrite Hk, Hrow.
Qed.

Lemma identity_key_rekey item k idm :
  item ∈ idm.*2 -> identity_key item (rekey item k idm) = Some k.
Proof.
  unfold identity_key, rekey. induction idm as [|[k' r'] idm IH]; cbn.
  - intros Hin. by apply elem_of_nil in Hin.
  - intros Hin. destruct (decide (r' = item)) as [->|Hne].
    + rewrite (bool_decide_eq_true_2 (item = item)) by done. cbn.
      by rewrite bool_decide_eq_true_2.
    + rewrite (bool_decide_eq_false_2 (r' = item)) by done. cbn.
      rewrite bool_decide_eq_false_2 by done.
      apply IH. by apply elem_of_cons in Hin as [?|?].
Qed.

Lemma map_row_key_replace_row k (o : obj) tbl :
  row_key Model o = k ->
  map (row_key Model) (replace_row Model k o tbl) = map (row_key Model) tbl.
Proof.
  intros Hk. unfold replace_row. rewrite map_map. apply map_ext.
  intros row. case_bool_decide; congruence.
Qed.

Lemma forallb_populated tbl :
  forallb (fun row => populated (row_key Model row)) tbl
  = forallb populated (map (row_key Model) tbl).
Proof. induction tbl as [|row tbl IH]; cbn; [done|]. by rewrite IH. Qed.

Lemma table_ok_keys tbl tbl' :
  map (row_key Model) tbl' = map (row_key Model) tbl ->
  table_ok Model tbl = table_ok Model tbl'.
Proof.
  intros Hkeys. unfold table_ok. by rewrite !forallb_populated, Hkeys.
Qed.

Lemma find_row_replace_row k (o : obj) tbl :
  row_key Model o = k -> k ∈ map (row_key Model) tbl ->
  find_row Model k (replace_row Model k o tbl) = Some o.
Proof.
  intros Hk. unfold find_row, replace_row.
  induction tbl as [|row tbl IH]; cbn.
  - intros Hin. by apply elem_of_nil in Hin.
  - intros Hin. destruct (decide (row_key Model row = k)) as [Hrow|Hrow].
    + rewrite (bool_decide_eq_true_2 _ Hrow).
      by rewrite bool_decide_eq_true_2.
    + rewrite (bool_decide_eq_false_2 _ Hrow).
      rewrite bool_decide_eq_false_2 by done.
      apply IH. by apply elem_of_cons in Hin as [?|?].
Qed.

Lemma apply_changes_world item data w (o : obj) :
  heap w !! item = Some o ->
  _apply_changes_to_item item data w
  = (Ok item,
     match model_dump_exclude_unset data with
     | [] => w
     | changes =>
         note_modified item
           (set_heap (<[item := assign o changes]> (heap w)) w)
     end).
Proof.
  intros Ho. unfold _apply_changes_to_item, _prepare_for_update; run_m.
  rewrite (for_each_setattr _ _ _ _ Ho). by destruct model_dump_exclude_unset.
Qed.

(** The frame of [_apply_changes_to_item]: the item holds the assigned
    dictionary, every other instance and the store are untouched. *)
Lemma apply_changes_frame item data w (o : obj) :
  heap w !! item = Some o ->
  exists w',
    _apply_changes_to_item item data w = (Ok item, w')
    /\ heap w' !! item = Some (assign o (model_dump_exclude_unset data))
    /\ (forall r, r <> item -> heap w' !! r = heap w !! r)
    /\ table w' = table w /\ calls w' = calls w.
Proof.
  intros Ho. rewrite (apply_changes_world _ _ _ _ Ho).
  eexists. split; [done|].
  destruct (model_dump_exclude_unset data) as [|c changes]; [done|].
  assert (Hnm : forall w0, table (note_modified item w0) = table w0
                           /\ calls (note_modified item w0) = calls w0
                           /\ heap (note_modified item w0) = heap w0).
  { intros w0. unfold note_modified. by destruct (_ && _). }
  destruct (Hnm (set_heap (<[item:=assign o (c :: changes)]> (heap w)) w))
    as (-> & -> & ->).
  cbn [heap table calls set_heap]. repeat split.
  - apply list_lookup_insert_eq. by eapply lookup_lt_Some.
  - intros r Hne. by apply list_lookup_insert_ne.
Qed.

Lemma elem_of_replace_row k (o : obj) tbl :
  k ∈ map (row_key Model) tbl -> o ∈ replace_row Model k o tbl.
Proof.
  intros (row & -> & Hin)%list_elem_of_fmap_1.
  unfold replace_row. apply list_elem_of_In, in_map_iff. exists row.
  rewrite bool_decide_eq_true_2 by done. split; [done|].
  by apply list_elem_of_In.
Qed.

(** An update that spares the primary-key columns cannot violate the key
    constraint. *)
Lemma table_ok_spared data (o : obj) tbl :
  (forall name, name ∈ model_fields_set data -> name ∉ primary_key Model) ->
  table_ok Model tbl = true ->
  table_ok Model
    (replace_row Model (row_key Model o)
       (assign o (model_dump_exclude_unset data)) tbl) = true.
Proof.
  intros Hspare <-. symmetry. apply table_ok_keys.
  apply map_row_key_replace_row, row_key_assign.
  intros name [Hset _]%model_dump_names. by apply Hspare.
Qed.

(** [update_item] on a live item of a clean session, when the store
    accepts the commit: the changes are assigned, flushed to the item's
    row and read back. *)
Lemma update_item_flushes item data w (o : obj) :
  clean Model w ->
  item ∈ (sess_identity w).*2 ->
  heap w !! item = Some o ->
  (forall e, head (commit_faults w) <> Some (Some e)) ->
  let o' := assign o (model_dump_exclude_unset data) in
  table_ok Model (replace_row Model (row_key Model o) o' (table w)) = true ->
  exists w',
    update_item Model item data w = (Ok item, w')
    /\ heap w' !! item = Some o'
    /\ find_row Model (row_key Model o') (table w') = Some o'
    /\ calls w' = calls w ++ [CAdd item; CCommit; CRefresh item].
Proof.
  intros [Hnew Hdirty Hdel Hok Hs] Hitem Ho Hfault o' Hok'.
  assert (Hp : is_persistent item w = true)
    by by apply bool_decide_eq_true.
  destruct (identity_key_elem_of _ _ Hitem) as [k Hk].
  destruct (Hs _ _ (identity_key_Some _ _ _ Hk)) as (o0 & Ho0 & Hrow).
  assert (o0 = o) as -> by congruence.
  destruct (find_row_Some _ _ _ _ Hrow) as [Hkey Hin].
  assert (Hkin : k ∈ map (row_key Model) (table w)).
  { rewrite <- Hkey. by apply (list_elem_of_fmap_2 (row_key Model)). }
  assert (Hlt : item < length (heap w)) by by eapply lookup_lt_Some.
  rewrite Hkey in Hok'.
  unfold update_item; run_m. rewrite (apply_changes_world _ _ _ _ Ho).
  subst o'. destruct (model_dump_exclude_unset data) as [|c changes] eqn:Hch.
  - (* nothing to assign *)
    rewrite (session_add_persistent _ _ Hp).
    erewrite safe_commit_ok.
    2: { apply session_commit_flushed; [done| |exact Hok].
         unfold flush. fields. rewrite Hnew, Hdirty, Hdel. reflexivity. }
    erewrite session_refresh_loaded; [|exact Hk|exact Hrow].
    eexists. split; [done|]. fields. rewrite list_insert_id by done.
    change (assign o []) with o. rewrite Hkey, <- !app_assoc. done.
  - (* the item is noted as modified and flushed *)
    set (o' := assign o (c :: changes)) in *.
    assert (Hnm : note_modified item (set_heap (<[item:=o']> (heap w)) w)
                  = set_dirty [item] (set_heap (<[item:=o']> (heap w)) w)).
    { unfold note_modified.
      change (is_persistent item (set_heap _ w)) with (is_persistent item w).
      rewrite Hp. fields. rewrite Hdirty. cbn [negb andb].
      rewrite bool_decide_eq_false_2; [done|]. apply not_elem_of_nil. }
    assert (Hfound : find_row Model (row_key Model o')
                       (replace_row Model k o' (table w)) = Some o').
    { apply find_row_unique; [by apply table_ok_NoDup|].
      by apply elem_of_replace_row. }
    rewrite Hnm. rewrite session_add_persistent by done.
    erewrite safe_commit_ok.
    2: { apply session_commit_flushed; [done| |exact Hok'].
         unfold flush. fields.
         rewrite Hnew, Hdel. cbn [foldl]. unfold flush_update.
         rewrite Hk, list_lookup_insert_eq by done. reflexivity. }
    erewrite session_refresh_loaded.
    2: { fields. by apply identity_key_rekey. }
    2: { fields. exact Hfound. }
    eexists. split; [done|]. fields.
    rewrite list_insert_insert_eq, list_lookup_insert_eq by done.
    rewrite <- !app_assoc. done.
Qed.

Lemma materialize_persistent row w r w' :
  materialize Model row w = (Ok r, w') -> r ∈ (sess_identity w').*2.
Proof.
  unfold materialize. destruct (identity_lookup _ _) as [r0|] eqn:Hl.
  - intros [= <- <-]. apply identity_lookup_Some in Hl.
    by apply (list_elem_of_fmap_2 snd) in Hl.
  - intros [= <- <-]. fields. rewrite fmap_app. apply elem_of_app. right.
    by apply list_elem_of_singleton.
Qed.

Lemma clean_loads w w' :
  clean Model w -> loads w w' -> synced Model w' -> clean Model w'.
Proof.
  intros [Hnew Hdirty Hdel Hok Hs] (Ht & _ & Hn & Hd & Hx & _) Hs'.
  split; [congruence..| |done]. by rewrite Ht.
Qed.

(** A key that addresses a row resolves to the instance of that row. *)
Lemma get_by_pk_present pk k row w :
  clean Model w ->
  key_values Model pk = Ok k ->
  find_row Model k (table w) = Some row ->
  exists item w',
    get_by_pk Model pk w = (Ok (Some item), w')
    /\ heap w' !! item = Some row
    /\ item ∈ (sess_identity w').*2
    /\ clean Model w' /\ loads (log (CGet pk) w) w'.
Proof.
  intros Hclean Hk Hrow. pose proof Hclean as [Hnew Hdirty Hdel Hok Hs].
  unfold get_by_pk, session_get. rewrite Hk. fields.
  destruct (identity_lookup k (sess_identity w)) as [r|] eqn:Hl.
  - apply identity_lookup_Some in Hl.
    destruct (Hs _ _ Hl) as (o & Ho & Hrow').
    exists r, (log (CGet pk) w). repeat split; try done.
    + fields. congruence.
    + by apply (list_elem_of_fmap_2 snd) in Hl.
  - rewrite Hrow. run_m.
    destruct (find_row_Some _ _ _ _ Hrow) as [Hkey Hin].
    destruct (materialize_synced Model row (log (CGet pk) w))
      as (r & w' & Hm & Hr & Hs' & Hl'); [done|by apply table_ok_NoDup|done|].
    rewrite Hm. exists r, w'.
    split; [done|]. split; [done|].
    split; [by eapply materialize_persistent|].
    split; [|done]. by apply (clean_loads (log (CGet pk) w)).
Qed.

(** [update] on a key that addresses a row, when the store accepts the
    commit. *)
Lemma update_flushes pk k row data w :
  clean Model w ->
  key_values Model pk = Ok k ->
  find_row Model k (table w) = Some row ->
  (forall e, head (commit_faults w) <> Some (Some e)) ->
  let o' := assign row (model_dump_exclude_unset data) in
  table_ok Model (replace_row Model (row_key Model row) o' (table w)) = true ->
  exists item w',
    update Model pk data w = (Ok item, w')
    /\ heap w' !! item = Some o'
    /\ find_row Model (row_key Model o') (table w') = Some o'.
Proof.
  intros Hclean Hk Hrow Hfault o' Hok'.
  destruct (get_by_pk_present pk k row w Hclean Hk Hrow)
    as (item & w1 & Hget & Hitem & Hpers & Hclean1 & Hl).
  pose proof Hl as (Ht & _ & _ & _ & _ & Hf & _).
  destruct (update_item_flushes item data w1 row)
    as (w' & Hupd & Ho' & Hfound & _); try done.
  - by rewrite Hf.
  - by rewrite Ht.
  - exists item, w'. unfold update; run_m. by rewrite Hget, Hupd.
Qed.

End WriteFacts.

(** *** The partial-update law *)

Lemma partially_updated_assign data (o o' : obj) :
  NoDup (model_fields data).*1 ->
  partially_updated data o o' ->
  o' = assign o (model_dump_exclude_unset data).
Proof.
  intros Hnd [Hset Hother].
  destruct (assign_partially_updated data o Hnd) as [Hset' Hother'].
  apply map_eq. intros name.
  destruct (decide (name ∈ model_fields_set data)) as [Hs|Hs];
    [|rewrite Hother, Hother'; auto].
  destruct (decide (name ∈ (model_fields data).*1)) as [Hf|Hf];
    [|rewrite Hother, Hother'; auto].
  apply list_elem_of_fmap_1 in Hf as ([n v] & Hn & Hin).
  cbn in Hn. subst name.
  by rewrite (Hset _ _ Hin Hs), (Hset' _ _ Hin Hs).
Qed.

Section PartialUpdate.

Context (Model : model_class).

(** C2.  [_apply_changes_to_item], and with it [update_item] and [update],
    assign exactly the explicitly set fields of the update input to the
    item: each such field takes the input's value, every other attribute
    keeps its value from before the update, and no other instance is
    touched.  For [update_item] and [update] the item is a live instance of
    a clean session and the store accepts the commit. *)
Theorem partial_update_law (data : update_input) :
  NoDup (model_fields data).*1 ->
  (forall item w (o : obj),
      heap w !! item = Some o ->
      exists o' w',
        _apply_changes_to_item item data w = (Ok item, w')
        /\ heap w' !! item = Some o'
        /\ partially_updated data o o'
        /\ (forall r, r <> item -> heap w' !! r = heap w !! r)
        /\ table w' = table w)
  /\ (forall item w (o : obj),
        clean Model w ->
        item ∈ (sess_identity w).*2 ->
        heap w !! item = Some o ->
        (forall e, head (commit_faults w) <> Some (Some e)) ->
        (forall o', partially_updated data o o' ->
                    table_ok Model
                      (replace_row Model (row_key Model o) o' (table w))
                    = true) ->
        exists o' w',
          update_item Model item data w = (Ok item, w')
          /\ heap w' !! item = Some o'
          /\ partially_updated data o o'
          /\ find_row Model (row_key Model o') (table w') = Some o')
  /\ (forall pk k w (row : obj),
        clean Model w ->
        key_values Model pk = Ok k ->
        find_row Model k (table w) = Some row ->
        (forall e, head (commit_faults w) <> Some (Some e)) ->
        (forall o', partially_updated data row o' ->
                    table_ok Model
                      (replace_row Model (row_key Model row) o' (table w))
                    = true) ->
        exists item o' w',
          update Model pk data w = (Ok item, w')
          /\ heap w' !! item = Some o'
          /\ partially_updated data row o'
          /\ find_row Model (row_key Model o') (table w') = Some o').
Proof.
  intros Hnd. split; [|split].
  - intros item w o Ho.
    destruct (apply_changes_frame item data w o Ho)
      as (w' & Hrun & Ho' & Hframe & Ht & _).
    eauto 10 using assign_partially_updated.
  - intros item w o Hclean Hitem Ho Hfault Haccept.
    destruct (update_item_flushes Model item data w o)
      as (w' & Hrun & Ho' & Hfound & _);
      eauto 10 using assign_partially_updated.
  - intros pk k w row Hclean Hk Hrow Hfault Haccept.
    destruct (update_flushes Model pk k row data w)
      as (item & w' & Hrun & Ho' & Hfound);
      eauto 10 using assign_partially_updated.
Qed.

End PartialUpdate.

Lemma clean_fresh_world Model rows faults :
  table_ok Model rows = true -> clean Model (fresh_world rows faults).
Proof.
  intros Hok. split; try done. intros k r Hin. by apply elem_of_nil in Hin.
Qed.

Lemma partial_update_law_witness :
  let w := fresh_world [Player.row 1 "Ann"; Player.row 2 "Bea"] [] in
  exists item o' w',
    update Player.DbPlayer (KAtom (AInt 2)) (Player.PlayerUpdate "Bo") w
    = (Ok item, w')
    /\ heap w' !! item = Some o'
    /\ partially_updated (Player.PlayerUpdate "Bo") (Player.row 2 "Bea") o'
    /\ find_row Player.DbPlayer (row_key Player.DbPlayer o') (table w')
       = Some o'.
Proof.
  assert (Hnd : NoDup (model_fields (Player.PlayerUpdate "Bo")).*1).
  { apply (bool_decide_unpack _). vm_compute. exact I. }
  apply (proj2 (proj2 (partial_update_law Player.DbPlayer
                         (Player.PlayerUpdate "Bo") Hnd))
           (KAtom (AInt 2)) [Some (AInt 2)]).
  - by apply clean_fresh_world.
  - reflexivity.
  - reflexivity.
  - by intros e.
  - intros o' ->%(partially_updated_assign _ _ _ Hnd). reflexivity.
Defined.

(** *** [create] and the round trip through [get_by_pk] *)

Section CreateFacts.

Context (Model : model_class).

Lemma generate_key_other tbl (o : obj) c :
  c ∉ primary_key Model -> generate_key Model tbl o !! c = o !! c.
Proof.
  intros Hc. unfold generate_key.
  destruct (primary_key Model) as [|c0 [|c1 cs]]; try done.
  destruct (_ && _); [|done]. apply lookup_insert_ne.
  intros ->. apply Hc. by apply list_elem_of_singleton.
Qed.

Lemma table_ok_app tbl (o : obj) :
  table_ok Model (tbl ++ [o]) = true ->
  populated (row_key Model o) = true
  /\ row_key Model o ∉ map (row_key Model) tbl.
Proof.
  unfold table_ok. intros [Hpop Hnd%bool_decide_eq_true]%andb_prop.
  rewrite forallb_app in Hpop. apply andb_prop in Hpop as [_ Hpop].
  cbn in Hpop. rewrite andb_true_r in Hpop. split; [done|].
  rewrite map_app in Hnd. apply NoDup_app in Hnd as (_ & Hdisj & _).
  intros Hin. apply (Hdisj _ Hin). by apply list_elem_of_singleton.
Qed.

Lemma next_id_above tbl z :
  [Some (AInt z)] ∈ map (row_key Model) tbl -> (z < next_id Model tbl)%Z.
Proof.
  unfold next_id. induction tbl as [|row tbl IH]; cbn.
  - intros Hin. by apply elem_of_nil in Hin.
  - intros [Hrow|Hin]%elem_of_cons.
    + rewrite <- Hrow. lia.
    + specialize (IH Hin).
      destruct (row_key Model row) as [|[[z'|]|] [|]]; lia.
Qed.

(** On a model with a store-generated integer key, an input that brings no
    key always yields an acceptable row. *)
Lemma table_ok_generated tbl (o : obj) c :
  autoincrement Model = true ->
  primary_key Model = [c] ->
  default None (o !! c) = None ->
  table_ok Model tbl = true ->
  table_ok Model (tbl ++ [generate_key Model tbl o]) = true.
Proof.
  intros Hauto Hpk Hnone Hok.
  assert (Hkey : row_key Model (generate_key Model tbl o)
                 = [Some (AInt (next_id Model tbl))]).
  { unfold row_key, generate_key. rewrite Hpk, Hauto, Hnone. cbn.
    by rewrite lookup_insert_eq. }
  unfold table_ok in *. apply andb_prop in Hok as [Hpop Hnd%bool_decide_eq_true].
  rewrite forallb_app, Hpop. cbn. rewrite Hkey. cbn.
  apply bool_decide_eq_true. rewrite map_app. apply NoDup_app.
  split; [done|]. split; [|apply NoDup_singleton].
  intros k Hin ->%list_elem_of_singleton. cbn in Hin. rewrite Hkey in Hin.
  apply next_id_above in Hin. lia.
Qed.

(** C4.  For a creation input that validates and whose row the store
    accepts, [create] returns a new instance that has the validated
    input's values in every column outside the primary key and a fully
    populated primary key; and [get_by_pk] with that key then yields this
    very instance, unchanged. *)
Theorem create_round_trip (data : obj) (w : World) (o : obj) :
  clean Model w ->
  model_validate Model data = Ok o ->
  (forall e, head (commit_faults w) <> Some (Some e)) ->
  let o' := generate_key Model (table w) o in
  table_ok Model (table w ++ [o']) = true ->
  exists r w',
    create Model data w = (Ok r, w')
    /\ heap w' !! r = Some o'
    /\ (forall c, c ∉ primary_key Model -> o' !! c = o !! c)
    /\ populated (row_key Model o') = true
    /\ (forall pk, key_values Model pk = Ok (row_key Model o') ->
        exists w'',
          get_by_pk Model pk w' = (Ok (Some r), w'')
          /\ heap w'' !! r = Some o').
Proof.
  intros [Hnew Hdirty Hdel Hok Hs] Hval Hfault o' Hok'.
  destruct (table_ok_app _ _ Hok') as [Hpop Hfresh].
  set (r := length (heap w)).
  assert (Hr : r ∉ (sess_identity w).*2).
  { intros Hin%(synced_refs_in_heap Model w r Hs). unfold r in Hin. lia. }
  assert (Hk : row_key Model o' ∉ (sess_identity w).*1).
  { intros Hin. by apply Hfresh, synced_keys_in_table. }
  exists r. unfold create; run_m.
  unfold _prepare_for_create. rewrite Hval. unfold alloc. fold r.
  rewrite session_add_transient; [|by apply bool_decide_eq_false|done].
  erewrite safe_commit_ok.
  2: { apply session_commit_flushed; [done| |exact Hok'].
       unfold flush. fields. rewrite Hdirty, Hdel. cbn [foldl].
       unfold flush_insert. unfold r at 1.
       rewrite lookup_app_r, Nat.sub_diag by done. reflexivity. }
  erewrite session_refresh_loaded.
  2: { fields. by apply identity_key_app_r. }
  2: { fields. by apply find_row_app_r. }
  assert (Hlt : r < length (heap w ++ [o]))
    by (rewrite length_app; cbn; unfold r; lia).
  eexists. split; [done|]. fields.
  rewrite list_insert_insert_eq, list_lookup_insert_eq by done.
  split; [done|]. split; [by intros c Hc; apply generate_key_other|].
  split; [done|].
  intros pk Hpk. unfold get_by_pk, session_get. rewrite Hpk. fields.
  rewrite identity_lookup_app_r by done.
  eexists. split; [done|]. fields. by rewrite list_lookup_insert_eq.
Qed.

End CreateFacts.

Lemma create_round_trip_witness :
  let w := fresh_world [Player.row 1 "Ann"] [] in
  let o' := Player.row 2 "Bea" in
  exists r w',
    create Player.DbPlayer (Player.PlayerCreate "Bea") w = (Ok r, w')
    /\ heap w' !! r = Some o'
    /\ (forall c, c ∉ primary_key Player.DbPlayer ->
        o' !! c = ({[ "name" := Some (AStr "Bea"); "id" := None ]} : obj) !! c)
    /\ populated (row_key Player.DbPlayer o') = true
    /\ (forall pk, key_values Player.DbPlayer pk
                   = Ok (row_key Player.DbPlayer o') ->
        exists w'',
          get_by_pk Player.DbPlayer pk w' = (Ok (Some r), w'')
          /\ heap w'' !! r = Some o').
Proof.
  assert (Hgen : generate_key Player.DbPlayer [Player.row 1 "Ann"]
                   {[ "name" := Some (AStr "Bea"); "id" := None ]}
                 = Player.row 2 "Bea") by (vm_compute; reflexivity).
  cbv zeta. rewrite <- Hgen.
  apply (create_round_trip Player.DbPlayer (Player.PlayerCreate "Bea")
           (fresh_world [Player.row 1 "Ann"] [])
           {[ "name" := Some (AStr "Bea"); "id" := None ]}).
  - by apply clean_fresh_world.
  - reflexivity.
  - by intros e.
  - reflexivity.
Defined.

(** *** A failing commit: the operations that go through [_safe_commit] *)

Lemma quiet_refl w : quiet w w.
Proof. split; [done|]. exists []. by rewrite app_nil_r. Qed.

Lemma quiet_trans w1 w2 w3 : quiet w1 w2 -> quiet w2 w3 -> quiet w1 w3.
Proof.
  intros [Hf1 (d1 & Hc1 & Hd1)] [Hf2 (d2 & Hc2 & Hd2)].
  split; [congruence|]. exists (d1 ++ d2).
  rewrite Hc2, Hc1, app_assoc. split; [done|]. by apply Forall_app.
Qed.

Lemma quiet_log c w : is_commit c = false -> quiet w (log c w).
Proof. intros Hc. split; [done|]. exists [c]. split; [done|]. by constructor. Qed.

Lemma quiet_same w w' :
  commit_faults w' = commit_faults w -> calls w' = calls w -> quiet w w'.
Proof. intros Hf Hc. split; [done|]. exists []. by rewrite app_nil_r. Qed.

Section CommitFailure.

Context (Model : model_class).

Lemma stage_quiet w r : quiet w (stage w r).
Proof. unfold stage. destruct (_ || _); by apply quiet_same. Qed.

Lemma session_add_quiet item w r w' :
  session_add item w = (r, w') -> quiet w w'.
Proof.
  intros [= <- <-]. eapply quiet_trans; [by apply (quiet_log (CAdd item))|].
  apply stage_quiet.
Qed.

Lemma session_add_all_quiet items w r w' :
  session_add_all items w = (r, w') -> quiet w w'.
Proof.
  intros [= <- <-].
  eapply quiet_trans; [by apply (quiet_log (CAddAll items))|].
  generalize (log (CAddAll items) w). induction items as [|i items IH];
    intros w0; cbn; [apply quiet_refl|].
  eapply quiet_trans; [apply stage_quiet|apply IH].
Qed.

Lemma session_delete_quiet item w r w' :
  session_delete item w = (r, w') -> quiet w w'.
Proof.
  unfold session_delete. destruct (is_persistent _ _); intros [= <- <-].
  - eapply quiet_trans; [by apply (quiet_log (CDelete item))|].
    by apply quiet_same.
  - by apply (quiet_log (CDelete item)).
Qed.

Lemma prepare_for_create_quiet data w r w' :
  _prepare_for_create Model data w = (r, w') -> quiet w w'.
Proof.
  intros H%prepare_for_create_heap_only. rewrite H. by apply quiet_same.
Qed.

Lemma apply_changes_quiet item data w r w' :
  _apply_changes_to_item item data w = (r, w') -> quiet w w'.
Proof.
  unfold _apply_changes_to_item, _prepare_for_update; run_m.
  destruct (for_each _ _ w) as [[[]|e] w1] eqn:Hloop; intros [= <- <-].
  all: eapply (for_each_preserves quiet), Hloop;
    eauto using quiet_refl, quiet_trans.
  all: intros [name v] ? ? ?; unfold setattr, note_modified;
    intros [= <- <-]; destruct (_ && _); by apply quiet_same.
Qed.

Lemma get_by_pk_quiet pk w r w' :
  get_by_pk Model pk w = (r, w') -> quiet w w'.
Proof.
  unfold get_by_pk, session_get.
  destruct (key_values Model pk) as [k|e];
    [|intros [= <- <-]; by apply (quiet_log (CGet pk))].
  destruct (identity_lookup _ _);
    [intros [= <- <-]; by apply (quiet_log (CGet pk))|].
  destruct (find_row _ _ _) as [row|];
    [|intros [= <- <-]; by apply (quiet_log (CGet pk))].
  run_m. destruct (materialize_loads Model row (log (CGet pk) w))
    as (r0 & w0 & -> & Hl).
  intros [= <- <-].
  eapply quiet_trans; [by apply (quiet_log (CGet pk))|].
  destruct Hl as (_ & Hc & _ & _ & _ & Hf & _). by apply quiet_same.
Qed.

(** A commit the store fails with [e]: [_safe_commit] rolls back, then
    raises [CommitFailed] from [e]. *)
Lemma safe_commit_fault error_msg w e :
  head (commit_faults w) = Some (Some e) ->
  exists w',
    _safe_commit Model error_msg w
    = (Err (ExnFrom CommitFailed error_msg e), w')
    /\ calls w' = calls w ++ [CCommit; CRollback].
Proof.
  intros Hf.
  destruct (safe_commit_failed Model error_msg w e
              (set_faults (tail (commit_faults w)) (log CCommit w)))
    as (w' & Hrun & Hcalls & _).
  - unfold session_commit. by rewrite Hf.
  - eauto.
Qed.

(** After steps that make no commit call, a failing [_safe_commit] ends
    the call record with [commit; rollback] and is the only commit. *)
Lemma safe_commit_fault_after error_msg w w1 e :
  quiet w w1 ->
  head (commit_faults w) = Some (Some e) ->
  exists w' pre,
    _safe_commit Model error_msg w1
    = (Err (ExnFrom CommitFailed error_msg e), w')
    /\ calls w' = calls w ++ pre ++ [CCommit; CRollback]
    /\ Forall (fun c => is_commit c = false) pre.
Proof.
  intros [Hf (pre & Hc & Hpre)] Hfault.
  destruct (safe_commit_fault error_msg w1 e) as (w' & Hrun & Hcalls);
    [by rewrite Hf|].
  exists w', pre. by rewrite Hcalls, Hc, <- app_assoc.
Qed.

(** [create] on a validated input when the store fails the commit. *)
Lemma create_commit_failed data w (o : obj) e :
  model_validate Model data = Ok o ->
  head (commit_faults w) = Some (Some e) ->
  exists w' pre,
    create Model data w
    = (Err (ExnFrom CommitFailed "Commit failed." e), w')
    /\ calls w' = calls w ++ pre ++ [CCommit; CRollback]
    /\ Forall (fun c => is_commit c = false) pre.
Proof.
  intros Hval Hfault. unfold create; run_m.
  destruct (_prepare_for_create Model data w) as [[r|e0] w1] eqn:H1;
    [|by unfold _prepare_for_create, alloc in H1; rewrite Hval in H1].
  destruct (session_add r w1) as [[[]|e0] w2] eqn:H2; [|done].
  destruct (safe_commit_fault_after "Commit failed." w w2 e)
    as (w' & pre & -> & Hcalls & Hpre); [|done|by eauto].
  eauto using quiet_trans, prepare_for_create_quiet, session_add_quiet.
Qed.

(** [update_item] when the store fails the commit. *)
Lemma update_item_commit_failed item data w e :
  head (commit_faults w) = Some (Some e) ->
  exists w' pre,
    update_item Model item data w
    = (Err (ExnFrom CommitFailed "Update failed." e), w')
    /\ calls w' = calls w ++ pre ++ [CCommit; CRollback]
    /\ Forall (fun c => is_commit c = false) pre.
Proof.
  intros Hfault. unfold update_item; run_m.
  destruct (_apply_changes_to_item item data w) as [[r|e0] w1] eqn:H1.
  2: { unfold _apply_changes_to_item, _prepare_for_update in H1; run_m.
       destruct (for_each _ _ w) as [[[]|e1] w1'] eqn:Hloop; [done|].
       exfalso. revert Hloop. generalize w.
       induction (model_dump_exclude_unset data) as [|[n v] l IH];
         intros w0; cbn; run_m; [done|]. apply IH. }
  destruct (session_add item w1) as [[[]|e0] w2] eqn:H2; [|done].
  destruct (safe_commit_fault_after "Update failed." w w2 e)
    as (w' & pre & -> & Hcalls & Hpre); [|done|by eauto].
  eauto using quiet_trans, apply_changes_quiet, session_add_quiet.
Qed.

(** [delete_by_pk] on a key that resolves to an instance, when the store
    fails the commit. *)
Lemma delete_by_pk_commit_failed pk item w w1 e :
  get_by_pk Model pk w = (Ok (Some item), w1) ->
  head (commit_faults w) = Some (Some e) ->
  exists w' pre,
    delete_by_pk Model pk w
    = (Err (ExnFrom CommitFailed "Failed to delete item." e), w')
    /\ calls w' = calls w ++ pre ++ [CCommit; CRollback]
    /\ Forall (fun c => is_commit c = false) pre.
Proof.
  intros Hget Hfault. unfold delete_by_pk; run_m. rewrite Hget.
  assert (Hp : is_persistent item w1 = true).
  { revert Hget. unfold get_by_pk, session_get.
    destruct (key_values Model pk) as [k|]; [|done].
    destruct (identity_lookup _ _) as [r0|] eqn:Hl.
    - intros [= <- <-]. apply bool_decide_eq_true.
      apply identity_lookup_Some in Hl.
      by apply (list_elem_of_fmap_2 snd) in Hl.
    - destruct (find_row _ _ _) as [row|]; [|done]. run_m.
      destruct (materialize Model row _) as [[r0|] w0] eqn:Hm; [|done].
      intros [= <- <-]. apply bool_decide_eq_true.
      by eapply materialize_persistent. }
  destruct (session_delete item w1) as [[[]|e0] w2] eqn:H2.
  2: { unfold session_delete in H2.
       change (is_persistent item (log _ w1)) with (is_persistent item w1)
         in H2. by rewrite Hp in H2. }
  destruct (safe_commit_fault_after "Failed to delete item." w w2 e)
    as (w' & pre & -> & Hcalls & Hpre); [|done|by eauto].
  eauto using quiet_trans, get_by_pk_quiet, session_delete_quiet.
Qed.

(** [add_to_session] with [commit=True] when the store fails the commit:
    unless preparing the items raised, the items are staged, the commit is
    rolled back and [CommitFailed] is raised from the store's error. *)
Lemma add_to_session_commit_failed items operation w e :
  head (commit_faults w) = Some (Some e) ->
  let '(r, w') := add_to_session Model items true operation w in
  (calls_since w w' = [] /\ exists e0, r = Err e0)
  \/ (r = Err (ExnFrom CommitFailed "Commit failed." e)
      /\ exists db_items,
           calls_since w w' = [CAddAll db_items; CCommit; CRollback]).
Proof.
  intros Hfault.
  pose proof (add_to_session_calls Model items true operation w) as Hcalls.
  destruct (add_to_session Model items true operation w) as [r w'] eqn:Hrun.
  destruct Hcalls as [(Hd & He & _)|(db_items & _ & Hd)]; [by left|right].
  revert Hrun. unfold add_to_session.
  set (prepare := if String.eqb operation "create" then _
                  else if String.eqb operation "update" then _ else _).
  assert (Hprep : forall r w', prepare w = (r, w') -> quiet w w').
  { subst prepare. intros r0 w0.
    destruct (String.eqb operation "create");
      [|destruct (String.eqb operation "update")].
    - apply (list_comp_preserves quiet);
        eauto using quiet_refl, quiet_trans.
      intros [data|item changes] ? ? ?; [apply prepare_for_create_quiet|].
      intros [= <- <-]. apply quiet_refl.
    - apply (list_comp_preserves quiet);
        eauto using quiet_refl, quiet_trans.
      intros [data|item changes] ? ? ?; [|apply apply_changes_quiet].
      intros [= <- <-]. apply quiet_refl.
    - intros [= <- <-]. apply quiet_refl. }
  run_m. destruct (prepare w) as [[items'|e0] w1] eqn:Hp.
  2: { intros [= <- <-]. unfold calls_since in Hd.
       destruct (Hprep _ _ eq_refl) as [_ (d & Hc & Hnc)].
       rewrite Hc, drop_app_length in Hd. subst d.
       apply Forall_cons in Hnc as [_ Hnc].
       by apply Forall_cons in Hnc as [Hnc _]. }
  specialize (Hprep _ _ eq_refl).
  destruct (session_add_all items' w1) as [[[]|e0] w2] eqn:H2; [|done].
  destruct (safe_commit_fault_after "Commit failed." w w2 e)
    as (w3 & pre & -> & Hcalls & Hpre); [|done|].
  { eauto using quiet_trans, session_add_all_quiet. }
  intros [= <- <-]. split; [done|]. exists db_items. by rewrite Hd.
Qed.

(** A key that addresses a stored row resolves to an instance. *)
Lemma get_by_pk_resolves pk k w :
  key_values Model pk = Ok k ->
  k ∈ map (row_key Model) (table w) ->
  exists item w1, get_by_pk Model pk w = (Ok (Some item), w1).
Proof.
  intros Hk Hin. unfold get_by_pk, session_get. rewrite Hk.
  destruct (identity_lookup _ _); [by eauto|].
  change (table (log (CGet pk) w)) with (table w).
  destruct (find_row Model k (table w)) as [row|] eqn:Hrow.
  - run_m. destruct (materialize_loads Model row (log (CGet pk) w))
      as (r0 & w0 & -> & _). eauto.
  - by apply find_row_None in Hrow.
Qed.

(** [update] on a key that addresses a stored row, when the store fails
    the commit. *)
Lemma update_commit_failed pk k data w e :
  key_values Model pk = Ok k ->
  k ∈ map (row_key Model) (table w) ->
  head (commit_faults w) = Some (Some e) ->
  exists w' pre,
    update Model pk data w
    = (Err (ExnFrom CommitFailed "Update failed." e), w')
    /\ calls w' = calls w ++ pre ++ [CCommit; CRollback]
    /\ Forall (fun c => is_commit c = false) pre.
Proof.
  intros Hk Hin Hfault.
  destruct (get_by_pk_resolves pk k w Hk Hin) as (item & w1 & Hget).
  destruct (get_by_pk_quiet _ _ _ _ Hget) as [Hf (d & Hc & Hd)].
  destruct (update_item_commit_failed item data w1 e)
    as (w' & pre & Hrun & Hcalls & Hpre); [by rewrite Hf|].
  exists w', (d ++ pre). unfold update; run_m. rewrite Hget, Hrun.
  split; [done|]. rewrite Hcalls, Hc, <- !app_assoc.
  split; [done|]. by apply Forall_app.
Qed.

Lemma rolled_back_and_raised_intro {A} w msg e (run : result A * World) pre :
  run.1 = Err (ExnFrom CommitFailed msg e) ->
  calls run.2 = calls w ++ pre ++ [CCommit; CRollback] ->
  Forall (fun c => is_commit c = false) pre ->
  rolled_back_and_raised w msg e run.
Proof.
  intros Hr Hc Hpre. split; [done|]. exists pre. split; [|done].
  by apply calls_since_app.
Qed.

End CommitFailure.

(** * Further properties of the service *)

(** *** Commit and rollback *)

Section CommitOutcome.

Context (Model : model_class).

Lemma session_commit_failed_world w e w1 :
  session_commit Model w = (Err e, w1) ->
  w1 = set_faults (tail (commit_faults w)) (log CCommit w).
Proof.
  unfold session_commit.
  destruct (head (commit_faults w)) as [[e'|]|]; [by intros [= <- <-]|..];
    destruct (flush _ _) as [[h tbl] idm];
    destruct (table_ok _ tbl); by intros [= <- <-].
Qed.

(** X1.  [_safe_commit] commits once.  When the commit succeeds nothing
    else happens; when it raises [e], the session is rolled back right
    after it and [CommitFailed] is raised from [e] with the given message:
    the store is as before the call and no work is left pending. *)
Theorem safe_commit_outcomes (error_msg : string) (w : World) :
  match session_commit Model w with
  | (Ok _, w1) =>
      _safe_commit Model error_msg w = (Ok tt, w1)
      /\ calls w1 = calls w ++ [CCommit]
  | (Err e, _) =>
      exists w',
        _safe_commit Model error_msg w
        = (Err (ExnFrom CommitFailed error_msg e), w')
        /\ calls w' = calls w ++ [CCommit; CRollback]
        /\ table w' = table w
        /\ sess_new w' = [] /\ sess_dirty w' = [] /\ sess_deleted w' = []
  end.
Proof.
  destruct (session_commit Model w) as [[[]|e] w1] eqn:Hc.
  - split; [by apply safe_commit_ok|by eapply session_commit_calls].
  - destruct (safe_commit_failed Model error_msg w e w1 Hc)
      as (w' & Hrun & Hcalls & Hn & Hd & Hx & Ht).
    exists w'. rewrite Ht, (session_commit_failed_world _ _ _ Hc). done.
Qed.

(** Reloading the persistent instances gives back a heap in which each of
    them shows its row. *)
Lemma reload_restores (h0 : list obj) tbl idm (h : list obj) :
  (forall k r, (k, r) ∈ idm ->
     exists o, h0 !! r = Some o /\ find_row Model k tbl = Some o) ->
  length h = length h0 ->
  (forall r, r ∉ idm.*2 -> h !! r = h0 !! r) ->
  foldl (reload Model tbl) h idm = h0.
Proof.
  revert h. induction idm as [|[k r] idm IH]; intros h Hs Hlen Hout; cbn.
  - apply list_eq. intros r. apply Hout, not_elem_of_nil.
  - destruct (Hs k r) as (o & Ho & Hrow); [by left|].
    unfold reload at 2. cbn. rewrite Hrow. apply IH.
    + intros k' r' Hin. apply Hs. by right.
    + by rewrite length_insert.
    + intros r' Hr'. destruct (decide (r' = r)) as [->|Hne].
      * rewrite list_lookup_insert_eq; [done|].
        rewrite Hlen. by eapply lookup_lt_Some.
      * rewrite list_lookup_insert_ne by done. apply Hout.
        cbn. by apply not_elem_of_cons.
Qed.

(** After a failed commit on a session whose persistent instances agree
    with the store up to the instance [h0] describes, [_safe_commit] leaves
    the heap [h0], the store as it was, and no pending work. *)
Lemma safe_commit_failed_world error_msg w e w1 (h0 : list obj) :
  session_commit Model w = (Err e, w1) ->
  (forall k r, (k, r) ∈ sess_identity w ->
     exists o, h0 !! r = Some o /\ find_row Model k (table w) = Some o) ->
  length (heap w) = length h0 ->
  (forall r, r ∉ (sess_identity w).*2 -> heap w !! r = h0 !! r) ->
  _safe_commit Model error_msg w
  = (Err (ExnFrom CommitFailed error_msg e),
     {| heap := h0; sess_new := []; sess_dirty := []; sess_deleted := [];
        sess_identity := sess_identity w; table := table w;
        commit_faults := tail (commit_faults w);
        calls := calls w ++ [CCommit; CRollback] |}).
Proof.
  intros Hc Hs Hlen Hout. unfold _safe_commit; run_m. rewrite Hc.
  rewrite (session_commit_failed_world _ _ _ Hc).
  unfold session_rollback. fields.
  rewrite (reload_restores h0) by done. by rewrite <- app_assoc.
Qed.

Lemma session_commit_fault w e :
  head (commit_faults w) = Some (Some e) ->
  session_commit Model w
  = (Err e, set_faults (tail (commit_faults w)) (log CCommit w)).
Proof. intros Hf. unfold session_commit. by rewrite Hf. Qed.

Lemma session_commit_rejected w h tbl idm :
  (forall e, head (commit_faults w) <> Some (Some e)) ->
  flush Model w = (h, tbl, idm) ->
  table_ok Model tbl = false ->
  session_commit Model w
  = (Err (Exn SaIntegrityError "constraint failed"),
     set_faults (tail (commit_faults w)) (log CCommit w)).
Proof.
  intros Hfault Hflush Hok. unfold session_commit.
  change (flush Model (set_faults _ (log CCommit w))) with (flush Model w).
  rewrite Hflush, Hok.
  destruct (head (commit_faults w)) as [[e|]|]; [by destruct (Hfault e)|done..].
Qed.

End CommitOutcome.

(** *** [create]: what it leaves in the store *)

Section CreateOutcome.

Context (Model : model_class).

Lemma create_staged data w (o : obj) :
  clean Model w ->
  model_validate Model data = Ok o ->
  let r := length (heap w) in
  let w2 := set_new [r] (log (CAdd r) (set_heap (heap w ++ [o]) w)) in
  create Model data w
  = (_safe_commit Model "Commit failed." ;;
     session_refresh Model r ;; ret r) w2
  /\ flush Model w2
     = (heap w ++ [generate_key Model (table w) o],
        table w ++ [generate_key Model (table w) o],
        sess_identity w
        ++ [(row_key Model (generate_key Model (table w) o), r)]).
Proof.
  intros [Hnew Hdirty Hdel Hok Hs] Hval r w2.
  assert (Hr : r ∉ (sess_identity w).*2).
  { intros Hin%(synced_refs_in_heap Model w r Hs). unfold r in Hin. lia. }
  split.
  - unfold create; run_m. unfold _prepare_for_create. rewrite Hval.
    unfold alloc. fold r.
    by rewrite session_add_transient; [|by apply bool_decide_eq_false|done].
  - unfold flush, w2. fields. rewrite Hdirty, Hdel. cbn [foldl].
    unfold flush_insert. unfold r at 1.
    rewrite lookup_app_r, Nat.sub_diag by done. cbn [lookup list_lookup].
    unfold r. rewrite insert_app_r_alt, Nat.sub_diag by done. done.
Qed.

(** The world a successful [create] leaves. *)
Lemma create_success_world data w (o : obj) :
  clean Model w ->
  model_validate Model data = Ok o ->
  (forall e, head (commit_faults w) <> Some (Some e)) ->
  let o' := generate_key Model (table w) o in
  let r := length (heap w) in
  table_ok Model (table w ++ [o']) = true ->
  create Model data w
  = (Ok r,
     {| heap := heap w ++ [o']; sess_new := []; sess_dirty := [];
        sess_deleted := [];
        sess_identity := sess_identity w ++ [(row_key Model o', r)];
        table := table w ++ [o'];
        commit_faults := tail (commit_faults w);
        calls := calls w ++ [CAdd r; CCommit; CRefresh r] |}).
Proof.
  intros Hclean Hval Hfault o' r Hok'.
  destruct (create_staged data w o Hclean Hval) as [-> Hflush].
  destruct Hclean as [Hnew Hdirty Hdel Hok Hs].
  destruct (table_ok_app _ _ _ Hok') as [Hpop Hfresh].
  assert (Hr : r ∉ (sess_identity w).*2).
  { intros Hin%(synced_refs_in_heap Model w r Hs). unfold r in Hin. lia. }
  run_m. erewrite safe_commit_ok.
  2: { apply session_commit_flushed; [done|exact Hflush|exact Hok']. }
  erewrite session_refresh_loaded.
  2: { fields. by apply identity_key_app_r. }
  2: { fields. by apply find_row_app_r. }
  unfold set_dirty, set_heap, log. fields. cbn [List.filter].
  rewrite list_insert_id
    by (unfold r; by rewrite lookup_app_r, Nat.sub_diag).
  by rewrite <- !app_assoc.
Qed.

Lemma clean_after_create w (o' : obj) faults cs :
  clean Model w ->
  table_ok Model (table w ++ [o']) = true ->
  clean Model
    {| heap := heap w ++ [o']; sess_new := []; sess_dirty := [];
       sess_deleted := [];
       sess_identity := sess_identity w
                        ++ [(row_key Model o', length (heap w))];
       table := table w ++ [o']; commit_faults := faults; calls := cs |}.
Proof.
  intros [Hnew Hdirty Hdel Hok Hs] Hok'.
  destruct (table_ok_app _ _ _ Hok') as [Hpop Hfresh].
  split; try done. intros k r. fields.
  intros [Hin|[= -> ->]%list_elem_of_singleton]%elem_of_app.
  - destruct (Hs _ _ Hin) as (o & Ho & Hrow). exists o.
    split; [by apply lookup_app_l_Some|by apply find_row_app_l].
  - exists o'. rewrite lookup_app_r, Nat.sub_diag by done.
    split; [done|by apply find_row_app_r].
Qed.

(** X2.  On a clean session of a model whose single key the store
    generates, and while the store has keys left to give and does not
    fail, a [create] whose input validates and brings no key adds exactly
    one row, after the rows that were there and with every one of them in
    place; the new row has the validated input's values outside the key
    and a generated integer key that no earlier row has.  The call makes
    one [add], one [commit] and one [refresh], and leaves the session
    clean for the next operation. *)
Theorem create_appends_one_row (data : obj) (w : World) (o : obj)
    (c : string) :
  clean Model w ->
  model_validate Model data = Ok o ->
  autoincrement Model = true ->
  primary_key Model = [c] ->
  default None (o !! c) = None ->
  (next_id Model (table w) < 2 ^ 63)%Z ->
  (forall e, head (commit_faults w) <> Some (Some e)) ->
  exists r w' o',
    create Model data w = (Ok r, w')
    /\ table w' = table w ++ [o']
    /\ heap w' !! r = Some o'
    /\ (forall name, name <> c -> o' !! name = o !! name)
    /\ (exists z, o' !! c = Some (Some (AInt z)))
    /\ (row_key Model o' ∉ map (row_key Model) (table w))
    /\ calls_since w w' = [CAdd r; CCommit; CRefresh r]
    /\ clean Model w'.
Proof.
  intros Hclean Hval Hauto Hpk Hnone _ Hfault.
  set (o' := generate_key Model (table w) o).
  assert (Hok' : table_ok Model (table w ++ [o']) = true).
  { apply (table_ok_generated Model (table w) o c); try done.
    by destruct Hclean. }
  assert (Ho' : o' = <[c := Some (AInt (next_id Model (table w)))]> o).
  { unfold o', generate_key. by rewrite Hpk, Hauto, Hnone. }
  eexists _, _, o'. split; [by apply create_success_world|]. fields.
  split; [done|]. split; [by rewrite lookup_app_r, Nat.sub_diag|].
  split; [intros name Hne; rewrite Ho'; by apply lookup_insert_ne|].
  split; [eexists; rewrite Ho'; by apply lookup_insert_eq|].
  split; [by apply table_ok_app|].
  split; [by apply calls_since_app|by apply clean_after_create].
Qed.

(** The outcome of a [create] whose commit the store refuses. *)
Lemma create_rejected_outcome (data : obj) (w : World) (o : obj)
    (cause : exn) :
  clean Model w ->
  model_validate Model data = Ok o ->
  create_rejected Model w o cause ->
  exists w',
    create Model data w
    = (Err (ExnFrom CommitFailed "Commit failed." cause), w')
    /\ table w' = table w
    /\ calls_since w w' = [CAdd (length (heap w)); CCommit; CRollback]
    /\ clean Model w'.
Proof.
  intros Hclean Hval Hrej.
  destruct (create_staged data w o Hclean Hval) as [-> Hflush].
  pose proof Hclean as [Hnew Hdirty Hdel Hok Hs].
  set (r := length (heap w)) in *.
  set (w2 := set_new [r] (log (CAdd r) (set_heap (heap w ++ [o]) w))) in *.
  assert (Hc : session_commit Model w2
               = (Err cause,
                  set_faults (tail (commit_faults w2)) (log CCommit w2))).
  { destruct Hrej as [Hf|(Hf & Hbad & ->)].
    - by apply session_commit_fault.
    - by eapply session_commit_rejected. }
  run_m. erewrite (safe_commit_failed_world _ _ _ _ _ (heap w ++ [o]) Hc).
  + eexists. split; [done|]. subst w2. fields. split; [done|].
    split; [apply calls_since_app; by rewrite <- app_assoc|].
    split; try done. intros k r0 Hin. fields.
    destruct (Hs _ _ Hin) as (o0 & Ho0 & Hrow). exists o0.
    split; [by apply lookup_app_l_Some|done].
  + intros k r0 Hin. destruct (Hs _ _ Hin) as (o0 & Ho0 & Hrow).
    exists o0. split; [by apply lookup_app_l_Some|done].
  + done.
  + done.
Qed.

(** X3.  A [create] that fails leaves the store alone.  When the input
    does not validate, the validation error is raised and nothing at all
    has happened; when the store refuses the commit, the session is rolled
    back and [CommitFailed] is raised from the store's error: the table is
    unchanged and the session is clean again. *)
Theorem create_failure_leaves_store (data : obj) (w : World) :
  clean Model w ->
  (forall e, model_validate Model data = Err e ->
             create Model data w = (Err e, w))
  /\ (forall o cause,
        model_validate Model data = Ok o ->
        create_rejected Model w o cause ->
        exists w',
          create Model data w
          = (Err (ExnFrom CommitFailed "Commit failed." cause), w')
          /\ table w' = table w
          /\ calls_since w w' = [CAdd (length (heap w)); CCommit; CRollback]
          /\ clean Model w').
Proof.
  intros Hclean. split.
  - intros e Hval. unfold create, _prepare_for_create; run_m. by rewrite Hval.
  - intros o cause Hval Hrej. by apply (create_rejected_outcome data w o).
Qed.

End CreateOutcome.

Lemma create_appends_one_row_witness :
  let w := fresh_world [Player.row 1 "Ann"] [] in
  let o : obj := {[ "name" := Some (AStr "Bea"); "id" := None ]} in
  exists r w' o',
    create Player.DbPlayer (Player.PlayerCreate "Bea") w = (Ok r, w')
    /\ table w' = table w ++ [o']
    /\ heap w' !! r = Some o'
    /\ (forall name, name <> "id" -> o' !! name = o !! name)
    /\ (exists z, o' !! "id" = Some (Some (AInt z)))
    /\ (row_key Player.DbPlayer o'
        ∉ map (row_key Player.DbPlayer) (table w))
    /\ calls_since w w' = [CAdd r; CCommit; CRefresh r]
    /\ clean Player.DbPlayer w'.
Proof.
  apply (create_appends_one_row Player.DbPlayer (Player.PlayerCreate "Bea")
           (fresh_world [Player.row 1 "Ann"] [])).
  - by apply clean_fresh_world.
  - reflexivity.
  - reflexivity.
  - reflexivity.
  - reflexivity.
  - reflexivity.
  - by intros e.
Defined.

Lemma create_failure_leaves_store_witness :
  let w := fresh_world [Player.row 1 "Ann"] [] in
  exists w',
    create Player.DbPlayer
      ({[ "name" := Some (AStr "Bea"); "id" := Some (AInt 1) ]} : obj) w
    = (Err (ExnFrom CommitFailed "Commit failed."
              (Exn SaIntegrityError "constraint failed")), w')
    /\ table w' = table w
    /\ calls_since w w' = [CAdd (length (heap w)); CCommit; CRollback]
    /\ clean Player.DbPlayer w'.
Proof.
  apply (proj2 (create_failure_leaves_store Player.DbPlayer
                  {[ "name" := Some (AStr "Bea"); "id" := Some (AInt 1) ]}
                  (fresh_world [Player.row 1 "Ann"] [])
                  (clean_fresh_world Player.DbPlayer
                     [Player.row 1 "Ann"] [] eq_refl))
           {[ "name" := Some (AStr "Bea"); "id" := Some (AInt 1) ]}).
  - reflexivity.
  - right. split; [by intros e|]. split; reflexivity.
Defined.

(** *** Lookup by key, [update] and [refresh] *)

Section UpdateOutcome.

Context (Model : model_class).

(** X4.  On a clean session [get_by_pk] answers from the store: a key that
    addresses a row yields an instance holding exactly that row, a key that
    addresses none yields [None]; in both cases nothing is raised and the
    store is untouched. *)
Theorem get_by_pk_finds_stored (pk : key) (k : list value) (w : World) :
  clean Model w ->
  key_values Model pk = Ok k ->
  match find_row Model k (table w) with
  | Some row =>
      exists item w',
        get_by_pk Model pk w = (Ok (Some item), w')
        /\ heap w' !! item = Some row
        /\ table w' = table w
        /\ clean Model w'
  | None => get_by_pk Model pk w = (Ok None, log (CGet pk) w)
  end.
Proof.
  intros Hclean Hk. destruct (find_row Model k (table w)) as [row|] eqn:Hrow.
  - destruct (get_by_pk_present Model pk k row w Hclean Hk Hrow)
      as (item & w' & Hget & Hitem & _ & Hclean' & Hl).
    exists item, w'. destruct Hl as (Ht & _). by rewrite Ht.
  - apply (get_by_pk_absent Model pk k); [done| |by destruct Hclean].
    by apply find_row_None.
Qed.

(** X5.  [update] on a key of a class the service tests for ([str], [int],
    [tuple], [list] or [dict]) that addresses no row raises [NotFound]
    with the formatted key before anything is assigned,
    staged or committed: the world is as before but for the record of the
    lookup. *)
Theorem update_absent (pk : key) (k : list value) (data : update_input)
    (w : World) :
  is_recognized_key pk = true ->
  key_values Model pk = Ok k ->
  k ∉ map (row_key Model) (table w) ->
  synced Model w ->
  exists s,
    _format_primary_key pk = Ok s
    /\ update Model pk data w = (Err (Exn NotFound s), log (CGet pk) w).
Proof.
  intros Hpk Hk Habsent Hs.
  assert (exists s, _format_primary_key pk = Ok s) as [s Hfmt]
    by (destruct pk; try done; cbn; eauto).
  exists s. split; [done|]. unfold update; run_m.
  by rewrite (get_by_pk_absent _ _ _ _ Hk Habsent Hs), Hfmt.
Qed.

Lemma replace_row_same k (o : obj) tbl :
  NoDup (map (row_key Model) tbl) ->
  find_row Model k tbl = Some o ->
  replace_row Model k o tbl = tbl.
Proof.
  intros Hnd Hrow. unfold replace_row.
  rewrite <- (map_id tbl) at 2. apply map_ext_in.
  intros row Hin%list_elem_of_In. case_bool_decide as Hkey; [|done].
  pose proof (find_row_unique Model tbl row Hnd Hin) as Hfound.
  rewrite Hkey in Hfound. congruence.
Qed.

(** The store and the heap a successful [update_item] leaves. *)
Lemma update_item_success_world item data w (o : obj) :
  clean Model w ->
  item ∈ (sess_identity w).*2 ->
  heap w !! item = Some o ->
  (forall e, head (commit_faults w) <> Some (Some e)) ->
  let o' := assign o (model_dump_exclude_unset data) in
  table_ok Model (replace_row Model (row_key Model o) o' (table w)) = true ->
  exists w',
    update_item Model item data w = (Ok item, w')
    /\ heap w' = <[item := o']> (heap w)
    /\ table w' = replace_row Model (row_key Model o) o' (table w).
Proof.
  intros [Hnew Hdirty Hdel Hok Hs] Hitem Ho Hfault o' Hok'.
  assert (Hp : is_persistent item w = true)
    by by apply bool_decide_eq_true.
  destruct (identity_key_elem_of _ _ Hitem) as [k Hk].
  destruct (Hs _ _ (identity_key_Some _ _ _ Hk)) as (o0 & Ho0 & Hrow).
  assert (o0 = o) as -> by congruence.
  destruct (find_row_Some _ _ _ _ Hrow) as [Hkey Hin].
  assert (Hkin : k ∈ map (row_key Model) (table w)).
  { rewrite <- Hkey. by apply (list_elem_of_fmap_2 (row_key Model)). }
  assert (Hlt : item < length (heap w)) by by eapply lookup_lt_Some.
  rewrite Hkey in *.
  unfold update_item; run_m. rewrite (apply_changes_world _ _ _ _ Ho).
  subst o'. destruct (model_dump_exclude_unset data) as [|c changes] eqn:Hch.
  - rewrite (session_add_persistent _ _ Hp).
    erewrite safe_commit_ok.
    2: { apply session_commit_flushed; [done| |exact Hok].
         unfold flush. fields. rewrite Hnew, Hdirty, Hdel. reflexivity. }
    erewrite session_refresh_loaded; [|exact Hk|exact Hrow].
    eexists. split; [done|]. fields. change (assign o []) with o.
    rewrite list_insert_id by done.
    by rewrite replace_row_same by (by apply table_ok_NoDup || done).
  - set (o' := assign o (c :: changes)) in *.
    assert (Hnm : note_modified item (set_heap (<[item:=o']> (heap w)) w)
                  = set_dirty [item] (set_heap (<[item:=o']> (heap w)) w)).
    { unfold note_modified.
      change (is_persistent item (set_heap _ w)) with (is_persistent item w).
      rewrite Hp. fields. rewrite Hdirty. cbn [negb andb].
      rewrite bool_decide_eq_false_2; [done|]. apply not_elem_of_nil. }
    assert (Hfound : find_row Model (row_key Model o')
                       (replace_row Model k o' (table w)) = Some o').
    { apply find_row_unique; [by apply table_ok_NoDup|].
      by apply elem_of_replace_row. }
    rewrite Hnm. rewrite session_add_persistent by done.
    erewrite safe_commit_ok.
    2: { apply session_commit_flushed; [done| |exact Hok'].
         unfold flush. fields.
         rewrite Hnew, Hdel. cbn [foldl]. unfold flush_update.
         rewrite Hk, list_lookup_insert_eq by done. reflexivity. }
    erewrite session_refresh_loaded.
    2: { fields. by apply identity_key_rekey. }
    2: { fields. exact Hfound. }
    eexists. split; [done|]. fields.
    by rewrite list_insert_insert_eq.
Qed.

(** X6.  An [update] that succeeds rewrites the addressed row and nothing
    else: the table keeps its length and order, the row under the key now
    holds the partially updated values, and every row under another key is
    exactly as before. *)
Theorem update_rewrites_one_row (pk : key) (k : list value)
    (data : update_input) (w : World) (row : obj) :
  clean Model w ->
  key_values Model pk = Ok k ->
  find_row Model k (table w) = Some row ->
  (forall e, head (commit_faults w) <> Some (Some e)) ->
  let row' := assign row (model_dump_exclude_unset data) in
  table_ok Model (replace_row Model k row' (table w)) = true ->
  exists item w',
    update Model pk data w = (Ok item, w')
    /\ length (table w') = length (table w)
    /\ (forall i old, table w !! i = Some old ->
        table w' !! i
        = Some (if bool_decide (row_key Model old = k) then row' else old)).
Proof.
  intros Hclean Hk Hrow Hfault row' Hok'.
  destruct (find_row_Some _ _ _ _ Hrow) as [Hkey _].
  destruct (get_by_pk_present Model pk k row w Hclean Hk Hrow)
    as (item & w1 & Hget & Hitem & Hpers & Hclean1 & Hl).
  pose proof Hl as (Ht & _ & _ & _ & _ & Hf & _).
  destruct (update_item_success_world item data w1 row)
    as (w' & Hupd & _ & Htbl); try done.
  - by rewrite Hf.
  - by rewrite Ht, Hkey.
  - exists item, w'. unfold update; run_m. rewrite Hget, Hupd.
    split; [done|]. rewrite Htbl, Ht, Hkey. unfold replace_row. fields.
    split; [by rewrite length_map|].
    intros i old Hi. fields.
    etrans; [apply (list_lookup_fmap
                      (fun row0 : obj =>
                         if bool_decide (row_key Model row0 = k)
                         then row' else row0))|].
    by rewrite Hi.
Qed.

(** The rest of [update_item] after the assignments, when the store
    refuses the commit: the rollback restores the heap [h0] with which the
    persistent instances agree with the store. *)
Lemma update_item_rejected_tail item w1 (h0 : list obj) cause w2 :
  is_persistent item w1 = true ->
  (forall k r, (k, r) ∈ sess_identity w1 ->
     exists o, h0 !! r = Some o /\ find_row Model k (table w1) = Some o) ->
  length (heap w1) = length h0 ->
  (forall r, r ∉ (sess_identity w1).*2 -> heap w1 !! r = h0 !! r) ->
  session_commit Model (log (CAdd item) w1) = (Err cause, w2) ->
  (session_add item ;; _safe_commit Model "Update failed." ;;
   session_refresh Model item ;; ret item) w1
  = (Err (ExnFrom CommitFailed "Update failed." cause),
     {| heap := h0; sess_new := []; sess_dirty := []; sess_deleted := [];
        sess_identity := sess_identity w1; table := table w1;
        commit_faults := tail (commit_faults w1);
        calls := calls w1 ++ [CAdd item; CCommit; CRollback] |}).
Proof.
  intros Hp Hs Hlen Hout Hc. run_m.
  rewrite (session_add_persistent _ _ Hp).
  erewrite (safe_commit_failed_world _ _ _ _ _ h0 Hc); try done.
  fields. by rewrite <- app_assoc.
Qed.

(** The outcome of an [update_item] whose commit the store refuses. *)
Lemma update_item_rejected_outcome (item : nat) (data : update_input)
    (w : World) (o : obj) (cause : exn) :
  clean Model w ->
  item ∈ (sess_identity w).*2 ->
  heap w !! item = Some o ->
  update_rejected Model w o (assign o (model_dump_exclude_unset data)) cause ->
  exists w',
    update_item Model item data w
    = (Err (ExnFrom CommitFailed "Update failed." cause), w')
    /\ heap w' = heap w
    /\ table w' = table w
    /\ calls_since w w' = [CAdd item; CCommit; CRollback]
    /\ clean Model w'.
Proof.
  intros Hclean Hitem Ho Hrej.
  pose proof Hclean as [Hnew Hdirty Hdel Hok Hs].
  assert (Hp : is_persistent item w = true)
    by by apply bool_decide_eq_true.
  destruct (identity_key_elem_of _ _ Hitem) as [k Hk].
  destruct (Hs _ _ (identity_key_Some _ _ _ Hk)) as (o0 & Ho0 & Hrow).
  assert (o0 = o) as -> by congruence.
  destruct (find_row_Some _ _ _ _ Hrow) as [Hkey Hin].
  assert (Hlt : item < length (heap w)) by by eapply lookup_lt_Some.
  assert (Htail : forall w1 w2,
    sess_identity w1 = sess_identity w -> table w1 = table w ->
    calls w1 = calls w -> length (heap w1) = length (heap w) ->
    (forall r, r <> item -> heap w1 !! r = heap w !! r) ->
    session_commit Model (log (CAdd item) w1) = (Err cause, w2) ->
    exists w',
      (session_add item ;; _safe_commit Model "Update failed." ;;
       session_refresh Model item ;; ret item) w1
      = (Err (ExnFrom CommitFailed "Update failed." cause), w')
      /\ heap w' = heap w /\ table w' = table w
      /\ calls_since w w' = [CAdd item; CCommit; CRollback]
      /\ clean Model w').
  { intros w1 w2 Hi1 Ht1 Hc1 Hlen1 Hout1 Hc.
    erewrite (update_item_rejected_tail item w1 (heap w) cause w2);
      [|by unfold is_persistent; rewrite Hi1|by rewrite Hi1, Ht1|done| |done].
    - eexists. split; [done|]. fields. rewrite Hi1, Ht1, Hc1.
      split; [done|]. split; [done|].
      split; [by apply calls_since_app|]. by split.
    - rewrite Hi1. intros r Hr. apply Hout1. by intros ->. }
  unfold update_item.
  change (_apply_changes_to_item item data ;; session_add item ;;
          _safe_commit Model "Update failed." ;;
          session_refresh Model item ;; ret item)
    with (bind (_apply_changes_to_item item data)
            (fun _ => session_add item ;;
                      _safe_commit Model "Update failed." ;;
                      session_refresh Model item ;; ret item)).
  unfold bind at 1. rewrite (apply_changes_world _ _ _ _ Ho).
  destruct (model_dump_exclude_unset data) as [|c changes] eqn:Hch.
  - destruct Hrej as [Hf|(Hf & Hbad & ->)].
    + eapply Htail; try done. by apply session_commit_fault.
    + exfalso. change (assign o []) with o in Hbad.
      rewrite replace_row_same in Hbad; [congruence|by apply table_ok_NoDup|].
      by rewrite Hkey.
  - set (o' := assign o (c :: changes)) in *.
    assert (Hnm : note_modified item (set_heap (<[item:=o']> (heap w)) w)
                  = set_dirty [item] (set_heap (<[item:=o']> (heap w)) w)).
    { unfold note_modified.
      change (is_persistent item (set_heap _ w)) with (is_persistent item w).
      rewrite Hp. fields. rewrite Hdirty. cbn [negb andb].
      rewrite bool_decide_eq_false_2; [done|]. apply not_elem_of_nil. }
    rewrite Hnm.
    assert (Hc : exists w2,
      session_commit Model
        (log (CAdd item)
           (set_dirty [item] (set_heap (<[item:=o']> (heap w)) w)))
      = (Err cause, w2)).
    { destruct Hrej as [Hf|(Hf & Hbad & ->)].
      - eexists. by apply session_commit_fault.
      - eexists. eapply session_commit_rejected; [done| |exact Hbad].
        unfold flush. fields. rewrite Hnew, Hdel. cbn [foldl].
        unfold flush_update. rewrite Hk, list_lookup_insert_eq by done.
        by rewrite Hkey. }
    destruct Hc as [w2 Hc].
    eapply Htail; [done|done|done| | |exact Hc].
    + fields. by rewrite length_insert.
    + intros r Hne. fields. by rewrite list_lookup_insert_ne.
Qed.

(** X7.  An [update_item] whose commit the store refuses raises
    [CommitFailed] ("Update failed.") from the store's error after rolling
    back: the item shows its stored values again, no instance and no row
    has changed, and the session is clean. *)
Theorem update_item_failure_reverts (item : nat) (data : update_input)
    (w : World) (o : obj) (cause : exn) :
  clean Model w ->
  item ∈ (sess_identity w).*2 ->
  heap w !! item = Some o ->
  update_rejected Model w o (assign o (model_dump_exclude_unset data)) cause ->
  exists w',
    update_item Model item data w
    = (Err (ExnFrom CommitFailed "Update failed." cause), w')
    /\ heap w' = heap w
    /\ table w' = table w
    /\ calls_since w w' = [CAdd item; CCommit; CRollback]
    /\ clean Model w'.
Proof. apply update_item_rejected_outcome. Qed.

(** X8.  [refresh] discards the uncommitted edits of a live item: after
    assignments to it, the item holds its stored row again, the session no
    longer counts it as modified, and the store was never touched. *)
Theorem refresh_discards_edits (item : nat) (data : update_input)
    (w : World) (o : obj) :
  clean Model w ->
  item ∈ (sess_identity w).*2 ->
  heap w !! item = Some o ->
  exists w',
    (_apply_changes_to_item item data ;; refresh Model item) w = (Ok tt, w')
    /\ heap w' = heap w
    /\ sess_dirty w' = []
    /\ table w' = table w
    /\ calls_since w w' = [CRefresh item].
Proof.
  intros [Hnew Hdirty Hdel Hok Hs] Hitem Ho.
  assert (Hp : is_persistent item w = true)
    by by apply bool_decide_eq_true.
  destruct (identity_key_elem_of _ _ Hitem) as [k Hk].
  destruct (Hs _ _ (identity_key_Some _ _ _ Hk)) as (o0 & Ho0 & Hrow).
  assert (o0 = o) as -> by congruence.
  unfold refresh; run_m. rewrite (apply_changes_world _ _ _ _ Ho).
  destruct (model_dump_exclude_unset data) as [|c changes].
  - erewrite session_refresh_loaded; [|exact Hk|exact Hrow].
    eexists. split; [done|]. fields. rewrite list_insert_id, Hdirty by done.
    repeat split. by apply calls_since_app.
  - set (o' := assign o (c :: changes)).
    assert (Hnm : note_modified item (set_heap (<[item:=o']> (heap w)) w)
                  = set_dirty [item] (set_heap (<[item:=o']> (heap w)) w)).
    { unfold note_modified.
      change (is_persistent item (set_heap _ w)) with (is_persistent item w).
      rewrite Hp. fields. rewrite Hdirty. cbn [negb andb].
      rewrite bool_decide_eq_false_2; [done|]. apply not_elem_of_nil. }
    rewrite Hnm.
    erewrite session_refresh_loaded; [|exact Hk|exact Hrow].
    eexists. split; [done|]. fields.
    rewrite list_insert_insert_eq, list_insert_id by done.
    cbn [List.filter]. rewrite bool_decide_eq_true_2 by done.
    repeat split. by apply calls_since_app.
Qed.

End UpdateOutcome.

Lemma clean_loaded_world Model rows faults :
  table_ok Model rows = true -> clean Model (loaded_world Model rows faults).
Proof.
  intros Hok. split; try done. intros k r Hin.
  apply elem_of_lookup_imap in Hin as (i & row & [= -> ->] & Hi).
  exists row. split; [done|]. cbn.
  apply find_row_unique; [by apply table_ok_NoDup|].
  by eapply list_elem_of_lookup_2.
Qed.

Lemma get_by_pk_finds_stored_witness :
  exists item w',
    get_by_pk Player.DbPlayer (KAtom (AInt 2))
      (fresh_world [Player.row 1 "Ann"; Player.row 2 "Bea"] [])
    = (Ok (Some item), w')
    /\ heap w' !! item = Some (Player.row 2 "Bea")
    /\ table w' = [Player.row 1 "Ann"; Player.row 2 "Bea"]
    /\ clean Player.DbPlayer w'.
Proof.
  exact (get_by_pk_finds_stored Player.DbPlayer (KAtom (AInt 2))
           [Some (AInt 2)]
           (fresh_world [Player.row 1 "Ann"; Player.row 2 "Bea"] [])
           (clean_fresh_world Player.DbPlayer
              [Player.row 1 "Ann"; Player.row 2 "Bea"] [] eq_refl)
           eq_refl).
Defined.

Lemma update_absent_witness :
  exists s,
    _format_primary_key (KAtom (AInt 7)) = Ok s
    /\ update Player.DbPlayer (KAtom (AInt 7)) (Player.PlayerUpdate "Bo")
         (fresh_world [Player.row 1 "Ann"] [])
       = (Err (Exn NotFound s),
          log (CGet (KAtom (AInt 7))) (fresh_world [Player.row 1 "Ann"] [])).
Proof.
  apply (update_absent Player.DbPlayer _ [Some (AInt 7)]).
  - reflexivity.
  - reflexivity.
  - apply (bool_decide_unpack _). vm_compute. exact I.
  - intros k r Hin. by apply elem_of_nil in Hin.
Defined.

Lemma update_rewrites_one_row_witness :
  let w := fresh_world [Player.row 1 "Ann"; Player.row 2 "Bea"] [] in
  let row' := assign (Player.row 2 "Bea")
                (model_dump_exclude_unset (Player.PlayerUpdate "Bo")) in
  exists item w',
    update Player.DbPlayer (KAtom (AInt 2)) (Player.PlayerUpdate "Bo") w
    = (Ok item, w')
    /\ length (table w') = length (table w)
    /\ (forall i old, table w !! i = Some old ->
        table w' !! i
        = Some (if bool_decide (row_key Player.DbPlayer old = [Some (AInt 2)])
                then row' else old)).
Proof.
  apply (update_rewrites_one_row Player.DbPlayer (KAtom (AInt 2))
           [Some (AInt 2)] (Player.PlayerUpdate "Bo")
           (fresh_world [Player.row 1 "Ann"; Player.row 2 "Bea"] [])
           (Player.row 2 "Bea")).
  - by apply clean_fresh_world.
  - reflexivity.
  - reflexivity.
  - by intros e.
  - reflexivity.
Defined.

Lemma update_item_failure_reverts_witness :
  let w := loaded_world Player.DbPlayer [Player.row 1 "Ann"]
             [Some (Exn SaOperationalError "connection lost")] in
  exists w',
    update_item Player.DbPlayer 0 (Player.PlayerUpdate "Bo") w
    = (Err (ExnFrom CommitFailed "Update failed."
              (Exn SaOperationalError "connection lost")), w')
    /\ heap w' = heap w
    /\ table w' = table w
    /\ calls_since w w' = [CAdd 0; CCommit; CRollback]
    /\ clean Player.DbPlayer w'.
Proof.
  apply (update_item_failure_reverts Player.DbPlayer 0
           (Player.PlayerUpdate "Bo")
           (loaded_world Player.DbPlayer [Player.row 1 "Ann"]
              [Some (Exn SaOperationalError "connection lost")])
           (Player.row 1 "Ann")).
  - by apply clean_loaded_world.
  - apply (bool_decide_unpack _). vm_compute. exact I.
  - reflexivity.
  - left. reflexivity.
Defined.

Lemma refresh_discards_edits_witness :
  let w := loaded_world Player.DbPlayer [Player.row 1 "Ann"] [] in
  exists w',
    (_apply_changes_to_item 0 (Player.PlayerUpdate "Bo") ;;
     refresh Player.DbPlayer 0) w = (Ok tt, w')
    /\ heap w' = heap w
    /\ sess_dirty w' = []
    /\ table w' = table w
    /\ calls_since w w' = [CRefresh 0].
Proof.
  apply (refresh_discards_edits Player.DbPlayer 0 (Player.PlayerUpdate "Bo")
           (loaded_world Player.DbPlayer [Player.row 1 "Ann"] [])
           (Player.row 1 "Ann")).
  - by apply clean_loaded_world.
  - apply (bool_decide_unpack _). vm_compute. exact I.
  - reflexivity.
Defined.

(** *** [delete_by_pk]: what it leaves in the store *)

Lemma NoDup_fst_unique {A B} (l : list (A * B)) k a b :
  NoDup l.*1 -> (k, a) ∈ l -> (k, b) ∈ l -> a = b.
Proof.
  induction l as [|[k' c] l IH]; cbn.
  - intros _ Hin. by apply elem_of_nil in Hin.
  - intros [Hnotin Hnd]%NoDup_cons Ha Hb.
    apply elem_of_cons in Ha as [[= -> ->]|Ha];
      apply elem_of_cons in Hb as [[= ?]|Hb]; subst; try done.
    + exfalso. apply Hnotin. by apply (list_elem_of_fmap_2 fst) in Hb.
    + exfalso. apply Hnotin. by apply (list_elem_of_fmap_2 fst) in Ha.
    + by apply IH.
Qed.

Section DeleteOutcome.

Context (Model : model_class).

Lemma find_row_delete_row_eq k tbl :
  find_row Model k (delete_row Model k tbl) = None.
Proof.
  apply find_row_None.
  intros (row & Hk & Hin)%list_elem_of_fmap_1.
  apply list_elem_of_In, filter_In in Hin as [_ Hne].
  apply negb_true_iff, bool_decide_eq_false in Hne. by apply Hne.
Qed.

Lemma find_row_delete_row_ne k k0 tbl :
  k0 <> k ->
  find_row Model k0 (delete_row Model k tbl) = find_row Model k0 tbl.
Proof.
  intros Hne. unfold find_row, delete_row.
  induction tbl as [|row tbl IH]; cbn; [done|].
  destruct (decide (row_key Model row = k)) as [Hk|Hk].
  - rewrite (bool_decide_eq_true_2 _ Hk). cbn.
    rewrite bool_decide_eq_false_2 by congruence. done.
  - rewrite (bool_decide_eq_false_2 _ Hk). cbn. by rewrite IH.
Qed.

Lemma table_ok_delete_row k tbl :
  table_ok Model tbl = true -> table_ok Model (delete_row Model k tbl) = true.
Proof.
  unfold table_ok, delete_row.
  intros [Hpop Hnd%bool_decide_eq_true]%andb_prop.
  apply andb_true_intro. split.
  - apply forallb_forall. intros row [Hin _]%filter_In.
    by eapply forallb_forall in Hpop.
  - apply bool_decide_eq_true. clear Hpop.
    induction tbl as [|row tbl IH]; cbn; [done|].
    cbn in Hnd. apply NoDup_cons in Hnd as [Hnotin Hnd].
    destruct (negb _); cbn; [|by apply IH].
    apply NoDup_cons. split; [|by apply IH].
    intros (row' & Hk & Hin)%list_elem_of_fmap_1.
    apply list_elem_of_In, filter_In in Hin as [Hin%list_elem_of_In _].
    apply Hnotin. rewrite Hk. by apply (list_elem_of_fmap_2 (row_key Model)).
Qed.

Lemma delete_row_app_fresh k tbl (o : obj) :
  k ∉ map (row_key Model) tbl -> row_key Model o = k ->
  delete_row Model k (tbl ++ [o]) = tbl.
Proof.
  intros Hfresh Hk. unfold delete_row. rewrite List.filter_app. cbn.
  rewrite (bool_decide_eq_true_2 _ Hk). cbn. rewrite app_nil_r.
  apply forallb_filter_id, forallb_forall.
  intros row Hin%list_elem_of_In. apply negb_true_iff, bool_decide_eq_false.
  intros Hrow. apply Hfresh. rewrite <- Hrow.
  by apply (list_elem_of_fmap_2 (row_key Model)).
Qed.

(** A key that addresses a row resolves to the one instance the identity
    map holds for it. *)
Lemma get_by_pk_present_unique pk k row w :
  clean Model w ->
  NoDup (sess_identity w).*1 ->
  key_values Model pk = Ok k ->
  find_row Model k (table w) = Some row ->
  exists item w1,
    get_by_pk Model pk w = (Ok (Some item), w1)
    /\ heap w1 !! item = Some row
    /\ (k, item) ∈ sess_identity w1
    /\ NoDup (sess_identity w1).*1
    /\ clean Model w1
    /\ loads (log (CGet pk) w) w1.
Proof.
  intros Hclean Hnd Hk Hrow. pose proof Hclean as [Hnew Hdirty Hdel Hok Hs].
  destruct (find_row_Some _ _ _ _ Hrow) as [Hkey Hin].
  unfold get_by_pk, session_get. rewrite Hk. fields.
  destruct (identity_lookup k (sess_identity w)) as [r|] eqn:Hl.
  - pose proof (identity_lookup_Some _ _ _ Hl) as Hkr.
    destruct (Hs _ _ Hkr) as (o & Ho & Hrow').
    exists r, (log (CGet pk) w). repeat split; try done.
    fields. congruence.
  - rewrite Hrow. run_m.
    destruct (materialize_synced Model row (log (CGet pk) w))
      as (r & w1 & Hm & Hr & Hs' & Hl'); [done|by apply table_ok_NoDup|done|].
    rewrite Hm. exists r, w1.
    assert (Hid : sess_identity w1 = sess_identity w ++ [(k, r)]).
    { revert Hm. unfold materialize. fields. rewrite Hkey, Hl.
      by intros [= <- <-]. }
    split; [done|]. split; [done|]. split; [|split; [|split; [|done]]].
    + rewrite Hid. apply elem_of_app. right. by apply list_elem_of_singleton.
    + rewrite Hid, fmap_app. apply NoDup_app. split; [done|].
      split; [|apply NoDup_singleton].
      intros k' Hk' ->%list_elem_of_singleton.
      by apply identity_lookup_None in Hl.
    + by apply (clean_loads Model (log (CGet pk) w)).
Qed.

(** The world a successful [delete_by_pk] leaves. *)
Lemma delete_success_world pk k row w :
  clean Model w ->
  NoDup (sess_identity w).*1 ->
  key_values Model pk = Ok k ->
  find_row Model k (table w) = Some row ->
  (forall e, head (commit_faults w) <> Some (Some e)) ->
  exists item w',
    delete_by_pk Model pk w = (Ok tt, w')
    /\ table w' = delete_row Model k (table w)
    /\ (k ∉ (sess_identity w').*1)
    /\ NoDup (sess_identity w').*1
    /\ clean Model w'
    /\ calls_since w w' = [CGet pk; CDelete item; CCommit].
Proof.
  intros Hclean Hnd Hk Hrow Hfault.
  destruct (get_by_pk_present_unique pk k row w Hclean Hnd Hk Hrow)
    as (item & w1 & Hget & Hitem & Hkitem & Hnd1 & Hclean1 & Hl).
  destruct Hl as (Ht & Hc & _ & _ & _ & Hf & _).
  destruct Hclean1 as [Hnew1 Hdirty1 Hdel1 Hok1 Hs1].
  assert (Hp : is_persistent item w1 = true).
  { apply bool_decide_eq_true. by apply (list_elem_of_fmap_2 snd) in Hkitem. }
  assert (Hik : identity_key item (sess_identity w1) = Some k).
  { destruct (identity_key_elem_of item (sess_identity w1)) as [k' Hk'].
    { by apply (list_elem_of_fmap_2 snd) in Hkitem. }
    rewrite Hk'. f_equal.
    destruct (Hs1 _ _ (identity_key_Some _ _ _ Hk')) as (o & Ho & Hrow').
    destruct (find_row_Some _ _ _ _ Hrow') as [<- _].
    destruct (find_row_Some _ _ _ _ Hrow) as [<- _]. congruence. }
  exists item. unfold delete_by_pk; run_m. rewrite Hget.
  unfold session_delete.
  change (is_persistent item (log _ w1)) with (is_persistent item w1).
  rewrite Hp. erewrite safe_commit_ok.
  2: { apply session_commit_flushed.
       - fields. by rewrite Hf.
       - unfold flush. fields. rewrite Hnew1, Hdirty1, Hdel1. cbn [foldl app].
         unfold flush_delete. rewrite Hik. reflexivity.
       - by apply table_ok_delete_row. }
  eexists. split; [done|]. fields. rewrite Ht. fields.
  assert (Hgone : k ∉ (List.filter
                         (fun p : list value * nat =>
                            negb (bool_decide (p.2 = item)))
                         (sess_identity w1)).*1).
  { intros ([k' r'] & Hk' & Hin)%list_elem_of_fmap_1. cbn in Hk'. subst k'.
    apply list_elem_of_In, filter_In in Hin as [Hin%list_elem_of_In Hne].
    apply negb_true_iff, bool_decide_eq_false in Hne. apply Hne. cbn.
    by eapply (NoDup_fst_unique (sess_identity w1) k). }
  split; [done|]. split; [done|]. split; [|split].
  - clear -Hnd1. induction (sess_identity w1) as [|[k' r'] idm IH]; cbn; [done|].
    cbn in Hnd1. apply NoDup_cons in Hnd1 as [Hnotin Hnd1].
    destruct (negb _); cbn; [|by apply IH].
    apply NoDup_cons. split; [|by apply IH].
    intros ([k2 r2] & Hk2 & Hin)%list_elem_of_fmap_1. cbn in Hk2. subst k2.
    apply list_elem_of_In, filter_In in Hin as [Hin%list_elem_of_In _].
    apply Hnotin. by apply (list_elem_of_fmap_2 fst) in Hin.
  - split; try done.
    + fields. apply table_ok_delete_row. by destruct Hclean.
    + unfold synced. fields. intros k0 r0 Hin0.
      pose proof Hin0 as Hin1.
      apply list_elem_of_In, filter_In in Hin1 as [Hin1%list_elem_of_In _].
      destruct (Hs1 _ _ Hin1) as (o & Ho & Hrow0). exists o.
      split; [done|]. rewrite find_row_delete_row_ne; [by rewrite Ht in Hrow0|].
      intros ->. apply Hgone. by apply (list_elem_of_fmap_2 fst) in Hin0.
  - apply calls_since_app. rewrite Hc. fields. by rewrite <- !app_assoc.
Qed.

(** X9.  On a clean session, [delete_by_pk] on a key that addresses a row
    removes that row and no other, keeping the order of the rest, with one
    lookup, one delete and one commit; afterwards the key addresses nothing
    and [get_by_pk] returns [None] for it. *)
Theorem delete_by_pk_removes_row (pk : key) (k : list value) (row : obj)
    (w : World) :
  clean Model w ->
  NoDup (sess_identity w).*1 ->
  key_values Model pk = Ok k ->
  find_row Model k (table w) = Some row ->
  (forall e, head (commit_faults w) <> Some (Some e)) ->
  exists w',
    delete_by_pk Model pk w = (Ok tt, w')
    /\ table w'
       = List.filter (fun old => negb (bool_decide (row_key Model old = k)))
                     (table w)
    /\ count is_commit (calls_since w w') = 1
    /\ get_by_pk Model pk w' = (Ok None, log (CGet pk) w').
Proof.
  intros Hclean Hnd Hk Hrow Hfault.
  destruct (delete_success_world pk k row w Hclean Hnd Hk Hrow Hfault)
    as (item & w' & Hrun & Ht & Hgone & _ & Hclean' & Hcalls).
  exists w'. split; [done|]. split; [done|]. split; [by rewrite Hcalls|].
  apply (get_by_pk_absent Model pk k); [done| |by destruct Hclean'].
  rewrite Ht. apply find_row_None, find_row_delete_row_eq.
Qed.

(** X10.  A [delete_by_pk] whose commit the store fails raises
    [CommitFailed] ("Failed to delete item.") from the store's error after
    rolling back: the row is still there, the deletion is no longer
    pending, and the session is clean. *)
Theorem delete_by_pk_failure_keeps_row (pk : key) (k : list value)
    (row : obj) (w : World) (cause : exn) :
  clean Model w ->
  key_values Model pk = Ok k ->
  find_row Model k (table w) = Some row ->
  head (commit_faults w) = Some (Some cause) ->
  exists w',
    delete_by_pk Model pk w
    = (Err (ExnFrom CommitFailed "Failed to delete item." cause), w')
    /\ table w' = table w
    /\ sess_deleted w' = []
    /\ count is_rollback (calls_since w w') = 1
    /\ clean Model w'.
Proof.
  intros Hclean Hk Hrow Hfault.
  destruct (get_by_pk_present Model pk k row w Hclean Hk Hrow)
    as (item & w1 & Hget & Hitem & Hpers & Hclean1 & Hl).
  destruct Hl as (Ht & Hc & _ & _ & _ & Hf & _).
  cbn [table calls commit_faults log] in Ht, Hc, Hf.
  pose proof Hclean1 as [Hnew1 Hdirty1 Hdel1 Hok1 Hs1].
  assert (Hp : is_persistent item w1 = true) by by apply bool_decide_eq_true.
  unfold delete_by_pk; run_m. rewrite Hget.
  unfold session_delete.
  change (is_persistent item (log _ w1)) with (is_persistent item w1).
  rewrite Hp.
  erewrite (safe_commit_failed_world Model _ _ cause _ (heap w1));
    [|apply session_commit_fault; fields; by rewrite Hf|done..].
  eexists. split; [done|]. fields.
  split; [done|]. split; [done|]. split.
  - unfold calls_since. fields. rewrite Hc.
    by rewrite <- !app_assoc, drop_app_length.
  - by split.
Qed.

End DeleteOutcome.

Section CreateDelete.

Context (Model : model_class).

(** X11.  Deleting the instance that [create] has just returned undoes the
    creation in the store: the table is the one from before the two
    calls. *)
Theorem create_then_delete_restores (data : obj) (w : World) (o : obj)
    (pk : key) :
  clean Model w ->
  NoDup (sess_identity w).*1 ->
  model_validate Model data = Ok o ->
  (forall e, head (commit_faults w) <> Some (Some e)) ->
  (forall e, head (tail (commit_faults w)) <> Some (Some e)) ->
  let o' := generate_key Model (table w) o in
  table_ok Model (table w ++ [o']) = true ->
  key_values Model pk = Ok (row_key Model o') ->
  exists r w1 w2,
    create Model data w = (Ok r, w1)
    /\ heap w1 !! r = Some o'
    /\ delete_by_pk Model pk w1 = (Ok tt, w2)
    /\ table w2 = table w.
Proof.
  intros Hclean Hnd Hval Hf1 Hf2 o' Hok' Hpk.
  destruct (table_ok_app _ _ _ Hok') as [_ Hfresh].
  eexists _, _. rewrite (create_success_world Model data w o) by done.
  destruct (delete_success_world Model pk (row_key Model o') o'
              {| heap := heap w ++ [o']; sess_new := []; sess_dirty := [];
                 sess_deleted := [];
                 sess_identity := sess_identity w
                                  ++ [(row_key Model o', length (heap w))];
                 table := table w ++ [o'];
                 commit_faults := tail (commit_faults w);
                 calls := calls w
                          ++ [CAdd (length (heap w)); CCommit;
                              CRefresh (length (heap w))] |})
    as (item & w2 & Hdel & Ht & _).
  - by apply clean_after_create.
  - fields. rewrite fmap_app. apply NoDup_app. split; [done|].
    split; [|apply NoDup_singleton].
    intros k' Hk' ->%list_elem_of_singleton.
    apply Hfresh. destruct Hclean. by apply synced_keys_in_table.
  - done.
  - fields. by apply find_row_app_r.
  - done.
  - exists w2. split; [done|]. fields.
    split; [by rewrite lookup_app_r, Nat.sub_diag|]. split; [done|].
    rewrite Ht. fields. by apply delete_row_app_fresh.
Qed.

End CreateDelete.

Lemma delete_by_pk_removes_row_witness :
  let w := fresh_world [Player.row 1 "Ann"; Player.row 2 "Bea"] [] in
  exists w',
    delete_by_pk Player.DbPlayer (KAtom (AInt 1)) w = (Ok tt, w')
    /\ table w'
       = List.filter
           (fun old =>
              negb (bool_decide (row_key Player.DbPlayer old
                                 = [Some (AInt 1)])))
           (table w)
    /\ count is_commit (calls_since w w') = 1
    /\ get_by_pk Player.DbPlayer (KAtom (AInt 1)) w'
       = (Ok None, log (CGet (KAtom (AInt 1))) w').
Proof.
  apply (delete_by_pk_removes_row Player.DbPlayer (KAtom (AInt 1))
           [Some (AInt 1)] (Player.row 1 "Ann")
           (fresh_world [Player.row 1 "Ann"; Player.row 2 "Bea"] [])).
  - by apply clean_fresh_world.
  - constructor.
  - reflexivity.
  - reflexivity.
  - by intros e.
Defined.

Lemma delete_by_pk_failure_keeps_row_witness :
  let w := fresh_world [Player.row 1 "Ann"]
             [Some (Exn SaOperationalError "connection lost")] in
  exists w',
    delete_by_pk Player.DbPlayer (KAtom (AInt 1)) w
    = (Err (ExnFrom CommitFailed "Failed to delete item."
              (Exn SaOperationalError "connection lost")), w')
    /\ table w' = table w
    /\ sess_deleted w' = []
    /\ count is_rollback (calls_since w w') = 1
    /\ clean Player.DbPlayer w'.
Proof.
  apply (delete_by_pk_failure_keeps_row Player.DbPlayer (KAtom (AInt 1))
           [Some (AInt 1)] (Player.row 1 "Ann")
           (fresh_world [Player.row 1 "Ann"]
              [Some (Exn SaOperationalError "connection lost")])).
  - by apply clean_fresh_world.
  - reflexivity.
  - reflexivity.
  - reflexivity.
Defined.

Lemma create_then_delete_restores_witness :
  let w := fresh_world [Player.row 1 "Ann"] [] in
  let o' := generate_key Player.DbPlayer (table w)
              {[ "name" := Some (AStr "Bea"); "id" := None ]} in
  exists r w1 w2,
    create Player.DbPlayer (Player.PlayerCreate "Bea") w = (Ok r, w1)
    /\ heap w1 !! r = Some o'
    /\ delete_by_pk Player.DbPlayer (KAtom (AInt 2)) w1 = (Ok tt, w2)
    /\ table w2 = table w.
Proof.
  apply (create_then_delete_restores Player.DbPlayer
           (Player.PlayerCreate "Bea")
           (fresh_world [Player.row 1 "Ann"] [])
           {[ "name" := Some (AStr "Bea"); "id" := None ]}
           (KAtom (AInt 2))).
  - by apply clean_fresh_world.
  - constructor.
  - reflexivity.
  - by intros e.
  - by intros e.
  - reflexivity.
  - reflexivity.
Defined.

(** *** [add_to_session]: batches *)

Section Batch.

Context (Model : model_class).

Lemma stage_table w r : table (stage w r) = table w.
Proof. unfold stage. by destruct (_ || _). Qed.

Lemma foldl_stage_table rs w : table (foldl stage w rs) = table w.
Proof.
  revert w. induction rs as [|r rs IH]; intros w; cbn; [done|].
  by rewrite IH, stage_table.
Qed.

Lemma setattr_table item name v w r w' :
  setattr item name v w = (r, w') -> table w' = table w.
Proof.
  unfold setattr, note_modified. intros [= <- <-]. by destruct (_ && _).
Qed.

Lemma apply_changes_table item data w r w' :
  _apply_changes_to_item item data w = (r, w') -> table w' = table w.
Proof.
  unfold _apply_changes_to_item, _prepare_for_update; run_m.
  destruct (for_each _ _ w) as [[[]|e] w1] eqn:Hloop; intros [= <- <-].
  all: eapply (for_each_preserves (fun w w' => table w' = table w)), Hloop;
    [done|congruence|].
  all: intros [name v] ? ? ?; apply setattr_table.
Qed.

(** X12.  With [commit=False], [add_to_session] never touches the store,
    whatever the operation, the items and the outcome: the table is the
    one from before the call. *)
Theorem add_to_session_without_commit_keeps_store (items : list batch_item)
    (operation : string) (w : World) :
  table (add_to_session Model items false operation w).2 = table w.
Proof.
  unfold add_to_session.
  set (prepare := if String.eqb operation "create" then _
                  else if String.eqb operation "update" then _ else _).
  assert (Hprep : forall r w', prepare w = (r, w') -> table w' = table w).
  { subst prepare. intros r w'.
    destruct (String.eqb operation "create");
      [|destruct (String.eqb operation "update")].
    - apply (list_comp_preserves (fun w w' => table w' = table w));
        [done|congruence|].
      intros [data|item changes] w0 r0 w0'.
      + intros H%prepare_for_create_heap_only. by rewrite H.
      + by intros [= <- <-].
    - apply (list_comp_preserves (fun w w' => table w' = table w));
        [done|congruence|].
      intros [data|item changes] w0 r0 w0'.
      + by intros [= <- <-].
      + apply apply_changes_table.
    - by intros [= <- <-]. }
  run_m. destruct (prepare w) as [[db_items|e] w1] eqn:Hp;
    specialize (Hprep _ _ eq_refl); [|done].
  unfold session_add_all. cbn. by rewrite foldl_stage_table.
Qed.

(** Preparing a batch of valid creation inputs instantiates them, in
    order, at the next free addresses. *)
Lemma prepare_batch datas (os : list obj) w :
  Forall2 (fun data o => model_validate Model data = Ok o) datas os ->
  list_comp (fun item =>
               match item with
               | ForCreate data => _prepare_for_create Model data
               | ForUpdate _ _ =>
                   raise (Exn ValidationError "validation error")
               end) (map ForCreate datas) w
  = (Ok (seq (length (heap w)) (length os)), set_heap (heap w ++ os) w).
Proof.
  intros Hall. revert w.
  induction Hall as [|data o datas os Hval Hall IH]; intros w; cbn; run_m.
  - rewrite app_nil_r. by destruct w.
  - unfold _prepare_for_create. rewrite Hval. unfold alloc. rewrite IH.
    fields. rewrite length_app. cbn [length].
    rewrite Nat.add_1_r, <- app_assoc. done.
Qed.

Lemma foldl_stage_fresh refs w :
  NoDup refs ->
  (forall r, r ∈ refs -> (r ∉ (sess_identity w).*2) /\ (r ∉ sess_new w)) ->
  foldl stage w refs = set_new (sess_new w ++ refs) w.
Proof.
  revert w. induction refs as [|r refs IH]; intros w Hnd Hfresh; cbn.
  - rewrite app_nil_r. by destruct w.
  - apply NoDup_cons in Hnd as [Hnotin Hnd].
    destruct (Hfresh r) as [Hp Hn]; [by left|].
    unfold stage at 2. unfold is_persistent.
    rewrite !bool_decide_eq_false_2 by done. cbn [orb].
    rewrite IH; [|done|].
    + fields. by rewrite <- app_assoc.
    + intros r' Hin'. fields. destruct (Hfresh r') as [Hp' Hn']; [by right|].
      split; [done|]. rewrite elem_of_app, list_elem_of_singleton.
      intros [Hx|Hx]; [done|]. subst r'. done.
Qed.

(** The world after a batch of valid creation inputs is staged. *)
Lemma add_to_session_staged datas (os : list obj) w :
  clean Model w ->
  Forall2 (fun data o => model_validate Model data = Ok o) datas os ->
  let refs := seq (length (heap w)) (length os) in
  add_to_session Model (map ForCreate datas) false "create" w
  = (Ok refs,
     set_new refs (log (CAddAll refs) (set_heap (heap w ++ os) w))).
Proof.
  intros [Hnew Hdirty Hdel Hok Hs] Hall refs.
  unfold add_to_session; run_m. cbn [String.eqb Ascii.eqb Bool.eqb].
  rewrite (prepare_batch _ _ _ Hall). fold refs.
  unfold session_add_all. rewrite foldl_stage_fresh.
  - fields. by rewrite Hnew.
  - apply NoDup_seq.
  - intros r [Hr _]%elem_of_seq. fields. rewrite Hnew. split.
    + intros Hin%(synced_refs_in_heap Model w r Hs). lia.
    + apply not_elem_of_nil.
Qed.

(** X13.  On a clean session, [add_to_session] with [operation="create"]
    and [commit=False] on inputs that all validate returns one new
    instance per input, in order, each holding its validated input; the
    instances are pending in the session, one [add_all] was made, and no
    row has been written. *)
Theorem add_to_session_stages_only (datas : list obj) (os : list obj)
    (w : World) :
  clean Model w ->
  Forall2 (fun data o => model_validate Model data = Ok o) datas os ->
  exists refs w',
    add_to_session Model (map ForCreate datas) false "create" w
    = (Ok refs, w')
    /\ Forall2 (fun r o => heap w' !! r = Some o) refs os
    /\ sess_new w' = refs
    /\ table w' = table w
    /\ calls_since w w' = [CAddAll refs].
Proof.
  intros Hclean Hall. eexists _, _.
  split; [by apply add_to_session_staged|]. fields.
  split; [|split; [done|split; [done|by apply calls_since_app]]].
  apply Forall2_same_length_lookup_2; [by rewrite length_seq|].
  intros i r o [-> Hi]%lookup_seq Ho.
  by rewrite lookup_app_r, Nat.add_comm, Nat.add_sub by lia.
Qed.

Lemma length_inserted_rows tbl (os : list obj) :
  length (inserted_rows Model tbl os) = length os.
Proof.
  revert tbl. induction os as [|o os IH]; intros tbl; cbn; [done|].
  by rewrite IH.
Qed.

(** Flushing a batch of pending instances inserts them in order. *)
Lemma flush_insert_all (os hpre : list obj) tbl idm :
  foldl (flush_insert Model) (hpre ++ os, tbl, idm)
        (seq (length hpre) (length os))
  = (hpre ++ inserted_rows Model tbl os,
     tbl ++ inserted_rows Model tbl os,
     idm ++ imap (fun i o' => (row_key Model o', length hpre + i))
                 (inserted_rows Model tbl os)).
Proof.
  revert hpre tbl idm.
  induction os as [|o os IH]; intros hpre tbl idm; cbn [length seq foldl].
  - cbn. by rewrite !app_nil_r.
  - unfold flush_insert at 2.
    rewrite lookup_app_r, Nat.sub_diag by done. cbn [lookup list_lookup].
    rewrite insert_app_r_alt, Nat.sub_diag by done. cbn [insert list_insert].
    set (o' := generate_key Model tbl o).
    specialize (IH (hpre ++ [o']) (tbl ++ [o'])
                  (idm ++ [(row_key Model o', length hpre)])).
    rewrite length_app, Nat.add_1_r, <- app_assoc in IH. cbn [app] in IH.
    rewrite IH. cbn [inserted_rows]. fold o'.
    rewrite imap_cons, Nat.add_0_r, <- !app_assoc. cbn [app].
    assert (Himap :
      imap (fun i (x : obj) => (row_key Model x, S (length hpre) + i))
           (inserted_rows Model (tbl ++ [o']) os)
      = imap ((fun i (x : obj) => (row_key Model x, length hpre + i)) ∘ S)
             (inserted_rows Model (tbl ++ [o']) os)).
    { apply imap_ext. intros i x _. cbn. f_equal. lia. }
    by rewrite Himap.
Qed.

(** Committing a session whose pending work is a batch of new instances
    at the end of the heap. *)
Lemma session_commit_inserts w (hpre os : list obj) :
  heap w = hpre ++ os ->
  sess_new w = seq (length hpre) (length os) ->
  sess_dirty w = [] -> sess_deleted w = [] ->
  (forall e, head (commit_faults w) <> Some (Some e)) ->
  let rows := inserted_rows Model (table w) os in
  table_ok Model (table w ++ rows) = true ->
  session_commit Model w
  = (Ok tt,
     {| heap := hpre ++ rows; sess_new := []; sess_dirty := [];
        sess_deleted := [];
        sess_identity :=
          sess_identity w
          ++ imap (fun i o' => (row_key Model o', length hpre + i)) rows;
        table := table w ++ rows;
        commit_faults := tail (commit_faults w);
        calls := calls w ++ [CCommit] |}).
Proof.
  intros Hheap Hnew Hdirty Hdel Hfault rows Hok'.
  apply session_commit_flushed; [done| |done].
  unfold flush. rewrite Hheap, Hnew, Hdirty, Hdel. cbn [foldl].
  apply flush_insert_all.
Qed.

Lemma clean_after_inserts w (rows : list obj) faults cs :
  clean Model w ->
  table_ok Model (table w ++ rows) = true ->
  clean Model
    {| heap := heap w ++ rows; sess_new := []; sess_dirty := [];
       sess_deleted := [];
       sess_identity :=
         sess_identity w
         ++ imap (fun i o' => (row_key Model o', length (heap w) + i)) rows;
       table := table w ++ rows; commit_faults := faults; calls := cs |}.
Proof.
  intros [Hnew Hdirty Hdel Hok Hs] Hok'.
  split; try done. intros k r. fields.
  intros [Hin|Hin]%elem_of_app.
  - destruct (Hs _ _ Hin) as (o & Ho & Hrow). exists o.
    split; [by apply lookup_app_l_Some|by apply find_row_app_l].
  - apply elem_of_lookup_imap in Hin as (i & o' & [= -> ->] & Hi).
    exists o'. split.
    + by rewrite lookup_app_r, Nat.add_comm, Nat.add_sub by lia.
    + apply find_row_unique; [by apply table_ok_NoDup|].
      apply elem_of_app. right. by eapply list_elem_of_lookup_2.
Qed.

(** X14.  On a clean session, [add_to_session] with [operation="create"]
    and [commit=True] on inputs that all validate persists all of them
    with one commit: the rows are appended to the table in input order,
    each with the key the store generates at its turn; the returned
    instances hold these rows although none was refreshed; and the session
    is clean. *)
Theorem add_to_session_persists_batch (datas : list obj) (os : list obj)
    (w : World) :
  clean Model w ->
  Forall2 (fun data o => model_validate Model data = Ok o) datas os ->
  (forall e, head (commit_faults w) <> Some (Some e)) ->
  let rows := inserted_rows Model (table w) os in
  table_ok Model (table w ++ rows) = true ->
  exists refs w',
    add_to_session Model (map ForCreate datas) true "create" w
    = (Ok refs, w')
    /\ table w' = table w ++ rows
    /\ Forall2 (fun r row => heap w' !! r = Some row) refs rows
    /\ calls_since w w' = [CAddAll refs; CCommit]
    /\ clean Model w'.
Proof.
  intros Hclean Hall Hfault rows Hok'.
  pose proof (add_to_session_staged datas os w Hclean Hall) as Hstaged.
  cbv zeta in Hstaged. revert Hstaged.
  unfold add_to_session; run_m. cbn [String.eqb Ascii.eqb Bool.eqb].
  destruct (list_comp _ _ w) as [[db_items|e] w1]; [|done].
  destruct (session_add_all db_items w1) as [[[]|e] w2]; [|done].
  intros [= -> ->].
  erewrite safe_commit_ok.
  2: { apply (session_commit_inserts _ (heap w) os); try done;
         fields; by destruct Hclean. }
  eexists _, _. split; [done|]. fields. split; [done|].
  assert (Hlen : length rows = length os) by apply length_inserted_rows.
  split; [|split].
  - apply Forall2_same_length_lookup_2; [by rewrite length_seq|].
    intros i r o [-> Hi]%lookup_seq Ho.
    by rewrite lookup_app_r, Nat.add_comm, Nat.add_sub by lia.
  - apply calls_since_app. by rewrite <- app_assoc.
  - by apply clean_after_inserts.
Qed.

(** X15.  Chaining: staging a batch with [commit=False] and then calling
    [add_to_session] with an empty list and [commit=True] persists the
    staged batch exactly as one call with [commit=True] would: the same
    rows are appended and the same instances are returned by the first
    call. *)
Theorem add_to_session_chained_commit (datas : list obj) (os : list obj)
    (w : World) :
  clean Model w ->
  Forall2 (fun data o => model_validate Model data = Ok o) datas os ->
  (forall e, head (commit_faults w) <> Some (Some e)) ->
  let rows := inserted_rows Model (table w) os in
  table_ok Model (table w ++ rows) = true ->
  exists refs w1 w2 w',
    add_to_session Model (map ForCreate datas) false "create" w
    = (Ok refs, w1)
    /\ add_to_session Model [] true "create" w1 = (Ok [], w2)
    /\ add_to_session Model (map ForCreate datas) true "create" w
       = (Ok refs, w')
    /\ table w2 = table w'
    /\ heap w2 = heap w'
    /\ table w2 = table w ++ rows.
Proof.
  intros Hclean Hall Hfault rows Hok'.
  pose proof (add_to_session_staged datas os w Hclean Hall) as Hstaged.
  cbv zeta in Hstaged.
  eexists _, _, _, _. split; [exact Hstaged|].
  assert (Hsecond :
    add_to_session Model [] true "create"
      (set_new (seq (length (heap w)) (length os))
         (log (CAddAll (seq (length (heap w)) (length os)))
            (set_heap (heap w ++ os) w)))
    = (Ok [],
       {| heap := heap w ++ rows; sess_new := []; sess_dirty := [];
          sess_deleted := [];
          sess_identity :=
            sess_identity w
            ++ imap (fun i o' => (row_key Model o', length (heap w) + i))
                    rows;
          table := table w ++ rows;
          commit_faults := tail (commit_faults w);
          calls := ((calls w ++ [CAddAll (seq (length (heap w)) (length os))])
                    ++ [CAddAll []]) ++ [CCommit] |})).
  { unfold add_to_session.
    cbn [String.eqb Ascii.eqb Bool.eqb list_comp]. run_m.
    unfold session_add_all. cbn [foldl].
    erewrite safe_commit_ok.
    2: { apply (session_commit_inserts _ (heap w) os); try done;
           fields; by destruct Hclean. }
    done. }
  split; [exact Hsecond|].
  revert Hstaged.
  unfold add_to_session; run_m. cbn [String.eqb Ascii.eqb Bool.eqb].
  destruct (list_comp _ _ w) as [[db_items|e] w1]; [|done].
  destruct (session_add_all db_items w1) as [[[]|e] w2]; [|done].
  intros [= -> ->].
  erewrite safe_commit_ok.
  2: { apply (session_commit_inserts _ (heap w) os); try done;
         fields; by destruct Hclean. }
  done.
Qed.

End Batch.

Lemma add_to_session_stages_only_witness :
  let w := fresh_world [Player.row 1 "Ann"] [] in
  exists refs w',
    add_to_session Player.DbPlayer
      (map ForCreate [Player.PlayerCreate "Bea"; Player.PlayerCreate "Cid"])
      false "create" w
    = (Ok refs, w')
    /\ Forall2 (fun r o => heap w' !! r = Some o) refs
         [({[ "name" := Some (AStr "Bea"); "id" := None ]} : obj);
          ({[ "name" := Some (AStr "Cid"); "id" := None ]} : obj)]
    /\ sess_new w' = refs
    /\ table w' = table w
    /\ calls_since w w' = [CAddAll refs].
Proof.
  apply (add_to_session_stages_only Player.DbPlayer
           [Player.PlayerCreate "Bea"; Player.PlayerCreate "Cid"]).
  - by apply clean_fresh_world.
  - repeat constructor.
Defined.

Lemma add_to_session_persists_batch_witness :
  let w := fresh_world [Player.row 1 "Ann"] [] in
  let rows := inserted_rows Player.DbPlayer (table w)
                [({[ "name" := Some (AStr "Bea"); "id" := None ]} : obj);
                 ({[ "name" := Some (AStr "Cid"); "id" := None ]} : obj)] in
  exists refs w',
    add_to_session Player.DbPlayer
      (map ForCreate [Player.PlayerCreate "Bea"; Player.PlayerCreate "Cid"])
      true "create" w
    = (Ok refs, w')
    /\ table w' = table w ++ rows
    /\ Forall2 (fun r row => heap w' !! r = Some row) refs rows
    /\ calls_since w w' = [CAddAll refs; CCommit]
    /\ clean Player.DbPlayer w'.
Proof.
  apply (add_to_session_persists_batch Player.DbPlayer
           [Player.PlayerCreate "Bea"; Player.PlayerCreate "Cid"]).
  - by apply clean_fresh_world.
  - repeat constructor.
  - by intros e.
  - reflexivity.
Defined.

Lemma add_to_session_chained_commit_witness :
  let w := fresh_world [Player.row 1 "Ann"] [] in
  let rows := inserted_rows Player.DbPlayer (table w)
                [({[ "name" := Some (AStr "Bea"); "id" := None ]} : obj);
                 ({[ "name" := Some (AStr "Cid"); "id" := None ]} : obj)] in
  exists refs w1 w2 w',
    add_to_session Player.DbPlayer
      (map ForCreate [Player.PlayerCreate "Bea"; Player.PlayerCreate "Cid"])
      false "create" w
    = (Ok refs, w1)
    /\ add_to_session Player.DbPlayer [] true "create" w1 = (Ok [], w2)
    /\ add_to_session Player.DbPlayer
         (map ForCreate [Player.PlayerCreate "Bea"; Player.PlayerCreate "Cid"])
         true "create" w
       = (Ok refs, w')
    /\ table w2 = table w'
    /\ heap w2 = heap w'
    /\ table w2 = table w ++ rows.
Proof.
  apply (add_to_session_chained_commit Player.DbPlayer
           [Player.PlayerCreate "Bea"; Player.PlayerCreate "Cid"]).
  - by apply clean_fresh_world.
  - repeat constructor.
  - by intros e.
  - reflexivity.
Defined.

(** *** [one_or_none], [get_all], [all] and the query of the tests *)

Section Queries.

Context (Model : model_class).

Lemma filter_select_all (tbl : list obj) :
  List.filter (selects sql_select) tbl = tbl.
Proof. apply forallb_filter_id, forallb_forall. by intros row _. Qed.

(** X16.  [one_or_none] returns [None] when no row matches the filter, the
    instance of the matching row when exactly one row matches, and raises
    [MultipleResultsFound], chained to the session's error, when two or
    more rows match. *)
Theorem one_or_none_by_number_of_matches (where_ : obj -> bool)
    (w : World) :
  let matching := List.filter where_ (table w) in
  (matching = [] ->
   one_or_none Model where_ w = (Ok None, log CExec w))
  /\ (forall row, matching = [row] ->
      synced Model w -> NoDup (map (row_key Model) (table w)) ->
      exists r w',
        one_or_none Model where_ w = (Ok (Some r), w')
        /\ heap w' !! r = Some row
        /\ table w' = table w)
  /\ (2 <= length matching ->
      exists cause w',
        one_or_none Model where_ w
        = (Err (ExnFrom MultipleResultsFound
                  "Multiple items matched the where clause." cause), w')
        /\ exn_cls cause = SaMultipleResultsFound
        /\ table w' = table w).
Proof.
  cbn. unfold one_or_none, exec, select, session_exec; run_m. fields.
  rewrite selects_where.
  split; [|split].
  - by intros ->.
  - intros row Hm Hs Hnd.
    pose proof (filter_elem_of_table where_ (table w)) as Hall.
    rewrite Hm in *.
    destruct (list_comp_materialize_synced Model [row] (log CExec w))
      as (refs & w' & -> & Hrefs & _ & Ht & _); [done..|].
    apply Forall2_cons_inv_r in Hrefs
      as (r & refs' & Hr & ->%Forall2_nil_inv_r & ->).
    cbn. eauto.
  - intros Hlen.
    destruct (list_comp_materialize_loads Model
                (List.filter where_ (table w)) (log CExec w))
      as (refs & w' & -> & Hrefs & Ht & _).
    rewrite <- Hrefs in Hlen. destruct refs as [|r1 [|r2 refs]]; cbn in Hlen;
      [lia..|].
    cbn. eauto.
Qed.

(** Executing a statement whose rows all come from the table yields their
    instances, in the statement's order. *)
Lemma session_exec_statement_rows stmt w :
  synced Model w ->
  NoDup (map (row_key Model) (table w)) ->
  Forall (fun row => row ∈ table w) (statement_rows stmt (table w)) ->
  exists refs w',
    session_exec_statement Model stmt w = (Ok refs, w')
    /\ Forall2 (fun r row => heap w' !! r = Some row) refs
         (statement_rows stmt (table w))
    /\ synced Model w'
    /\ loads (log CExec w) w'.
Proof.
  intros Hs Hnd Hall. unfold session_exec_statement. fields.
  destruct (list_comp_materialize_synced Model
              (statement_rows stmt (table w)) (log CExec w))
    as (refs & w' & Hrun & Hrefs & Hs' & Hl); [done..|].
  by exists refs, w'.
Qed.

Lemma Forall2_common {A B} (P : A -> B -> Prop) (l l' : list A)
    (k : list B) :
  Forall2 P l k -> Forall2 P l' k ->
  Forall2 (fun a a' => exists b, P a b /\ P a' b) l l'.
Proof.
  intros H. revert l'. induction H as [|a b l k Hab _ IH]; intros l' H'.
  - apply Forall2_nil_inv_r in H' as ->. constructor.
  - apply Forall2_cons_inv_r in H' as (a' & l'' & Ha' & Hl'' & ->).
    constructor; eauto.
Qed.

(** What [all] returns for any combination of its arguments. *)
Lemma all_rows (where_ : option (obj -> bool)) (order_by : option ordering)
    (limit offset : option nat) (w : World) :
  synced Model w ->
  NoDup (map (row_key Model) (table w)) ->
  (forall order, order_by = Some order ->
     forall l row, row ∈ order l -> row ∈ l) ->
  let selected := match where_ with
                  | Some p => List.filter p (table w)
                  | None => table w
                  end in
  let ordered := match order_by with
                 | Some order => order selected
                 | None => selected
                 end in
  let skipped := match offset with
                 | Some m => drop m ordered
                 | None => ordered
                 end in
  let page := match limit with
              | Some n => take n skipped
              | None => skipped
              end in
  exists refs w',
    all Model where_ order_by limit offset w = (Ok refs, w')
    /\ Forall2 (fun r row => heap w' !! r = Some row) refs page
    /\ synced Model w'
    /\ loads (log CExec w) w'.
Proof.
  intros Hs Hnd Hord selected ordered skipped page.
  unfold all. run_m.
  match goal with
  | |- context [session_exec_statement Model ?st w] => set (stmt := st)
  end.
  assert (Hrows : statement_rows stmt (table w) = page).
  { subst stmt page skipped ordered selected. unfold select.
    destruct where_, order_by, limit, offset; unfold statement_rows; cbn;
      rewrite ?selects_where, ?filter_select_all; done. }
  assert (Hsel : Forall (fun row => row ∈ table w) selected).
  { subst selected. destruct where_; [apply filter_elem_of_table|].
    by apply Forall_forall. }
  assert (Hordered : Forall (fun row => row ∈ table w) ordered).
  { subst ordered. destruct order_by as [order|]; [|done].
    apply Forall_forall. intros row Hin.
    eapply (proj1 (Forall_forall _ _) Hsel), Hord; done. }
  assert (Hpage : Forall (fun row => row ∈ table w) page).
  { subst page skipped.
    destruct limit, offset; auto using Forall_take, Forall_drop. }
  destruct (session_exec_statement_rows stmt w Hs Hnd)
    as (refs & w' & -> & Hrefs & Hs' & Hl); [by rewrite Hrows|].
  rewrite Hrows in Hrefs. unfold result_all. by exists refs, w'.
Qed.

(** X17.  [get_all] returns the instance of every stored row, in table
    order, and [all] without arguments is the same call: same result, same
    session afterwards. *)
Theorem get_all_every_row (w : World) :
  synced Model w ->
  NoDup (map (row_key Model) (table w)) ->
  exists refs w',
    get_all Model w = (Ok refs, w')
    /\ all Model None None None None w = (Ok refs, w')
    /\ Forall2 (fun r row => heap w' !! r = Some row) refs (table w)
    /\ table w' = table w.
Proof.
  intros Hs Hnd.
  destruct (all_rows None None None None w Hs Hnd)
    as (refs & w' & Hall & Hrefs & _ & Hl); [done|].
  cbn in Hrefs. exists refs, w'.
  split; [|split; [done|split; [done|by destruct Hl]]].
  rewrite <- Hall. unfold get_all, all, session_exec, session_exec_statement,
    statement_rows. by cbn.
Qed.

(** X18.  [all] returns the instances of the rows that satisfy [where], in
    the order [order_by] gives them, without the first [offset] of them and
    cut after [limit]; an absent argument leaves its step out.  The store
    itself is not changed. *)
Theorem all_filters_orders_pages (where_ : option (obj -> bool))
    (order_by : option ordering) (limit offset : option nat) (w : World) :
  synced Model w ->
  NoDup (map (row_key Model) (table w)) ->
  (forall order, order_by = Some order ->
     forall l row, row ∈ order l -> row ∈ l) ->
  exists refs w',
    all Model where_ order_by limit offset w = (Ok refs, w')
    /\ Forall2 (fun r row => heap w' !! r = Some row) refs
         (let selected := match where_ with
                          | Some p => List.filter p (table w)
                          | None => table w
                          end in
          let ordered := match order_by with
                         | Some order => order selected
                         | None => selected
                         end in
          let skipped := match offset with
                         | Some m => drop m ordered
                         | None => ordered
                         end in
          match limit with
          | Some n => take n skipped
          | None => skipped
          end)
    /\ table w' = table w
    /\ calls w' = calls w ++ [CExec].
Proof.
  intros Hs Hnd Hord.
  destruct (all_rows where_ order_by limit offset w Hs Hnd Hord)
    as (refs & w' & Hall & Hrefs & _ & Hl).
  exists refs, w'. split; [done|]. split; [exact Hrefs|].
  destruct Hl as (Ht & Hc & _). cbn [table calls log] in Ht, Hc. by split.
Qed.

(** X19.  Paging with [all] loses and repeats nothing: a page of at most
    [n] rows taken after skipping [m], followed by everything after
    [m + n], is the whole result after skipping [m]; the page holds no
    more than [n] instances. *)
Theorem all_pages_tile (where_ : option (obj -> bool))
    (order_by : option ordering) (m n : nat) (w : World) :
  synced Model w ->
  NoDup (map (row_key Model) (table w)) ->
  (forall order, order_by = Some order ->
     forall l row, row ∈ order l -> row ∈ l) ->
  exists page w1 rest w2 whole w3,
    all Model where_ order_by (Some n) (Some m) w = (Ok page, w1)
    /\ all Model where_ order_by None (Some (m + n)) w1 = (Ok rest, w2)
    /\ all Model where_ order_by None (Some m) w2 = (Ok whole, w3)
    /\ length page <= n
    /\ Forall2 (fun r r' => exists row,
                   heap w3 !! r = Some row /\ heap w3 !! r' = Some row)
         (page ++ rest) whole.
Proof.
  intros Hs Hnd Hord.
  destruct (all_rows where_ order_by (Some n) (Some m) w Hs Hnd Hord)
    as (page & w1 & Hp & Hpage & Hs1 & Hl1).
  pose proof Hl1 as (Ht1 & _). cbn [table log] in Ht1.
  destruct (all_rows where_ order_by None (Some (m + n)) w1)
    as (rest & w2 & Hr & Hrest & Hs2 & Hl2); [done|by rewrite Ht1|done|].
  pose proof Hl2 as (Ht2 & _). cbn [table log] in Ht2.
  destruct (all_rows where_ order_by None (Some m) w2)
    as (whole & w3 & Hw & Hwhole & Hs3 & Hl3);
    [done|by rewrite Ht2, Ht1|done|].
  cbn zeta in Hpage, Hrest, Hwhole.
  rewrite Ht1 in Hrest. rewrite Ht2, Ht1 in Hwhole.
  set (ordered := match order_by with
                  | Some order => order _
                  | None => _
                  end) in Hpage, Hrest, Hwhole.
  assert (Hpre12 : heap w1 `prefix_of` heap w2) by apply Hl2.
  assert (Hpre23 : heap w2 `prefix_of` heap w3) by apply Hl3.
  assert (Hboth : Forall2 (fun r row => heap w3 !! r = Some row)
                    (page ++ rest) (drop m ordered)).
  { rewrite <- (take_drop n (drop m ordered)), drop_drop.
    apply Forall2_app.
    - eapply Forall2_impl; [exact Hpage|]. cbn. intros r row Hr1.
      eapply prefix_lookup_Some; [|exact Hpre23].
      by eapply prefix_lookup_Some.
    - eapply Forall2_impl; [exact Hrest|]. cbn. intros r row Hr2.
      by eapply prefix_lookup_Some. }
  exists page, w1, rest, w2, whole, w3.
  split; [done|]. split; [done|]. split; [done|].
  split.
  - apply Forall2_length in Hpage. rewrite Hpage, length_take. lia.
  - by eapply Forall2_common.
Qed.

End Queries.

(** X20.  [PlayerService.get_by_name] returns the instances of exactly the
    stored players whose name is the given one, in table order; when no
    player has that name the result is the empty list, not an error. *)
Theorem get_by_name_rows (name : string) (w : World) :
  synced Player.DbPlayer w ->
  NoDup (map (row_key Player.DbPlayer) (table w)) ->
  let named := fun row : obj =>
                 bool_decide (row !! "name" = Some (Some (AStr name))) in
  exists refs w',
    PlayerService.get_by_name name w = (Ok refs, w')
    /\ Forall2 (fun r row => heap w' !! r = Some row) refs
         (List.filter named (table w))
    /\ (List.filter named (table w) = [] -> refs = [])
    /\ table w' = table w.
Proof.
  intros Hs Hnd named.
  unfold PlayerService.get_by_name, exec, select, session_exec; run_m. fields.
  rewrite selects_where. fold named.
  destruct (list_comp_materialize_synced Player.DbPlayer
              (List.filter named (table w)) (log CExec w))
    as (refs & w' & -> & Hrefs & _ & Ht & _);
    [done|done|apply filter_elem_of_table|].
  exists refs, w'. unfold result_all.
  split; [done|]. split; [done|]. split; [|done].
  intros Hnone. rewrite Hnone in Hrefs. by apply Forall2_nil_inv_r in Hrefs.
Qed.

Lemma one_or_none_by_number_of_matches_witness :
  one_or_none Player.DbPlayer
    (fun row => bool_decide (row !! "name" = Some (Some (AStr "Cid"))))
    (fresh_world [Player.row 1 "Ann"; Player.row 2 "Bea"] [])
  = (Ok None,
     log CExec (fresh_world [Player.row 1 "Ann"; Player.row 2 "Bea"] [])).
Proof.
  apply (proj1 (one_or_none_by_number_of_matches Player.DbPlayer _ _)).
  reflexivity.
Defined.

Lemma get_all_every_row_witness :
  exists refs w',
    get_all Player.DbPlayer
      (fresh_world [Player.row 1 "Ann"; Player.row 2 "Bea"] [])
    = (Ok refs, w')
    /\ all Player.DbPlayer None None None None
         (fresh_world [Player.row 1 "Ann"; Player.row 2 "Bea"] [])
       = (Ok refs, w')
    /\ Forall2 (fun r row => heap w' !! r = Some row) refs
         [Player.row 1 "Ann"; Player.row 2 "Bea"]
    /\ table w' = [Player.row 1 "Ann"; Player.row 2 "Bea"].
Proof.
  apply (get_all_every_row Player.DbPlayer
           (fresh_world [Player.row 1 "Ann"; Player.row 2 "Bea"] [])).
  - intros k r Hin. by apply elem_of_nil in Hin.
  - apply (bool_decide_unpack _). vm_compute. exact I.
Defined.

Lemma all_filters_orders_pages_witness :
  exists refs w',
    all Player.DbPlayer
      (Some (fun row =>
               negb (bool_decide (row !! "name" = Some (Some (AStr "Bea"))))))
      (Some reverse) (Some 1) (Some 1)
      (fresh_world
         [Player.row 1 "Ann"; Player.row 2 "Bea"; Player.row 3 "Cid";
          Player.row 4 "Dov"] [])
    = (Ok refs, w')
    /\ Forall2 (fun r row => heap w' !! r = Some row) refs
         [Player.row 3 "Cid"]
    /\ table w'
       = [Player.row 1 "Ann"; Player.row 2 "Bea"; Player.row 3 "Cid";
          Player.row 4 "Dov"]
    /\ calls w' = [CExec].
Proof.
  pose proof (all_filters_orders_pages Player.DbPlayer
                (Some (fun row =>
                         negb (bool_decide
                                 (row !! "name" = Some (Some (AStr "Bea"))))))
                (Some reverse) (Some 1) (Some 1)
                (fresh_world
                   [Player.row 1 "Ann"; Player.row 2 "Bea";
                    Player.row 3 "Cid"; Player.row 4 "Dov"] [])) as Hall.
  apply Hall; clear Hall.
  - intros k r Hin. by apply elem_of_nil in Hin.
  - apply (bool_decide_unpack _). vm_compute. exact I.
  - intros order Heq l row Hin. injection Heq as <-.
    exact (proj1 (elem_of_reverse row l) Hin).
Defined.

Lemma all_pages_tile_witness :
  exists page w1 rest w2 whole w3,
    all Player.DbPlayer None (Some reverse) (Some 2) (Some 1)
      (fresh_world
         [Player.row 1 "Ann"; Player.row 2 "Bea"; Player.row 3 "Cid";
          Player.row 4 "Dov"] [])
    = (Ok page, w1)
    /\ all Player.DbPlayer None (Some reverse) None (Some (1 + 2)) w1
       = (Ok rest, w2)
    /\ all Player.DbPlayer None (Some reverse) None (Some 1) w2
       = (Ok whole, w3)
    /\ length page <= 2
    /\ Forall2 (fun r r' => exists row,
                  heap w3 !! r = Some row /\ heap w3 !! r' = Some row)
         (page ++ rest) whole.
Proof.
  apply (all_pages_tile Player.DbPlayer None (Some reverse) 1 2
           (fresh_world
              [Player.row 1 "Ann"; Player.row 2 "Bea"; Player.row 3 "Cid";
               Player.row 4 "Dov"] [])).
  - intros k r Hin. by apply elem_of_nil in Hin.
  - apply (bool_decide_unpack _). vm_compute. exact I.
  - intros order Heq l row Hin. injection Heq as <-.
    exact (proj1 (elem_of_reverse row l) Hin).
Defined.

Lemma get_by_name_rows_witness :
  exists refs w',
    PlayerService.get_by_name "Bea"
      (fresh_world [Player.row 1 "Ann"; Player.row 2 "Bea"] [])
    = (Ok refs, w')
    /\ Forall2 (fun r row => heap w' !! r = Some row) refs
         [Player.row 2 "Bea"]
    /\ ([Player.row 2 "Bea"] = [] -> refs = [])
    /\ table w' = [Player.row 1 "Ann"; Player.row 2 "Bea"].
Proof.
  apply (get_by_name_rows "Bea"
           (fresh_world [Player.row 1 "Ann"; Player.row 2 "Bea"] [])).
  - intros k r Hin. by apply elem_of_nil in Hin.
  - apply (bool_decide_unpack _). vm_compute. exact I.
Defined.

(** *** Failure of a batch *)

Section BatchFailure.

Context (Model : model_class).

Lemma prepare_batch_invalid good (os : list obj) bad rest e w :
  Forall2 (fun data o => model_validate Model data = Ok o) good os ->
  model_validate Model bad = Err e ->
  list_comp (fun item =>
               match item with
               | ForCreate data => _prepare_for_create Model data
               | ForUpdate _ _ =>
                   raise (Exn ValidationError "validation error")
               end) (map ForCreate (good ++ bad :: rest)) w
  = (Err e, set_heap (heap w ++ os) w).
Proof.
  intros Hall Hbad. revert w.
  induction Hall as [|data o good os Hval Hall IH]; intros w; cbn; run_m.
  - unfold _prepare_for_create. rewrite Hbad. rewrite app_nil_r.
    by destruct w.
  - unfold _prepare_for_create. rewrite Hval. unfold alloc. rewrite IH.
    fields. by rewrite <- app_assoc.
Qed.

(** X21.  One invalid input aborts a whole creation batch: when an input
    of [add_to_session] with [operation="create"] fails validation, its
    error is raised as it is, whatever [commit] says; the session has
    received no call and holds nothing new, and the store is untouched,
    even though the inputs before it were valid. *)
Theorem add_to_session_invalid_input_aborts (good : list obj)
    (os : list obj) (bad : obj) (rest : list obj) (e : exn)
    (commit : bool) (w : World) :
  Forall2 (fun data o => model_validate Model data = Ok o) good os ->
  model_validate Model bad = Err e ->
  exists w',
    add_to_session Model (map ForCreate (good ++ bad :: rest)) commit
      "create" w
    = (Err e, w')
    /\ calls w' = calls w
    /\ sess_new w' = sess_new w
    /\ table w' = table w.
Proof.
  intros Hall Hbad.
  unfold add_to_session; run_m. cbn [String.eqb Ascii.eqb Bool.eqb].
  rewrite (prepare_batch_invalid _ _ _ _ _ _ Hall Hbad).
  by eexists.
Qed.

(** The outcome of a creation batch whose commit the store refuses. *)
Lemma add_to_session_rejected_outcome (datas : list obj)
    (os : list obj) (cause : exn) (w : World) :
  clean Model w ->
  Forall2 (fun data o => model_validate Model data = Ok o) datas os ->
  (head (commit_faults w) = Some (Some cause)
   \/ ((forall e, head (commit_faults w) <> Some (Some e))
       /\ table_ok Model (table w ++ inserted_rows Model (table w) os)
          = false
       /\ cause = Exn SaIntegrityError "constraint failed")) ->
  exists w',
    add_to_session Model (map ForCreate datas) true "create" w
    = (Err (ExnFrom CommitFailed "Commit failed." cause), w')
    /\ table w' = table w
    /\ calls_since w w'
       = [CAddAll (seq (length (heap w)) (length os)); CCommit; CRollback]
    /\ clean Model w'.
Proof.
  intros Hclean Hall Hrej.
  pose proof (add_to_session_staged Model datas os w Hclean Hall) as Hstaged.
  cbv zeta in Hstaged. revert Hstaged.
  unfold add_to_session; run_m. cbn [String.eqb Ascii.eqb Bool.eqb].
  destruct (list_comp _ _ w) as [[db_items|e0] w1]; [|done].
  destruct (session_add_all db_items w1) as [[[]|e0] w2]; [|done].
  intros [= -> ->].
  pose proof Hclean as [Hnew Hdirty Hdel Hok Hs].
  erewrite (safe_commit_failed_world Model _ _ cause _ (heap w ++ os)).
  - eexists. split; [done|]. fields. split; [done|].
    split; [apply calls_since_app; by rewrite <- app_assoc|].
    split; try done. intros k r Hin. fields.
    destruct (Hs _ _ Hin) as (o & Ho & Hrow). exists o.
    split; [by apply lookup_app_l_Some|done].
  - destruct Hrej as [Hf|(Hf & Hbad & ->)].
    + by apply session_commit_fault.
    + eapply session_commit_rejected; [done| |exact Hbad].
      unfold flush. fields. rewrite Hdirty, Hdel. cbn [foldl].
      apply flush_insert_all.
  - intros k r Hin. fields.
    destruct (Hs _ _ Hin) as (o & Ho & Hrow). exists o.
    split; [by apply lookup_app_l_Some|done].
  - done.
  - done.
Qed.

(** X22.  A creation batch is all or nothing: when the commit of
    [add_to_session] with [commit=True] fails, because the store fails or
    because the batch would break the key constraint of the table,
    [CommitFailed] is raised with the message [Commit failed.], chained to
    the cause; the session was rolled back, so no row of the batch has
    been written and nothing is left pending. *)
Theorem add_to_session_commit_failure_writes_nothing (datas : list obj)
    (os : list obj) (cause : exn) (w : World) :
  clean Model w ->
  Forall2 (fun data o => model_validate Model data = Ok o) datas os ->
  (head (commit_faults w) = Some (Some cause)
   \/ ((forall e, head (commit_faults w) <> Some (Some e))
       /\ table_ok Model (table w ++ inserted_rows Model (table w) os)
          = false
       /\ cause = Exn SaIntegrityError "constraint failed")) ->
  exists w',
    add_to_session Model (map ForCreate datas) true "create" w
    = (Err (ExnFrom CommitFailed "Commit failed." cause), w')
    /\ table w' = table w
    /\ calls_since w w'
       = [CAddAll (seq (length (heap w)) (length os)); CCommit; CRollback]
    /\ clean Model w'.
Proof. apply add_to_session_rejected_outcome. Qed.

End BatchFailure.

Lemma add_to_session_invalid_input_aborts_witness :
  exists w',
    add_to_session Player.DbPlayer
      (map ForCreate
         ([Player.PlayerCreate "Bea"]
          ++ ({[ "id" := Some (AInt 7) ]} : obj)
             :: [Player.PlayerCreate "Cid"]))
      true "create" (fresh_world [Player.row 1 "Ann"] [])
    = (Err (Exn ValidationError "validation error for DbPlayer"), w')
    /\ calls w' = calls (fresh_world [Player.row 1 "Ann"] [])
    /\ sess_new w' = sess_new (fresh_world [Player.row 1 "Ann"] [])
    /\ table w' = table (fresh_world [Player.row 1 "Ann"] []).
Proof.
  apply (add_to_session_invalid_input_aborts Player.DbPlayer
           [Player.PlayerCreate "Bea"]
           [({[ "name" := Some (AStr "Bea"); "id" := None ]} : obj)]).
  - repeat constructor.
  - reflexivity.
Defined.

Lemma add_to_session_commit_failure_writes_nothing_witness :
  let w := fresh_world [Player.row 1 "Ann"] [] in
  exists w',
    add_to_session Player.DbPlayer
      (map ForCreate
         [Player.PlayerCreate "Bea";
          ({[ "name" := Some (AStr "Cid"); "id" := Some (AInt 1) ]} : obj)])
      true "create" w
    = (Err (ExnFrom CommitFailed "Commit failed."
              (Exn SaIntegrityError "constraint failed")), w')
    /\ table w' = table w
    /\ calls_since w w'
       = [CAddAll (seq (length (heap w)) 2); CCommit; CRollback]
    /\ clean Player.DbPlayer w'.
Proof.
  apply (add_to_session_commit_failure_writes_nothing Player.DbPlayer
           [Player.PlayerCreate "Bea";
            ({[ "name" := Some (AStr "Cid"); "id" := Some (AInt 1) ]} : obj)]
           [({[ "name" := Some (AStr "Bea"); "id" := None ]} : obj);
            ({[ "name" := Some (AStr "Cid"); "id" := Some (AInt 1) ]} : obj)]).
  - by apply clean_fresh_world.
  - repeat constructor.
  - right. split; [by intros e|]. split; reflexivity.
Defined.

(** *** A batch of updates *)

Section BatchUpdate.

Context (Model : model_class).

(** X23.  [add_to_session] with [operation="update"] and [commit=True] on
    one [(item, data)] pair of a loaded instance does what [update_item]
    does: it leaves the same table, with the row of the item rewritten, and
    the same instances; only the refresh is not made. *)
Theorem add_to_session_update_pair (item : nat) (data : update_input)
    (w : World) (o : obj) :
  clean Model w ->
  item ∈ (sess_identity w).*2 ->
  heap w !! item = Some o ->
  (forall e, head (commit_faults w) <> Some (Some e)) ->
  let o' := assign o (model_dump_exclude_unset data) in
  table_ok Model (replace_row Model (row_key Model o) o' (table w)) = true ->
  exists w1 w2,
    add_to_session Model [ForUpdate item data] true "update" w
    = (Ok [item], w1)
    /\ update_item Model item data w = (Ok item, w2)
    /\ table w1 = table w2
    /\ heap w1 = heap w2
    /\ table w1 = replace_row Model (row_key Model o) o' (table w)
    /\ heap w1 !! item = Some o'
    /\ calls_since w w1 = [CAddAll [item]; CCommit].
Proof.
  intros Hclean Hitem Ho Hfault o' Hok'.
  destruct (update_item_success_world Model item data w o
              Hclean Hitem Ho Hfault Hok') as (w2 & Hupd & Hh2 & Ht2).
  fold o' in Hh2, Ht2.
  destruct Hclean as [Hnew Hdirty Hdel Hok Hs].
  assert (Hp : is_persistent item w = true)
    by by apply bool_decide_eq_true.
  destruct (identity_key_elem_of _ _ Hitem) as [k Hk].
  destruct (Hs _ _ (identity_key_Some _ _ _ Hk)) as (o0 & Ho0 & Hrow).
  assert (o0 = o) as -> by congruence.
  destruct (find_row_Some _ _ _ _ Hrow) as [Hkey Hin].
  assert (Hlt : item < length (heap w)) by by eapply lookup_lt_Some.
  rewrite Hkey in *.
  assert (Hrun : exists w1,
    add_to_session Model [ForUpdate item data] true "update" w
    = (Ok [item], w1)
    /\ heap w1 = <[item := o']> (heap w)
    /\ table w1 = replace_row Model k o' (table w)
    /\ calls w1 = calls w ++ [CAddAll [item]; CCommit]).
  { unfold add_to_session.
    cbn [String.eqb Ascii.eqb Bool.eqb list_comp]. run_m.
    rewrite (apply_changes_world _ _ _ _ Ho).
    unfold session_add_all. cbn [foldl]. subst o'.
    destruct (model_dump_exclude_unset data) as [|c changes] eqn:Hch.
    - unfold stage.
      change (is_persistent item (log _ w)) with (is_persistent item w).
      rewrite Hp. cbn [orb].
      erewrite safe_commit_ok.
      2: { apply session_commit_flushed; [done| |exact Hok].
           unfold flush. fields. rewrite Hnew, Hdirty, Hdel. reflexivity. }
      eexists. split; [done|]. fields. change (assign o []) with o.
      rewrite list_insert_id by done.
      rewrite replace_row_same by (by apply table_ok_NoDup || done).
      by rewrite <- app_assoc.
    - set (o' := assign o (c :: changes)) in *.
      assert (Hnm : note_modified item (set_heap (<[item:=o']> (heap w)) w)
                    = set_dirty [item]
                        (set_heap (<[item:=o']> (heap w)) w)).
      { unfold note_modified.
        change (is_persistent item (set_heap _ w))
          with (is_persistent item w).
        rewrite Hp. fields. rewrite Hdirty. cbn [negb andb].
        rewrite bool_decide_eq_false_2; [done|]. apply not_elem_of_nil. }
      rewrite Hnm. unfold stage.
      change (is_persistent item (log _ (set_dirty _ (set_heap _ w))))
        with (is_persistent item w).
      rewrite Hp. cbn [orb].
      erewrite safe_commit_ok.
      2: { apply session_commit_flushed; [done| |exact Hok'].
           unfold flush. fields.
           rewrite Hnew, Hdel. cbn [foldl]. unfold flush_update.
           rewrite Hk, list_lookup_insert_eq by done. reflexivity. }
      eexists. split; [done|]. fields. by rewrite <- app_assoc. }
  destruct Hrun as (w1 & Hadd & Hh1 & Ht1 & Hc1).
  exists w1, w2. split; [done|]. split; [done|].
  split; [congruence|]. split; [congruence|]. split; [done|].
  split; [|by apply calls_since_app].
  rewrite Hh1. by apply list_lookup_insert_eq.
Qed.

End BatchUpdate.

Lemma add_to_session_update_pair_witness :
  let w := loaded_world Player.DbPlayer
             [Player.row 1 "Ann"; Player.row 2 "Bea"] [] in
  let o' := assign (Player.row 2 "Bea")
              (model_dump_exclude_unset (Player.PlayerUpdate "Bo")) in
  exists w1 w2,
    add_to_session Player.DbPlayer
      [ForUpdate 1 (Player.PlayerUpdate "Bo")] true "update" w
    = (Ok [1], w1)
    /\ update_item Player.DbPlayer 1 (Player.PlayerUpdate "Bo") w
       = (Ok 1, w2)
    /\ table w1 = table w2
    /\ heap w1 = heap w2
    /\ table w1
       = replace_row Player.DbPlayer
           (row_key Player.DbPlayer (Player.row 2 "Bea")) o' (table w)
    /\ heap w1 !! 1 = Some o'
    /\ calls_since w w1 = [CAddAll [1]; CCommit].
Proof.
  apply (add_to_session_update_pair Player.DbPlayer 1
           (Player.PlayerUpdate "Bo")
           (loaded_world Player.DbPlayer
              [Player.row 1 "Ann"; Player.row 2 "Bea"] [])
           (Player.row 2 "Bea")).
  - by apply clean_loaded_world.
  - apply (bool_decide_unpack _). vm_compute. exact I.
  - reflexivity.
  - by intros e.
  - reflexivity.
Defined.

(** *** A commit that fails *)

Section CommitFailureLaw.

Context (Model : model_class).

Lemma rolled_back_and_raised_since {A} w msg cause (r : result A) w' pre :
  r = Err (ExnFrom CommitFailed msg cause) ->
  calls_since w w' = pre ++ [CCommit; CRollback] ->
  Forall (fun c => is_commit c = false) pre ->
  rolled_back_and_raised w msg cause (r, w').
Proof. intros -> Hc Hpre. split; [done|]. by exists pre. Qed.

(** C3.  When the commit of the session fails, for whatever reason,
    [_safe_commit] rolls the session back and then raises [CommitFailed]
    chained to the cause; and so does every operation that commits.  When
    the store fails the commit they make, [create], [update_item],
    [update], [delete_by_pk] and [add_to_session] with [commit=True] end
    their calls with that one commit and the rollback, and raise
    [CommitFailed] from the failure; on a clean session the same holds
    when the store refuses the commit of [create], [update_item] or a
    creation batch because the rows would break the key constraint.
    [create_multiple] never gets to make a commit call, so that no commit
    of its can fail. *)
Theorem commit_failure_rolls_back_then_raises :
  (forall msg w cause w1,
     session_commit Model w = (Err cause, w1) ->
     rolled_back_and_raised w msg cause (_safe_commit Model msg w))
  /\ (forall w e,
       head (commit_faults w) = Some (Some e) ->
       (forall data o,
          model_validate Model data = Ok o ->
          rolled_back_and_raised w "Commit failed." e (create Model data w))
       /\ (forall item data,
            rolled_back_and_raised w "Update failed." e
              (update_item Model item data w))
       /\ (forall pk k data,
            key_values Model pk = Ok k ->
            k ∈ map (row_key Model) (table w) ->
            rolled_back_and_raised w "Update failed." e
              (update Model pk data w))
       /\ (forall pk k,
            key_values Model pk = Ok k ->
            k ∈ map (row_key Model) (table w) ->
            rolled_back_and_raised w "Failed to delete item." e
              (delete_by_pk Model pk w))
       /\ (forall items operation,
            prepares Model operation items = true ->
            rolled_back_and_raised w "Commit failed." e
              (add_to_session Model items true operation w)))
  /\ (forall w cause,
       clean Model w ->
       (forall data o,
          model_validate Model data = Ok o ->
          create_rejected Model w o cause ->
          rolled_back_and_raised w "Commit failed." cause
            (create Model data w))
       /\ (forall item data o,
            item ∈ (sess_identity w).*2 ->
            heap w !! item = Some o ->
            update_rejected Model w o
              (assign o (model_dump_exclude_unset data)) cause ->
            rolled_back_and_raised w "Update failed." cause
              (update_item Model item data w))
       /\ (forall datas os,
            Forall2 (fun data o => model_validate Model data = Ok o)
              datas os ->
            (head (commit_faults w) = Some (Some cause)
             \/ ((forall e, head (commit_faults w) <> Some (Some e))
                 /\ table_ok Model
                      (table w ++ inserted_rows Model (table w) os) = false
                 /\ cause = Exn SaIntegrityError "constraint failed")) ->
            rolled_back_and_raised w "Commit failed." cause
              (add_to_session Model (map ForCreate datas) true "create" w)))
  /\ (forall datalist w,
       count is_commit
         (calls_since w (create_multiple Model datalist w).2) = 0).
Proof.
  split; [|split; [|split]].
  - intros msg w cause w1 Hc.
    destruct (safe_commit_failed Model msg w cause w1 Hc)
      as (w' & Hrun & Hcalls & _).
    apply (rolled_back_and_raised_intro _ _ _ _ []); rewrite ?Hrun; done.
  - intros w e Hfault.
    split; [|split; [|split; [|split]]].
    + intros data o Hval.
      destruct (create_commit_failed Model data w o e Hval Hfault)
        as (w' & pre & Hrun & Hcalls & Hpre).
      apply (rolled_back_and_raised_intro _ _ _ _ pre); rewrite ?Hrun; done.
    + intros item data.
      destruct (update_item_commit_failed Model item data w e Hfault)
        as (w' & pre & Hrun & Hcalls & Hpre).
      apply (rolled_back_and_raised_intro _ _ _ _ pre); rewrite ?Hrun; done.
    + intros pk k data Hk Hin.
      destruct (update_commit_failed Model pk k data w e Hk Hin Hfault)
        as (w' & pre & Hrun & Hcalls & Hpre).
      apply (rolled_back_and_raised_intro _ _ _ _ pre); rewrite ?Hrun; done.
    + intros pk k Hk Hin.
      destruct (get_by_pk_resolves Model pk k w Hk Hin)
        as (item & w1 & Hget).
      destruct (delete_by_pk_commit_failed Model pk item w w1 e Hget Hfault)
        as (w' & pre & Hrun & Hcalls & Hpre).
      apply (rolled_back_and_raised_intro _ _ _ _ pre); rewrite ?Hrun; done.
    + intros items operation Hprep.
      pose proof (add_to_session_commit_failed Model items operation w e
                    Hfault) as Hrun.
      pose proof (add_to_session_calls Model items true operation w) as Hc.
      destruct (add_to_session Model items true operation w) as [r w'].
      destruct Hc as [(_ & _ & Hnot)|(db_items' & _ & Hd')];
        [congruence|].
      destruct Hrun as [[Hd _]|[-> [db_items Hd]]]; [congruence|].
      by apply (rolled_back_and_raised_since _ _ _ _ _ [CAddAll db_items]);
        [| |constructor].
  - intros w cause Hclean. split; [|split].
    + intros data o Hval Hrej.
      destruct (create_rejected_outcome Model data w o cause
                  Hclean Hval Hrej) as (w' & -> & _ & Hcalls & _).
      by apply (rolled_back_and_raised_since _ _ _ _ _
                  [CAdd (length (heap w))]); [| |constructor].
    + intros item data o Hitem Ho Hrej.
      destruct (update_item_rejected_outcome Model item data w o cause
                  Hclean Hitem Ho Hrej) as (w' & -> & _ & _ & Hcalls & _).
      by apply (rolled_back_and_raised_since _ _ _ _ _ [CAdd item]);
        [| |constructor].
    + intros datas os Hall Hrej.
      destruct (add_to_session_rejected_outcome Model datas os cause w
                  Hclean Hall Hrej) as (w' & -> & _ & Hcalls & _).
      by apply (rolled_back_and_raised_since _ _ _ _ _
                  [CAddAll (seq (length (heap w)) (length os))]);
        [| |constructor].
  - intros datalist w. unfold calls_since.
    by rewrite create_multiple_calls, drop_all.
Qed.

End CommitFailureLaw.

Lemma commit_failure_rolls_back_then_raises_witness :
  let w := loaded_world Player.DbPlayer [Player.row 1 "Ann"]
             [Some (Exn SaOperationalError "connection lost")] in
  rolled_back_and_raised w "Commit failed."
    (Exn SaOperationalError "connection lost")
    (create Player.DbPlayer (Player.PlayerCreate "Bea") w)
  /\ rolled_back_and_raised w "Failed to delete item."
       (Exn SaOperationalError "connection lost")
       (delete_by_pk Player.DbPlayer (KAtom (AInt 1)) w).
Proof.
  pose proof (proj1 (proj2
    (commit_failure_rolls_back_then_raises Player.DbPlayer))
    (loaded_world Player.DbPlayer [Player.row 1 "Ann"]
       [Some (Exn SaOperationalError "connection lost")])
    (Exn SaOperationalError "connection lost") eq_refl)
    as (Hcreate & _ & _ & Hdelete & _).
  split.
  - apply (Hcreate (Player.PlayerCreate "Bea")
             {[ "name" := Some (AStr "Bea"); "id" := None ]}).
    reflexivity.
  - apply (Hdelete (KAtom (AInt 1)) [Some (AInt 1)]); [reflexivity|].
    apply (bool_decide_unpack _). vm_compute. exact I.
Defined.
